(** * A shallow embedding of the LSH read-eval loop (shell.c)

    The C program is modelled as state-passing code over an explicit
    [world]: the heap of allocated blocks, the standard streams, the
    outcomes the operating system will give to future calls, and a log of
    the library calls made.  Each C function keeps its name.

    Choices of the model:
    - the [int] counters [buffsize] and [pos] of [lsh_split_line] are
      integers of [Z]: the model agrees with the C code as long as they
      stay within [INT_MAX], that is for lines of fewer than 2^31 - 64
      tokens (from there on [buffsize += LSH_TOK_BUFSIZE] overflows); the
      theorems about the size of the array state this bound;
    - [getline] allocates its buffer before it reads, as glibc does: after
      a failed read the buffer is there, unless it is the allocation that
      failed;
    - a system call that fails sets the errno the world gives for it;
    - [fork] is followed on both sides: in the shell, and in the child,
      which either is replaced by the program or exits;
    - what C leaves undefined (a read outside a block, of a cell never
      written, of a freed block) stops the run with [Undefined]. *)

From Stdlib Require Import ZArith Strings.Byte Strings.String.
From stdpp Require Import gmap list.
Import Byte.

#[local] Open Scope Z_scope.

#[global] Instance byte_eq_dec : EqDecision byte := Byte.byte_eq_dec.

(** ** C strings inside a block of bytes *)

Module CStr.

Definition NUL : byte := x00.

(** The bytes of a C string literal (without its terminator). *)
Definition lit (s : string) : list byte := list_byte_of_string s.

(** [strchr]-style membership of a character in the string [set]. *)
Definition mem (c : byte) (set : list byte) : bool := bool_decide (c ∈ set).

(** The string that starts at the head of [bs]: the bytes before the first
    NUL.  [None] when the scan leaves the block without meeting one. *)
Fixpoint cstr (bs : list byte) : option (list byte) :=
  match bs with
  | [] => None
  | c :: r => if bool_decide (c = NUL) then Some [] else cons c <$> cstr r
  end.

Definition cstr_at (bs : list byte) (off : nat) : option (list byte) :=
  cstr (drop off bs).

(** [strspn(s, accept)]: length of the initial segment made of characters
    of [accept]. *)
Fixpoint strspn (bs accept : list byte) : option nat :=
  match bs with
  | [] => None
  | c :: r =>
      if bool_decide (c = NUL) then Some 0%nat
      else if mem c accept then S <$> strspn r accept
      else Some 0%nat
  end.

(** [strcspn(s, reject)]: length of the initial segment free of characters
    of [reject]. *)
Fixpoint strcspn (bs reject : list byte) : option nat :=
  match bs with
  | [] => None
  | c :: r =>
      if bool_decide (c = NUL) then Some 0%nat
      else if mem c reject then Some 0%nat
      else S <$> strcspn r reject
  end.

(** One [strtok] search in the block [bs] from offset [s]: the token found
    (its offset) or NULL, the block after the call, and the offset saved
    for the next search.  [None] is a read outside the block. *)
Definition strtok_buf (bs : list byte) (s : nat) (delim : list byte)
  : option (option nat * list byte * nat) :=
  k ← strspn (drop s bs) delim;
  let tok := (s + k)%nat in
  c ← bs !! tok;
  if bool_decide (c = NUL) then Some (None, bs, tok)
  else
    m ← strcspn (drop tok bs) delim;
    let e := (tok + m)%nat in
    c' ← bs !! e;
    if bool_decide (c' = NUL) then Some (Some tok, bs, e)
    else Some (Some tok, <[e := NUL]> bs, S e).

(** [strcmp]: the difference of the first bytes that differ (as unsigned
    char), 0 when the strings are equal. *)
Fixpoint strcmp (a b : list byte) : Z :=
  match a, b with
  | [], [] => 0
  | [], c :: _ => - Z.of_N (Byte.to_N c)
  | c :: _, [] => Z.of_N (Byte.to_N c)
  | c :: a', d :: b' =>
      if bool_decide (c = d) then strcmp a' b'
      else Z.of_N (Byte.to_N c) - Z.of_N (Byte.to_N d)
  end.

End CStr.

(** ** What the tokenizer is meant to compute

    These definitions follow the specification's words, not the code: the
    maximal runs of characters that are not in the delimiter set. *)

Module Runs.

Section WithDelims.
Variable delim : list byte.

Definition is_ws (c : byte) : bool := CStr.mem c delim.

Definition flush (cur : list byte) : list (list byte) :=
  match cur with [] => [] | _ => [cur] end.

(** The maximal non-whitespace runs of [s], left to right; [cur] is the
    run being read. *)
Fixpoint collect (cur s : list byte) : list (list byte) :=
  match s with
  | [] => flush cur
  | c :: r => if is_ws c then flush cur ++ collect [] r
              else collect (cur ++ [c]) r
  end.

Definition runs (s : list byte) : list (list byte) := collect [] s.

(** The line spelled with its runs: a separator, a run, a separator, ...,
    a last separator. *)
Fixpoint weave (seps toks : list (list byte)) : list byte :=
  match seps with
  | [] => []
  | sep :: seps' =>
      match toks with
      | [] => sep
      | t :: toks' => sep ++ t ++ weave seps' toks'
      end
  end.

(** A run is not empty and holds no delimiter. *)
Definition is_word (t : list byte) : Prop :=
  t ≠ [] ∧ Forall (fun c => is_ws c = false) t.

(** [toks] are the maximal runs of [s]: [s] is made of them and of
    separators, all whitespace, none empty between two runs, and every run
    is a non-empty stretch without whitespace. *)
Definition splits_into (s : list byte) (toks : list (list byte)) : Prop :=
  Forall is_word toks
  ∧ ∃ seps,
      length seps = S (length toks)
      ∧ Forall (Forall (fun c => is_ws c = true)) seps
      ∧ (∀ i sep, seps !! S i = Some sep → (S i < length toks)%nat → sep ≠ [])
      ∧ weave seps toks = s.

(** The number of maximal runs: the positions where a non-whitespace
    character stands first in the line or right after a whitespace one. *)
Fixpoint count_from (prev_ws : bool) (s : list byte) : nat :=
  match s with
  | [] => 0%nat
  | c :: r =>
      ((if prev_ws && negb (is_ws c) then 1 else 0) + count_from (is_ws c) r)%nat
  end.

Definition count_runs (s : list byte) : nat := count_from true s.

(** The first run and what follows its closing delimiter, with the lengths
    of the leading whitespace and of the run. *)
Fixpoint ws_len (s : list byte) : nat :=
  match s with
  | c :: r => if is_ws c then S (ws_len r) else 0%nat
  | [] => 0%nat
  end.

Fixpoint word_len (s : list byte) : nat :=
  match s with
  | c :: r => if is_ws c then 0%nat else S (word_len r)
  | [] => 0%nat
  end.

Fixpoint skip_ws (s : list byte) : list byte :=
  match s with
  | c :: r => if is_ws c then skip_ws r else s
  | [] => []
  end.

Fixpoint word (s : list byte) : list byte :=
  match s with
  | c :: r => if is_ws c then [] else c :: word r
  | [] => []
  end.

Fixpoint after_word (s : list byte) : list byte :=
  match s with
  | c :: r => if is_ws c then r else after_word r
  | [] => []
  end.

Definition next_token (s : list byte) : option (list byte * list byte) :=
  match skip_ws s with
  | [] => None
  | s1 => Some (word s1, after_word s1)
  end.

End WithDelims.
End Runs.

(** ** The world a process runs in *)

(** A [char*]: a block of the heap and an offset in it. *)
Definition ptr : Type := nat * nat.

(** One cell of a [char*] array: not yet written, NULL, or a pointer. *)
Inductive slot := Uninit | Null | Ptr (p : ptr).

Inductive block :=
| Chars (bs : list byte)      (* a char buffer *)
| Ptrs (ps : list slot).      (* an array of char* *)

(** What one [getline] on stdin will find. *)
Inductive getline_result :=
| GetlineOk (bs : list byte)             (* a line, as stored before the NUL *)
| GetlineFail (eof : bool) (err : Z)     (* -1: end of file, or an error *)
| GetlineNoMem (err : Z).                (* -1: no memory for the buffer *)

(** What one [fork] will give: the calling process sees an error or the
    child's pid together with the statuses [waitpid] will report for that
    child; [ForkChild] is the return in the new process. *)
Inductive fork_result :=
| ForkError (err : Z)
| ForkChild
| ForkParent (pid : Z) (reports : list Z).

(** The library calls that reach the operating system or the allocator. *)
Inductive call :=
| CGetline
| CMalloc (n : Z)
| CRealloc (b : nat) (n : Z)
| CFree (b : nat)
| CFork
| CExecvp (file : list byte) (argv : list (list byte))
| CWaitpid (pid : Z)
| CChdir (path : list byte).

#[projections(primitive)]
Record world := World {
  stdin : list getline_result;     (* results of the getline calls to come *)
  stdin_eof : bool;                (* end-of-file indicator of stdin *)
  stdout : list byte;
  stderr : list byte;
  errno : Z;
  strerror : Z → list byte;        (* the C library's message for an errno *)
  heap : gmap nat block;           (* the live blocks *)
  alloc_ok : nat → bool;           (* does the k-th malloc/realloc succeed *)
  alloc_count : nat;               (* malloc/realloc calls made so far *)
  strtok_save : option ptr;        (* strtok's static pointer *)
  forks : list fork_result;        (* results of the fork calls to come *)
  children : gmap Z (list Z);      (* unreaped children and their reports *)
  progs : list (list byte);        (* names execvp can resolve and run *)
  cwd : list byte;
  dirs : list (list byte);         (* paths chdir accepts *)
  calls : list call;               (* log of the calls made, oldest first *)
  sys_errno : call → Z             (* the errno a system call sets if it fails *)
}.

Definition set_stdin v w := World v (stdin_eof w) (stdout w) (stderr w) (errno w) (strerror w)
  (heap w) (alloc_ok w) (alloc_count w) (strtok_save w) (forks w) (children w) (progs w) (cwd w) (dirs w) (calls w) (sys_errno w).
Definition set_stdin_eof v w := World (stdin w) v (stdout w) (stderr w) (errno w) (strerror w)
  (heap w) (alloc_ok w) (alloc_count w) (strtok_save w) (forks w) (children w) (progs w) (cwd w) (dirs w) (calls w) (sys_errno w).
Definition set_stdout v w := World (stdin w) (stdin_eof w) v (stderr w) (errno w) (strerror w)
  (heap w) (alloc_ok w) (alloc_count w) (strtok_save w) (forks w) (children w) (progs w) (cwd w) (dirs w) (calls w) (sys_errno w).
Definition set_stderr v w := World (stdin w) (stdin_eof w) (stdout w) v (errno w) (strerror w)
  (heap w) (alloc_ok w) (alloc_count w) (strtok_save w) (forks w) (children w) (progs w) (cwd w) (dirs w) (calls w) (sys_errno w).
Definition set_errno v w := World (stdin w) (stdin_eof w) (stdout w) (stderr w) v (strerror w)
  (heap w) (alloc_ok w) (alloc_count w) (strtok_save w) (forks w) (children w) (progs w) (cwd w) (dirs w) (calls w) (sys_errno w).
Definition set_heap v w := World (stdin w) (stdin_eof w) (stdout w) (stderr w) (errno w) (strerror w)
  v (alloc_ok w) (alloc_count w) (strtok_save w) (forks w) (children w) (progs w) (cwd w) (dirs w) (calls w) (sys_errno w).
Definition set_alloc_count v w := World (stdin w) (stdin_eof w) (stdout w) (stderr w) (errno w) (strerror w)
  (heap w) (alloc_ok w) v (strtok_save w) (forks w) (children w) (progs w) (cwd w) (dirs w) (calls w) (sys_errno w).
Definition set_strtok_save v w := World (stdin w) (stdin_eof w) (stdout w) (stderr w) (errno w) (strerror w)
  (heap w) (alloc_ok w) (alloc_count w) v (forks w) (children w) (progs w) (cwd w) (dirs w) (calls w) (sys_errno w).
Definition set_forks v w := World (stdin w) (stdin_eof w) (stdout w) (stderr w) (errno w) (strerror w)
  (heap w) (alloc_ok w) (alloc_count w) (strtok_save w) v (children w) (progs w) (cwd w) (dirs w) (calls w) (sys_errno w).
Definition set_children v w := World (stdin w) (stdin_eof w) (stdout w) (stderr w) (errno w) (strerror w)
  (heap w) (alloc_ok w) (alloc_count w) (strtok_save w) (forks w) v (progs w) (cwd w) (dirs w) (calls w) (sys_errno w).
Definition set_cwd v w := World (stdin w) (stdin_eof w) (stdout w) (stderr w) (errno w) (strerror w)
  (heap w) (alloc_ok w) (alloc_count w) (strtok_save w) (forks w) (children w) (progs w) v (dirs w) (calls w) (sys_errno w).
Definition set_calls v w := World (stdin w) (stdin_eof w) (stdout w) (stderr w) (errno w) (strerror w)
  (heap w) (alloc_ok w) (alloc_count w) (strtok_save w) (forks w) (children w) (progs w) (cwd w) (dirs w) v (sys_errno w).

Definition log (c : call) (w : world) : world := set_calls (calls w ++ [c]) w.

(** ** Outcomes of a call and the monad of the process *)

(** How a call can fail to return to its caller. *)
Inductive stop :=
| Exit (code : Z)                                       (* exit(code) *)
| Replaced (file : list byte) (argv : list (list byte)) (* execvp succeeded *)
| Blocked         (* waits for ever on a child that never changes state *)
| Undefined       (* undefined behaviour: a read or write through a bad pointer *)
| OutOfFuel.      (* a loop bound of the model was too small (never happens) *)

Inductive outcome (A : Type) :=
| Returns (a : A)
| Stops (s : stop).
Arguments Returns {A} a.
Arguments Stops {A} s.

Definition M (A : Type) : Type := world → outcome A * world.

Definition ret {A} (a : A) : M A := fun w => (Returns a, w).

Definition bind {A B} (m : M A) (f : A → M B) : M B :=
  fun w => match m w with
           | (Returns a, w') => f a w'
           | (Stops s, w') => (Stops s, w')
           end.

Definition halt {A} (s : stop) : M A := fun w => (Stops s, w).
Definition get {A} (f : world → A) : M A := fun w => (Returns (f w), w).
Definition modify (f : world → world) : M unit := fun w => (Returns tt, f w).

(** [preserves f m]: running [m] leaves the component [f] of the world as
    it was, however [m] ends. *)
Definition preserves {A B} (f : world → A) (m : M B) : Prop :=
  ∀ w o w', m w = (o, w') → f w' = f w.

#[global] Instance M_ret : MRet M := @ret.
#[global] Instance M_bind : MBind M := fun A B f m => bind m f.

(** ** The C library and the system calls the shell uses *)

Module Libc.

Definition EXIT_SUCCESS : Z := 0.
Definition EXIT_FAILURE : Z := 1.
Definition ENOENT : Z := 2.
Definition ECHILD : Z := 10.
Definition EAGAIN : Z := 11.
Definition EOF_RESULT : Z := -1.

Definition newline : list byte := [x0a].
Definition dquote : list byte := [x22].

Definition exit {A} (code : Z) : M A := halt (Exit code).

(** [printf] of an already formatted text. *)
Definition printf (s : list byte) : M unit :=
  modify (fun w => set_stdout (stdout w ++ s) w).

Definition fprintf_stderr (s : list byte) : M unit :=
  modify (fun w => set_stderr (stderr w ++ s) w).

(** [perror(s)]: "s: message of errno" and a newline on stderr. *)
Definition perror_text (s : list byte) (w : world) : list byte :=
  s ++ CStr.lit ": " ++ strerror w (errno w) ++ newline.

Definition perror (s : list byte) : M unit :=
  modify (fun w => set_stderr (stderr w ++ perror_text s w) w).

(** The C string a pointer designates in the heap. *)
Definition string_at (w : world) (p : ptr) : option (list byte) :=
  match heap w !! p.1 with
  | Some (Chars bs) => CStr.cstr_at bs p.2
  | _ => None
  end.

Definition load_string (p : ptr) : M (list byte) :=
  fun w => match string_at w p with
           | Some s => (Returns s, w)
           | None => (Stops Undefined, w)
           end.

(** [a[i]] for a [char **a]. *)
Definition load_slot (a : nat) (i : nat) : M (option ptr) :=
  fun w => match heap w !! a with
           | Some (Ptrs ps) =>
               match ps !! i with
               | Some Null => (Returns None, w)
               | Some (Ptr p) => (Returns (Some p), w)
               | _ => (Stops Undefined, w)
               end
           | _ => (Stops Undefined, w)
           end.

(** [a[i] = v] for a [char **a]. *)
Definition store_slot (a : nat) (i : Z) (v : slot) : M unit :=
  fun w => match heap w !! a with
           | Some (Ptrs ps) =>
               if bool_decide (0 ≤ i < Z.of_nat (length ps)) then
                 (Returns tt, set_heap (<[a := Ptrs (<[Z.to_nat i := v]> ps)]> (heap w)) w)
               else (Stops Undefined, w)
           | _ => (Stops Undefined, w)
           end.

(** The strings of a NULL-terminated [char*] array, as [execvp] reads its
    argument vector. *)
Fixpoint strings_until_null (w : world) (ps : list slot) : option (list (list byte)) :=
  match ps with
  | Null :: _ => Some []
  | Ptr p :: r =>
      s ← string_at w p; l ← strings_until_null w r; Some (s :: l)
  | _ => None
  end.

Definition argv_strings (w : world) (a : nat) : option (list (list byte)) :=
  match heap w !! a with
  | Some (Ptrs ps) => strings_until_null w ps
  | _ => None
  end.

(** [malloc(n * sizeof(char* ))]: a fresh array of [n] unwritten cells, or
    NULL. *)
Definition malloc (n : Z) : M (option nat) :=
  fun w =>
    let w1 := log (CMalloc n) (set_alloc_count (S (alloc_count w)) w) in
    if alloc_ok w (alloc_count w) then
      let b := fresh (dom (heap w)) in
      (Returns (Some b), set_heap (<[b := Ptrs (replicate (Z.to_nat n) Uninit)]> (heap w)) w1)
    else (Returns None, w1).

(** [realloc(a, n * sizeof(char* ))]: on success the old block is gone and
    the new one starts with its cells; on failure the old block stays. *)
Definition realloc (a : nat) (n : Z) : M (option nat) :=
  fun w =>
    match heap w !! a with
    | Some (Ptrs ps) =>
        let w1 := log (CRealloc a n) (set_alloc_count (S (alloc_count w)) w) in
        if alloc_ok w (alloc_count w) then
          let h := delete a (heap w) in
          let b := fresh (dom h) in
          let ps' := take (Z.to_nat n) ps ++ replicate (Z.to_nat n - length ps) Uninit in
          (Returns (Some b), set_heap (<[b := Ptrs ps']> h) w1)
        else (Returns None, w1)
    | _ => (Stops Undefined, w)
    end.

Definition free (b : nat) : M unit :=
  fun w => match heap w !! b with
           | Some _ => (Returns tt, log (CFree b) (set_heap (delete b (heap w)) w))
           | None => (Stops Undefined, w)
           end.

(** The buffer [getline] allocates before it reads anything: 120 bytes
    in glibc.  What they hold is indeterminate; the shell never reads them
    after a failed read. *)
Definition getline_buffer : list byte := replicate 120 CStr.NUL.

(** [getline(&line, &n, stdin)] with [line == NULL]: the pointer to a fresh
    buffer holding the line and its NUL, or nothing when it returns -1.
    The buffer is allocated first, so that it is there also when the read
    fails (and is to be freed by the caller), unless no memory could be
    had for it.  A stream with nothing more to give is at end of file. *)
Definition getline : M (option ptr) :=
  fun w =>
    match stdin w with
    | GetlineOk bs :: rest =>
        let b := fresh (dom (heap w)) in
        (Returns (Some (b, 0%nat)),
         log CGetline (set_heap (<[b := Chars (bs ++ [CStr.NUL])]> (heap w)) (set_stdin rest w)))
    | GetlineFail eof err :: rest =>
        let b := fresh (dom (heap w)) in
        (Returns None,
         log CGetline
           (set_heap (<[b := Chars getline_buffer]> (heap w))
              (set_errno err (set_stdin_eof (stdin_eof w || eof) (set_stdin rest w)))))
    | GetlineNoMem err :: rest =>
        (Returns None, log CGetline (set_errno err (set_stdin rest w)))
    | [] =>
        let b := fresh (dom (heap w)) in
        (Returns None,
         log CGetline (set_heap (<[b := Chars getline_buffer]> (heap w)) (set_stdin_eof true w)))
    end.

Definition feof_stdin : M bool := get stdin_eof.

(** [strtok(s, delim)]: [s] is the string to search, or NULL to go on from
    the saved pointer. *)
Definition strtok (s : option ptr) (delim : list byte) : M (option ptr) :=
  fun w =>
    match (match s with Some p => Some p | None => strtok_save w end) with
    | None => (Stops Undefined, w)
    | Some (b, off) =>
        match heap w !! b with
        | Some (Chars bs) =>
            match CStr.strtok_buf bs off delim with
            | Some (tok, bs', save) =>
                (Returns (pair b <$> tok),
                 set_strtok_save (Some (b, save)) (set_heap (<[b := Chars bs']> (heap w)) w))
            | None => (Stops Undefined, w)
            end
        | _ => (Stops Undefined, w)
        end
    end.

(** [chdir(path)]: 0, or -1 with the errno of the failure (ENOENT, ENOTDIR,
    EACCES, ...), which the system decides. *)
Definition chdir (p : ptr) : M Z :=
  path ← load_string p;
  modify (log (CChdir path));;
  (fun w => if bool_decide (path ∈ dirs w) then (Returns 0, set_cwd path w)
            else (Returns (-1), set_errno (sys_errno w (CChdir path)) w)) : M Z.

(** [fork()]: 0 in the child, the child's pid in the parent, -1 on error.
    When the outcomes run out the system refuses to create processes. *)
Definition fork : M Z :=
  modify (log CFork);;
  (fun w =>
    match forks w with
    | ForkChild :: rest => (Returns 0, set_children ∅ (set_forks rest w))
    | ForkParent pid reports :: rest =>
        (Returns pid, set_children (<[pid := reports]> (children w)) (set_forks rest w))
    | ForkError err :: rest => (Returns (-1), set_errno err (set_forks rest w))
    | [] => (Returns (-1), set_errno EAGAIN w)
    end) : M Z.

(** [execvp(file, argv)]: does not return when the image is replaced;
    otherwise -1 with the errno of the failure (ENOENT, EACCES, ENOEXEC,
    ...), which the system decides. *)
Definition execvp (file : option ptr) (argv : nat) : M Z :=
  fun w =>
    match file with
    | None => (Stops Undefined, w)
    | Some p =>
        match string_at w p, argv_strings w argv with
        | Some f, Some args =>
            let w1 := log (CExecvp f args) w in
            if bool_decide (f ∈ progs w) then (Stops (Replaced f args), w1)
            else (Returns (-1), set_errno (sys_errno w (CExecvp f args)) w1)
        | _, _ => (Stops Undefined, w)
        end
    end.

(** The status macros of <sys/wait.h>, as glibc defines them. *)
Definition WTERMSIG (status : Z) : Z := Z.land status 127.
Definition WIFEXITED (status : Z) : bool := WTERMSIG status =? 0.
Definition signed_char (v : Z) : Z :=
  let u := v mod 256 in if u <? 128 then u else u - 256.
Definition WIFSIGNALED (status : Z) : bool :=
  Z.shiftr (signed_char (Z.land status 127 + 1)) 1 >? 0.

(** [waitpid(pid, &status, WUNTRACED)]: the next report of the child, which
    is reaped once it has exited or was killed; [None] is the return -1 that
    leaves [status] untouched. *)
Definition waitpid (pid : Z) : M (option Z) :=
  modify (log (CWaitpid pid));;
  (fun w =>
    match children w !! pid with
    | None => (Returns None, set_errno ECHILD w)
    | Some [] => (Stops Blocked, w)
    | Some (s :: rest) =>
        (Returns (Some s),
         set_children (if WIFEXITED s || WIFSIGNALED s then delete pid (children w)
                       else <[pid := rest]> (children w)) w)
    end) : M (option Z).

End Libc.

(** ** The shell (shell.c) *)

Module Shell.
Import Libc.

(** The two values of the status every dispatch path returns. *)
Definition CONTINUE : Z := 1.
Definition TERMINATE : Z := 0.

Definition builtin_str : list (list byte) :=
  [CStr.lit "cd"; CStr.lit "help"; CStr.lit "exit"].

(** [sizeof(builtin_str) / sizeof(char* )] *)
Definition lsh_num_builtins : Z := Z.of_nat (length builtin_str).

Definition cd_expected_argument : list byte :=
  CStr.lit "lsh: expected argument to " ++ dquote ++ CStr.lit "cd" ++ dquote ++ newline.

Definition lsh_cd (args : nat) : M Z :=
  a1 ← load_slot args 1;
  match a1 with
  | None => fprintf_stderr cd_expected_argument
  | Some p =>
      r ← chdir p;
      if bool_decide (r ≠ 0) then perror (CStr.lit "lsh") else ret tt
  end;;
  ret 1.

Definition help_banner : list byte :=
  CStr.lit "Jermaine's LSH" ++ newline
  ++ CStr.lit "Type program names and arguments, and hit enter" ++ newline
  ++ CStr.lit "The following are built in:" ++ newline.

Definition help_footer : list byte :=
  CStr.lit "Use the man command for information on other programs." ++ newline.

(** [printf(" %s\n", builtin_str[i])] *)
Definition help_line (i : nat) : M unit :=
  match builtin_str !! i with
  | Some name => printf (CStr.lit " " ++ name ++ newline)
  | None => halt Undefined
  end.

Definition lsh_help (args : nat) : M Z :=
  printf (CStr.lit "Jermaine's LSH" ++ newline);;
  printf (CStr.lit "Type program names and arguments, and hit enter" ++ newline);;
  printf (CStr.lit "The following are built in:" ++ newline);;
  foldr (fun i k => help_line i;; k) (ret tt) (seq 0 (Z.to_nat lsh_num_builtins));;
  printf (CStr.lit "Use the man command for information on other programs." ++ newline);;
  ret 1.

(** The names as [lsh_help] lists them: one per line, after a space. *)
Definition help_names (names : list (list byte)) : list byte :=
  concat (map (fun name => CStr.lit " " ++ name ++ newline) names).

Definition lsh_exit (args : nat) : M Z := ret 0.

Definition builtin_func : list (nat → M Z) := [lsh_cd; lsh_help; lsh_exit].

Definition readline_prefix : list byte := CStr.lit "readline".

Definition lsh_read_line : M ptr :=
  r ← getline;
  match r with
  | None =>
      eof ← feof_stdin;
      if eof : bool then exit EXIT_SUCCESS
      else (perror readline_prefix;; exit EXIT_FAILURE)
  | Some line => ret line
  end.

Definition LSH_TOK_BUFSIZE : Z := 64.

(** The largest value of an [int]. *)
Definition INT_MAX : Z := 2147483647.

(** [" \t\r\n\a"] *)
Definition LSH_TOK_DELIM : list byte := [x20; x09; x0d; x0a; x07].

Definition allocation_error : list byte :=
  CStr.lit "lsh: allocation error" ++ newline.

(** The [while (token != NULL)] loop of [lsh_split_line]; it gives back the
    final [pos] and [tokens]. *)
Fixpoint split_loop (fuel : nat) (buffsize pos : Z) (tokens : nat)
    (token : option ptr) : M (Z * nat) :=
  match token with
  | None => ret (pos, tokens)
  | Some t =>
      match fuel with
      | O => halt OutOfFuel
      | S fuel' =>
          store_slot tokens pos (Ptr t);;
          let pos := pos + 1 in
          bt ← (if pos >=? buffsize then
                  let buffsize := buffsize + LSH_TOK_BUFSIZE in
                  r ← realloc tokens buffsize;
                  match r with
                  | None => fprintf_stderr allocation_error;; exit EXIT_FAILURE
                  | Some tokens => ret (buffsize, tokens)
                  end
                else ret (buffsize, tokens));
          token ← strtok None LSH_TOK_DELIM;
          split_loop fuel' bt.1 pos bt.2 token
      end
  end.

(** The size of the block a pointer points into: a bound on the number of
    tokens [strtok] can find there. *)
Definition block_size (w : world) (p : ptr) : nat :=
  match heap w !! p.1 with
  | Some (Chars bs) => length bs
  | _ => 0%nat
  end.

Definition lsh_split_line (line : ptr) : M nat :=
  let buffsize := LSH_TOK_BUFSIZE in
  let pos := 0 in
  r ← malloc buffsize;
  match r with
  | None => fprintf_stderr allocation_error;; exit EXIT_FAILURE
  | Some tokens =>
      token ← strtok (Some line) LSH_TOK_DELIM;
      fuel ← get (fun w => block_size w line);
      pt ← split_loop fuel buffsize pos tokens token;
      store_slot pt.2 pt.1 Null;;
      ret pt.2
  end.

(** The [do ... while (!WIFEXITED(status) && !WIFSIGNALED(status))] loop of
    [lsh_launch].  [status] is unset until a [waitpid] succeeds. *)
Fixpoint wait_loop (fuel : nat) (pid : Z) (status : option Z) : M unit :=
  match fuel with
  | O => halt OutOfFuel
  | S fuel' =>
      r ← waitpid pid;
      match r, status with
      | Some s, _ =>
          if negb (WIFEXITED s) && negb (WIFSIGNALED s)
          then wait_loop fuel' pid (Some s) else ret tt
      | None, None => halt Undefined
      | None, Some s =>
          if negb (WIFEXITED s) && negb (WIFSIGNALED s)
          then halt Blocked else ret tt
      end
  end.

Definition lsh_launch (args : nat) : M Z :=
  pid ← fork;
  (if bool_decide (pid = 0) then
     a0 ← load_slot args 0;
     r ← execvp a0 args;
     if bool_decide (r = -1) then perror (CStr.lit "lsh");; exit EXIT_FAILURE
     else ret tt
   else if bool_decide (pid < 0) then perror (CStr.lit "lsh")
   else
     fuel ← get (fun w => S (length (default [] (children w !! pid))));
     wait_loop fuel pid None);;
  ret 1.

(** One turn of the [for] loop of [lsh_execute]; [k] is what follows when
    the name does not match. *)
Definition try_builtin (args : nat) (i : nat) (k : M Z) : M Z :=
  a0 ← load_slot args 0;
  match a0, builtin_str !! i, builtin_func !! i with
  | Some p, Some name, Some f =>
      s ← load_string p;
      if bool_decide (CStr.strcmp s name = 0) then f args else k
  | _, _, _ => halt Undefined
  end.

Definition lsh_execute (args : nat) : M Z :=
  a0 ← load_slot args 0;
  match a0 with
  | None => ret 1
  | Some _ =>
      foldr (try_builtin args) (lsh_launch args) (seq 0 (Z.to_nat lsh_num_builtins))
  end.

Definition free_chars (p : ptr) : M unit :=
  if bool_decide (p.2 = 0%nat) then free p.1 else halt Undefined.

(** The body of the [do ... while (status)] loop of [lsh_loop]. *)
Definition lsh_iteration : M Z :=
  printf (CStr.lit "> ");;
  line ← lsh_read_line;
  args ← lsh_split_line line;
  status ← lsh_execute args;
  free args;;
  free_chars line;;
  ret status.

Fixpoint loop_n (fuel : nat) : M unit :=
  match fuel with
  | O => halt OutOfFuel
  | S fuel' =>
      status ← lsh_iteration;
      if bool_decide (status ≠ 0) then loop_n fuel' else ret tt
  end.

(** Every turn consumes one result of [getline], and the turn that finds
    none left exits: one more turn than there are results is enough. *)
Definition lsh_loop : M unit :=
  fuel ← get (fun w => S (length (stdin w)));
  loop_n fuel.

Definition main : M Z :=
  lsh_loop;;
  ret EXIT_SUCCESS.

(** The exit code of the process, when it ends. *)
Definition exit_code (o : outcome Z) : option Z :=
  match o with
  | Returns c => Some c
  | Stops (Exit c) => Some c
  | Stops _ => None
  end.

(** The token strings a caller sees through [args], up to the NULL. *)
Definition tokens_of (w : world) (args : nat) : option (list (list byte)) :=
  argv_strings w args.

(** A world at program start: the input to come, the outcomes of the
    forks and of the allocations to come; nothing allocated, nothing
    written, no program and no directory known to the system, whose calls
    fail with ENOENT. *)
Definition boot_with (input : list getline_result) (fk : list fork_result)
    (ok : nat → bool) : world :=
  World input false [] [] 0 (fun _ => CStr.lit "error") ∅ ok 0 None
        fk ∅ [] (CStr.lit "/") [] [] (fun _ => ENOENT).

(** The same where no fork and every allocation succeeds. *)
Definition boot (input : list getline_result) : world :=
  boot_with input [] (fun _ => true).

(** The world right after [getline] has stored the line [bs], in block 0. *)
Definition holding (bs : list byte) : world :=
  (getline (boot [GetlineOk bs])).2.

End Shell.


(** ** Predicates used in the statements and proofs *)

Module Inv.
Import Libc Shell.

(** Every allocation call made from [w] to [w'] succeeded. *)
Definition allocs_succeed (w w' : world) : Prop :=
  (alloc_count w ≤ alloc_count w')%nat
  ∧ ∀ k, (alloc_count w ≤ k < alloc_count w')%nat → alloc_ok w k = true.

(** The last allocation call made from [w] to [w'] failed, the ones before
    it succeeded. *)
Definition alloc_fails (w w' : world) : Prop :=
  (alloc_count w < alloc_count w')%nat
  ∧ alloc_ok w (alloc_count w' - 1) = false
  ∧ ∀ k, (alloc_count w ≤ k < alloc_count w' - 1)%nat → alloc_ok w k = true.

(** The C string a line buffer holds: the bytes read, up to the first NUL
    if the input had one. *)
Fixpoint until_nul (bs : list byte) : list byte :=
  match bs with
  | [] => []
  | c :: r => if bool_decide (c = CStr.NUL) then [] else c :: until_nul r
  end.

(** [f] is a component of the world that the tokenizer never writes. *)
Definition mem_blind {A} (f : world → A) : Prop :=
  (∀ v w, f (set_heap v w) = f w) ∧ (∀ v w, f (set_stderr v w) = f w)
  ∧ (∀ v w, f (set_calls v w) = f w) ∧ (∀ v w, f (set_alloc_count v w) = f w)
  ∧ (∀ v w, f (set_strtok_save v w) = f w).

(** What the next [getline] of [lsh_read_line] will amount to. *)
Inductive read_event :=
| ReadLine (bs : list byte)
| ReadEOF
| ReadError (err : Z).

Definition next_read (w : world) : read_event :=
  match stdin w with
  | [] => ReadEOF
  | GetlineOk bs :: _ => ReadLine bs
  | GetlineFail eof err :: _ => if stdin_eof w || eof then ReadEOF else ReadError err
  | GetlineNoMem err :: _ => if stdin_eof w then ReadEOF else ReadError err
  end.

(** [reaches w0 w]: the loop started in [w0] comes to the top of a turn in
    the world [w], every turn before having returned a non-zero status. *)
Inductive reaches : world → world → Prop :=
| reaches_here w : reaches w w
| reaches_turn w w1 w2 st :
    lsh_iteration w = (Returns st, w1) → st ≠ 0 → reaches w1 w2 → reaches w w2.

(** The ways a dispatch can end, [toks] being the tokens of the command:
    it returns CONTINUE; it returns TERMINATE, and the command is exit; or
    it does not return: the forked child was given its program, or failed
    to get it and exits with EXIT_FAILURE after a diagnostic, or the shell
    waits for ever on a child that never ends. *)
Definition dispatch_end (toks : list (list byte)) (w : world)
    (o : outcome Z) (w' : world) : Prop :=
  o = Returns CONTINUE
  ∨ (o = Returns TERMINATE ∧ head toks = Some (CStr.lit "exit"))
  ∨ (o = Stops (Exit EXIT_FAILURE)
     ∧ (∃ cs f a, calls w' = cs ++ [CExecvp f a])
     ∧ ∃ text, stderr w' = stderr w ++ text)
  ∨ (∃ f a, o = Stops (Replaced f a))
  ∨ o = Stops Blocked.

(** A status with which the wait loop of [lsh_launch] stops. *)
Definition terminal (status : Z) : bool := WIFEXITED status || WIFSIGNALED status.

(** The number of [waitpid] calls the wait loop makes on these reports. *)
Fixpoint waits (reports : list Z) : nat :=
  match reports with
  | [] => 0%nat
  | s :: rest => if terminal s then 1%nat else S (waits rest)
  end.

(** The first token of the command [args], when there is one. *)
Definition first_token (w : world) (args : nat) : option (list byte) :=
  match heap w !! args with
  | Some (Ptrs (Ptr p :: _)) => string_at w p
  | _ => None
  end.

(** [f] is a component of the world that the calls of the dispatcher never
    write: it does not depend on the streams, on errno, on the state of
    the processes, on the directory or on the log. *)
Definition os_blind {A} (f : world → A) : Prop :=
  (∀ v w, f (set_stdout v w) = f w) ∧ (∀ v w, f (set_stderr v w) = f w)
  ∧ (∀ v w, f (set_errno v w) = f w) ∧ (∀ v w, f (set_calls v w) = f w)
  ∧ (∀ v w, f (set_cwd v w) = f w) ∧ (∀ v w, f (set_forks v w) = f w)
  ∧ (∀ v w, f (set_children v w) = f w).


Definition alloc_call (c : call) : Prop :=
  match c with
  | CMalloc _ | CRealloc _ _ => True
  | _ => False
  end.

(** From [w] to [w'] nothing was written to stderr and no allocation
    failed. *)
Definition quiet (w w' : world) : Prop :=
  allocs_succeed w w' ∧ alloc_ok w' = alloc_ok w ∧ stderr w' = stderr w.

(** From [w] to [w'] an allocation failed: it is the last call made, and
    the diagnostic is the only text that went to stderr. *)
Definition alloc_failure (w w' : world) : Prop :=
  alloc_fails w w'
  ∧ stderr w' = stderr w ++ allocation_error
  ∧ ∃ cs c, calls w' = cs ++ [c] ∧ alloc_call c.

(** The state of [lsh_split_line] once a token has been stored.  [h0] is
    the heap without the token array, [lb] the block of the line with its
    present bytes [bs], [tb] the token array; [s] is where strtok will go
    on; the tokens stored so far are at the offsets [ps] and read [done]. *)
Definition split_pre (h0 : gmap nat block) (lb tb : nat) (w : world)
    (buffsize pos : Z) (s : nat) (bs : list byte)
    (ps : list nat) (done : list (list byte)) : Prop :=
  ∃ sl,
    heap w = <[tb := Ptrs sl]> (<[lb := Chars bs]> h0)
    ∧ h0 !! tb = None ∧ lb ≠ tb
    ∧ strtok_save w = Some (lb, s)
    ∧ Z.of_nat (length sl) = buffsize
    ∧ pos = Z.of_nat (length ps) ∧ pos ≤ buffsize ≤ pos + LSH_TOK_BUFSIZE
    ∧ take (length ps) sl = map (fun p => Ptr (lb, p)) ps
    ∧ Forall2 (fun p t => CStr.cstr_at bs p = Some t ∧ (p + length t ≤ s)%nat) ps done.

(** The same between two turns of the loop: there is room for one more
    cell. *)
Definition split_inv (h0 : gmap nat block) (lb tb : nat) (w : world)
    (buffsize pos : Z) (s : nat) (bs : list byte)
    (ps : list nat) (done : list (list byte)) : Prop :=
  split_pre h0 lb tb w buffsize pos s bs ps done ∧ pos < buffsize.

(** What [lsh_split_line] leaves when it returns [tb] for the line [line]
    that read [str]: the heap has the line block, with new bytes, and the
    new array [tb]; the array holds pointers to the runs of [str], in
    order, then NULL, and at most LSH_TOK_BUFSIZE cells more than the
    pointers. *)
Definition split_result (w : world) (line : ptr) (str : list byte)
    (tb : nat) (w' : world) : Prop :=
  ∃ sl bs' ps,
    heap w' = <[tb := Ptrs sl]> (<[line.1 := Chars bs']> (heap w))
    ∧ heap w !! tb = None ∧ tb ≠ line.1
    ∧ take (length ps) sl = map (fun p => Ptr (line.1, p)) ps
    ∧ sl !! length ps = Some Null
    ∧ (length sl ≤ length ps + Z.to_nat LSH_TOK_BUFSIZE)%nat
    ∧ Forall2 (fun p t => CStr.cstr_at bs' p = Some t) ps
              (Runs.runs LSH_TOK_DELIM str)
    ∧ quiet w w'.

(** The token the loop holds and the tokens still to come, itself included. *)
Definition token_ok (lb : nat) (bs : list byte) (s : nat)
    (token : option ptr) (pending : list (list byte)) : Prop :=
  match token with
  | None => pending = []
  | Some (b, p) =>
      b = lb
      ∧ ∃ t rem, CStr.cstr_at bs p = Some t ∧ (p + length t ≤ s)%nat
                 ∧ CStr.cstr_at bs s = Some rem
                 ∧ pending = t :: Runs.runs LSH_TOK_DELIM rem
  end.

(** The prompt of [lsh_loop]. *)
Definition prompt : list byte := CStr.lit "> ".

(** The world in which the tokenizer starts, in a turn that reads [bs]. *)
Definition after_getline (bs : list byte) (rest : list getline_result)
    (w : world) : world :=
  log CGetline
    (set_heap (<[fresh (dom (heap w)) := Chars (bs ++ [CStr.NUL])]> (heap w))
       (set_stdin rest (set_stdout (stdout w ++ prompt) w))).

(** The ways a turn of the loop that read the line [bs] can end: an
    allocation fails, and the line buffer is still allocated; or none does, and the dispatch ends in one of its
    ways, the buffers of the turn being freed when it returns. *)
Definition iteration_end (w : world) (bs : list byte)
    (o : outcome Z) (w' : world) : Prop :=
  (o = Stops (Exit EXIT_FAILURE) ∧ alloc_failure w w'
   ∧ ∃ b bs', heap w !! b = None ∧ heap w' !! b = Some (Chars bs'))
  ∨ (allocs_succeed w w'
     ∧ ((∃ st, o = Returns st
               ∧ (st = CONTINUE
                  ∨ (st = TERMINATE
                     ∧ head (Runs.runs LSH_TOK_DELIM (until_nul bs))
                       = Some (CStr.lit "exit")))
               ∧ heap w' = heap w)
        ∨ (o = Stops (Exit EXIT_FAILURE)
           ∧ (∃ cs f a, calls w' = cs ++ [CExecvp f a])
           ∧ ∃ text, stderr w' = stderr w ++ text)
        ∨ (∃ f a, o = Stops (Replaced f a))
        ∨ o = Stops Blocked)).


(** The [free] calls made so far, oldest first. *)
Definition is_free (c : call) : bool :=
  match c with CFree _ => true | _ => false end.

Definition frees (w : world) : list call := List.filter is_free (calls w).

(** From [w] to [w'] both buffers of a turn were freed: the array that
    [lsh_split_line] returned, then the line that [lsh_read_line]
    returned, two blocks that [w] did not have; the heap is that of [w]
    again. *)
Definition both_freed (w w' : world) : Prop :=
  ∃ line w1 args w2,
    lsh_read_line (set_stdout (stdout w ++ prompt) w) = (Returns line, w1)
    ∧ lsh_split_line line w1 = (Returns args, w2)
    ∧ heap w !! line.1 = None ∧ heap w !! args = None ∧ args ≠ line.1
    ∧ frees w' = frees w ++ [CFree args; CFree line.1]
    ∧ heap w' = heap w.

(** From [w] to [w'] nothing was freed: [free] was not called, the blocks
    of [w] are as they were, the buffer that [getline] allocated in
    between is still allocated (unless it had no memory for it), and so is
    the token array if the first [malloc] of the turn succeeded. *)
Definition nothing_freed (w w' : world) : Prop :=
  frees w' = frees w
  ∧ (∀ b x, heap w !! b = Some x → heap w' !! b = Some x)
  ∧ ((∃ err rest, stdin w = GetlineNoMem err :: rest)
     ∨ ∃ b bs', heap w !! b = None ∧ heap w' !! b = Some (Chars bs'))
  ∧ (∀ bs rest, stdin w = GetlineOk bs :: rest → alloc_ok w (alloc_count w) = true →
       ∃ tb sl, heap w !! tb = None ∧ heap w' !! tb = Some (Ptrs sl)).

End Inv.

(** ** Concrete worlds and lines, for the examples *)

Module Examples.
Import Libc Shell.

Definition slots_of (w : world) (a : nat) : list slot :=
  match heap w !! a with
  | Some (Ptrs ps) => ps
  | _ => []
  end.

(** The reports of a child that is stopped once (status 0x137f), then exits
    with code 3 (status 0x0300). *)
Definition stop_then_exit : list Z := [4991; 768].

(** A shell whose next fork creates that child, with pid 42. *)
Definition one_child : world :=
  boot_with [] [ForkParent 42 stop_then_exit] (fun _ => true).

(** A shell whose next fork fails with ENOMEM. *)
Definition no_fork : world := boot_with [] [ForkError 12] (fun _ => true).

(** A shell that reads "ls" and whose first allocation fails. *)
Definition out_of_memory : world :=
  boot_with [GetlineOk (CStr.lit "ls" ++ newline)] [] (fun _ => false).

(** A shell whose first read fails with EIO, which is not end of file. *)
Definition read_failure : world := boot [GetlineFail false 5].

(** A shell that is given help, then exit with an argument. *)
Definition help_then_exit : world :=
  boot [GetlineOk (CStr.lit "help" ++ newline); GetlineOk (CStr.lit "exit 3" ++ newline)].

Definition ls_line : list byte := CStr.lit "  ls   -l " ++ newline.
Definition blank_line : list byte := CStr.lit "   " ++ newline.

(** Sixty-four tokens: as many as the first token array has cells. *)
Definition full_line : list byte := concat (replicate 64 (CStr.lit "ab ")).

(** The worlds after the tokenizer has split a line; the array is block 1. *)
Definition split_world (bs : list byte) : world :=
  (lsh_split_line (0%nat, 0%nat) (holding bs)).2.

Definition ls_split : world := split_world (CStr.lit "ls -l" ++ newline).
Definition cd_alone : world := split_world (CStr.lit "cd" ++ newline).
Definition cd_nowhere : world := split_world (CStr.lit "cd /nowhere" ++ newline).
Definition exit_now : world := split_world (CStr.lit "exit now" ++ newline).

End Examples.

(** ** More worlds for the examples *)

Module Scenes.
Import Libc Shell.

(** The world [w] on a system where [chdir] accepts the paths [ds] and
    [execvp] finds the programs [ps]. *)
Definition on_system (ds ps : list (list byte)) (w : world) : world :=
  World (stdin w) (stdin_eof w) (stdout w) (stderr w) (errno w) (strerror w)
        (heap w) (alloc_ok w) (alloc_count w) (strtok_save w) (forks w)
        (children w) ps (cwd w) ds (calls w) (sys_errno w).

(** The world [w] on a system whose calls fail with the errno [e], for
    which the C library has the message [msg]. *)
Definition failing_with (e : Z) (msg : list byte) (w : world) : world :=
  World (stdin w) (stdin_eof w) (stdout w) (stderr w) (errno w)
        (fun n => if n =? e then msg else strerror w n)
        (heap w) (alloc_ok w) (alloc_count w) (strtok_save w) (forks w)
        (children w) (progs w) (cwd w) (dirs w) (calls w) (fun _ => e).

Definition ENOTDIR : Z := 20.
Definition EACCES : Z := 13.

(** After the tokenizer has split "cd /etc/passwd", which is not a
    directory. *)
Definition cd_passwd : world :=
  failing_with ENOTDIR (CStr.lit "Not a directory")
    (Examples.split_world (CStr.lit "cd /etc/passwd" ++ newline)).

(** After the tokenizer has split "cd /tmp extra", where /tmp exists. *)
Definition cd_tmp : world :=
  on_system [CStr.lit "/tmp"] [] (Examples.split_world (CStr.lit "cd /tmp extra" ++ newline)).

(** After the tokenizer has split "ls -l", in the child of a fork, where
    ls can be run. *)
Definition ls_child : world :=
  on_system [] [CStr.lit "ls"] (set_forks [ForkChild] Examples.ls_split).

(** The same where no program can be found. *)
Definition ls_child_lost : world := set_forks [ForkChild] Examples.ls_split.

(** After the tokenizer has split "/etc/passwd", in the child of a fork:
    the file is there and cannot be executed. *)
Definition passwd_child : world :=
  failing_with EACCES (CStr.lit "Permission denied")
    (set_forks [ForkChild] (Examples.split_world (CStr.lit "/etc/passwd" ++ newline))).

(** A shell whose child, pid 7, is stopped twice, then killed by signal 9,
    and one whose child is only ever seen stopped. *)
Definition stopped_then_killed : world :=
  boot_with [] [ForkParent 7 [4991; 4991; 9; 0]] (fun _ => true).
Definition never_ends : world :=
  boot_with [] [ForkParent 7 [4991; 4991]] (fun _ => true).

(** A shell that reads "ls" and finds itself the child of the fork, where
    no program can be run. *)
Definition lost_child : world :=
  boot_with [GetlineOk (CStr.lit "ls" ++ newline)] [ForkChild] (fun _ => true).

(** A shell whose [getline] has no memory for its buffer. *)
Definition no_buffer : world := boot [GetlineNoMem 12].

(** Seventy tokens on one line. *)
Definition long_line : list byte := concat (replicate 70 (CStr.lit "ab ")).

(** A shell that is given "ls", "exit" and one more line, and whose one
    child exits at once. *)
Definition ls_exit_more : world :=
  boot_with [GetlineOk (CStr.lit "ls" ++ newline); GetlineOk (CStr.lit "exit" ++ newline);
             GetlineOk (CStr.lit "help" ++ newline)]
            [ForkParent 7 [0]] (fun _ => true).

(** A shell that is given "cd /tmp" with blanks around, where /tmp exists,
    and one that is given a line of blanks. *)
Definition cd_tmp_line : list byte := CStr.lit "  cd   /tmp  " ++ newline.
Definition reads_cd_tmp : world :=
  on_system [CStr.lit "/tmp"] [] (boot [GetlineOk cd_tmp_line]).
Definition reads_blank : world := boot [GetlineOk Examples.blank_line].

End Scenes.

(** ** Components of the world that [free] leaves alone *)

Module Frames.

(** [f] is a component of the world that [free] never writes: it depends
    neither on the heap nor on the log. *)
Definition free_blind {A} (f : world → A) : Prop :=
  (∀ v w, f (set_heap v w) = f w) ∧ (∀ v w, f (set_calls v w) = f w).

(** All that [lsh_help] prints. *)
Definition help_text : list byte :=
  Shell.help_banner ++ Shell.help_names Shell.builtin_str ++ Shell.help_footer.

End Frames.

(** * Properties *)

(** ** Running monadic code *)

Module Run.

Lemma bind_returns {A B} (m : M A) (k : A → M B) w a w1 :
  m w = (Returns a, w1) → (m ≫= k) w = k a w1.
Proof. intros H. unfold mbind, M_bind, bind. now rewrite H. Qed.

Lemma bind_stops {A B} (m : M A) (k : A → M B) w s w1 :
  m w = (Stops s, w1) → (m ≫= k) w = (Stops s, w1).
Proof. intros H. unfold mbind, M_bind, bind. now rewrite H. Qed.

(** A bind returns only when both halves do. *)
Lemma bind_inv {A B} (m : M A) (k : A → M B) w (o : outcome B) w' :
  (m ≫= k) w = (o, w') →
  (∃ a w1, m w = (Returns a, w1) ∧ k a w1 = (o, w'))
  ∨ (∃ s, m w = (Stops s, w') ∧ o = Stops s).
Proof.
  unfold mbind, M_bind, bind. destruct (m w) as [[a|s] w1]; intros H.
  - left. eauto.
  - right. inversion H; subst. eauto.
Qed.

Lemma preserves_ret {A B} (f : world → A) (b : B) : preserves f (ret b).
Proof. intros w o w' H. inversion H; subst. reflexivity. Qed.

Lemma preserves_halt {A B} (f : world → A) s : preserves f (@halt B s).
Proof. intros w o w' H. inversion H; subst. reflexivity. Qed.

Lemma preserves_get {A B} (f : world → A) (g : world → B) : preserves f (get g).
Proof. intros w o w' H. inversion H; subst. reflexivity. Qed.

Lemma preserves_bind {A B C} (f : world → A) (m : M B) (k : B → M C) :
  preserves f m → (∀ b, preserves f (k b)) → preserves f (m ≫= k).
Proof.
  intros Hm Hk w o w' H. apply bind_inv in H as [(a & w1 & H1 & H2)|(s & H1 & _)].
  - rewrite (Hk _ _ _ _ H2). eauto.
  - eauto.
Qed.

Lemma preserves_modify {A} (f : world → A) (g : world → world) :
  (∀ w, f (g w) = f w) → preserves f (modify g).
Proof. intros Hg w o w' H. inversion H; subst. apply Hg. Qed.

End Run.


(** ** Worlds: extensionality and the tactics that use it *)

Lemma world_ext (a b : world) :
  stdin a = stdin b → stdin_eof a = stdin_eof b → stdout a = stdout b →
  stderr a = stderr b → errno a = errno b → strerror a = strerror b →
  heap a = heap b → alloc_ok a = alloc_ok b → alloc_count a = alloc_count b →
  strtok_save a = strtok_save b → forks a = forks b → children a = children b →
  progs a = progs b → cwd a = cwd b → dirs a = dirs b → calls a = calls b →
  sys_errno a = sys_errno b →
  a = b.
Proof.
  intros H1 H2 H3 H4 H5 H6 H7 H8 H9 H10 H11 H12 H13 H14 H15 H16 H17.
  transitivity (World (stdin a) (stdin_eof a) (stdout a) (stderr a) (errno a)
    (strerror a) (heap a) (alloc_ok a) (alloc_count a) (strtok_save a) (forks a)
    (children a) (progs a) (cwd a) (dirs a) (calls a) (sys_errno a)); [reflexivity|].
  rewrite H1, H2, H3, H4, H5, H6, H7, H8, H9, H10, H11, H12, H13, H14, H15, H16, H17.
  reflexivity.
Qed.

(** Reduce the projections of updated worlds, and nothing else. *)
Ltac fields :=
  cbn [stdin stdin_eof stdout stderr errno strerror heap alloc_ok alloc_count
       strtok_save forks children progs cwd dirs calls sys_errno
       set_stdin set_stdin_eof set_stdout set_stderr set_errno set_heap
       set_alloc_count set_strtok_save set_forks set_children set_cwd
       set_calls log].

Ltac fields_in H :=
  cbn [stdin stdin_eof stdout stderr errno strerror heap alloc_ok alloc_count
       strtok_save forks children progs cwd dirs calls sys_errno
       set_stdin set_stdin_eof set_stdout set_stderr set_errno set_heap
       set_alloc_count set_strtok_save set_forks set_children set_cwd
       set_calls log] in H.

Ltac world_eq := apply world_ext; fields; try reflexivity.

(** Run the first call of a sequence with a lemma that gives its result. *)
Ltac run_with lem :=
  first [ erewrite Run.bind_returns by lem
        | erewrite Run.bind_stops by lem ].

(** ** The calls of the C library, one equation each *)

Module LibcFacts.
Import Libc.

Lemma printf_eq s w : printf s w = (Returns tt, set_stdout (stdout w ++ s) w).
Proof. reflexivity. Qed.

Lemma fprintf_stderr_eq s w :
  fprintf_stderr s w = (Returns tt, set_stderr (stderr w ++ s) w).
Proof. reflexivity. Qed.

Lemma perror_eq s w :
  perror s w = (Returns tt, set_stderr (stderr w ++ perror_text s w) w).
Proof. reflexivity. Qed.

Lemma load_slot_eq a i w ps :
  heap w !! a = Some (Ptrs ps) →
  load_slot a i w =
    match ps !! i with
    | Some Null => (Returns None, w)
    | Some (Ptr p) => (Returns (Some p), w)
    | _ => (Stops Undefined, w)
    end.
Proof. intros H. unfold load_slot. now rewrite H. Qed.

Lemma load_slot_null a i w ps :
  heap w !! a = Some (Ptrs ps) → ps !! i = Some Null →
  load_slot a i w = (Returns None, w).
Proof. intros H Hi. rewrite (load_slot_eq _ _ _ _ H), Hi. reflexivity. Qed.

Lemma load_slot_ptr a i w ps p :
  heap w !! a = Some (Ptrs ps) → ps !! i = Some (Ptr p) →
  load_slot a i w = (Returns (Some p), w).
Proof. intros H Hi. rewrite (load_slot_eq _ _ _ _ H), Hi. reflexivity. Qed.

Lemma load_string_eq p w s :
  string_at w p = Some s → load_string p w = (Returns s, w).
Proof. intros H. unfold load_string. now rewrite H. Qed.

Lemma chdir_fails p w path :
  string_at w p = Some path → path ∉ dirs w →
  chdir p w
  = (Returns (-1), set_errno (sys_errno w (CChdir path)) (log (CChdir path) w)).
Proof.
  intros Hs Hd. unfold chdir.
  run_with ltac:(apply load_string_eq; eassumption).
  run_with ltac:(reflexivity).
  fields. rewrite bool_decide_eq_false_2 by exact Hd. reflexivity.
Qed.

Lemma chdir_succeeds p w path :
  string_at w p = Some path → path ∈ dirs w →
  chdir p w = (Returns 0, set_cwd path (log (CChdir path) w)).
Proof.
  intros Hs Hd. unfold chdir.
  run_with ltac:(apply load_string_eq; eassumption).
  run_with ltac:(reflexivity).
  fields. rewrite bool_decide_eq_true_2 by exact Hd. reflexivity.
Qed.

Lemma store_slot_eq a i v w ps :
  heap w !! a = Some (Ptrs ps) → 0 ≤ i < Z.of_nat (length ps) →
  store_slot a i v w
  = (Returns tt, set_heap (<[a := Ptrs (<[Z.to_nat i := v]> ps)]> (heap w)) w).
Proof.
  intros H Hi. unfold store_slot. rewrite H.
  rewrite bool_decide_eq_true_2 by exact Hi. reflexivity.
Qed.

Lemma strtok_next delim w b off bs tok bs' save :
  strtok_save w = Some (b, off) → heap w !! b = Some (Chars bs) →
  CStr.strtok_buf bs off delim = Some (tok, bs', save) →
  strtok None delim w
  = (Returns (pair b <$> tok),
     set_strtok_save (Some (b, save)) (set_heap (<[b := Chars bs']> (heap w)) w)).
Proof. intros Hs Hh Ht. unfold strtok. rewrite Hs, Hh, Ht. reflexivity. Qed.

Lemma strtok_first delim w b off bs tok bs' save :
  heap w !! b = Some (Chars bs) →
  CStr.strtok_buf bs off delim = Some (tok, bs', save) →
  strtok (Some (b, off)) delim w
  = (Returns (pair b <$> tok),
     set_strtok_save (Some (b, save)) (set_heap (<[b := Chars bs']> (heap w)) w)).
Proof. intros Hh Ht. unfold strtok. rewrite Hh, Ht. reflexivity. Qed.

Lemma realloc_eq a n w ps :
  heap w !! a = Some (Ptrs ps) →
  realloc a n w
  = let w1 := log (CRealloc a n) (set_alloc_count (S (alloc_count w)) w) in
    if alloc_ok w (alloc_count w) then
      let h := delete a (heap w) in
      let b := fresh (dom h) in
      (Returns (Some b),
       set_heap (<[b := Ptrs (take (Z.to_nat n) ps
                              ++ replicate (Z.to_nat n - length ps) Uninit)]> h) w1)
    else (Returns None, w1).
Proof. intros H. unfold realloc. rewrite H. reflexivity. Qed.

Lemma fresh_heap (h : gmap nat block) : h !! fresh (dom h) = None.
Proof. apply not_elem_of_dom. apply is_fresh. Qed.

End LibcFacts.

(** ** The builtins *)

Module Builtins.
Import Libc Shell LibcFacts.

Lemma help_line_eq i name w :
  builtin_str !! i = Some name →
  help_line i w
  = (Returns tt, set_stdout (stdout w ++ CStr.lit " " ++ name ++ newline) w).
Proof. intros H. unfold help_line. rewrite H. reflexivity. Qed.

(** [lsh_help] appends the banner, the names and the closing line to
    stdout, and does nothing else. *)
Lemma lsh_help_eq (args : nat) (w : world) :
  lsh_help args w
  = (Returns CONTINUE,
     set_stdout (stdout w ++ help_banner ++ help_names builtin_str ++ help_footer) w).
Proof.
  unfold lsh_help.
  do 3 run_with ltac:(apply printf_eq).
  change (seq 0 (Z.to_nat lsh_num_builtins)) with [0; 1; 2]%nat.
  cbn [foldr].
  erewrite Run.bind_returns.
  2:{ do 3 run_with ltac:(apply help_line_eq; reflexivity). reflexivity. }
  run_with ltac:(apply printf_eq).
  unfold ret, CONTINUE. f_equal. world_eq.
  unfold help_banner, help_footer, help_names, builtin_str.
  cbn [map concat]. rewrite <- !app_assoc. reflexivity.
Qed.

Lemma lsh_exit_eq (args : nat) (w : world) :
  lsh_exit args w = (Returns TERMINATE, w).
Proof. reflexivity. Qed.

Lemma lsh_cd_no_argument args w ps :
  heap w !! args = Some (Ptrs ps) → ps !! 1%nat = Some Null →
  lsh_cd args w
  = (Returns CONTINUE, set_stderr (stderr w ++ cd_expected_argument) w).
Proof.
  intros H H1. unfold lsh_cd.
  run_with ltac:(eapply load_slot_null; eassumption).
  run_with ltac:(apply fprintf_stderr_eq).
  reflexivity.
Qed.

Lemma lsh_cd_chdir_fails args w ps p path :
  heap w !! args = Some (Ptrs ps) → ps !! 1%nat = Some (Ptr p) →
  string_at w p = Some path → path ∉ dirs w →
  let w1 := set_errno (sys_errno w (CChdir path)) (log (CChdir path) w) in
  lsh_cd args w
  = (Returns CONTINUE, set_stderr (stderr w ++ perror_text (CStr.lit "lsh") w1) w1).
Proof.
  intros H H1 Hs Hd w1. unfold lsh_cd.
  run_with ltac:(eapply load_slot_ptr; eassumption).
  erewrite Run.bind_returns.
  2:{ run_with ltac:(eapply chdir_fails; eassumption).
      rewrite bool_decide_eq_true_2 by lia. apply perror_eq. }
  reflexivity.
Qed.

Lemma lsh_cd_chdir_succeeds args w ps p path :
  heap w !! args = Some (Ptrs ps) → ps !! 1%nat = Some (Ptr p) →
  string_at w p = Some path → path ∈ dirs w →
  lsh_cd args w = (Returns CONTINUE, set_cwd path (log (CChdir path) w)).
Proof.
  intros H H1 Hs Hd. unfold lsh_cd.
  run_with ltac:(eapply load_slot_ptr; eassumption).
  erewrite Run.bind_returns.
  2:{ run_with ltac:(eapply chdir_succeeds; eassumption).
      rewrite bool_decide_eq_false_2 by lia. reflexivity. }
  reflexivity.
Qed.

End Builtins.

(** ** Strings: reading them in a block, and their runs *)

Module RunsFacts.
Import Runs.

Section WithDelims.
Variable delim : list byte.

Lemma skip_ws_drop s : skip_ws delim s = drop (ws_len delim s) s.
Proof. induction s as [|c r IH]; cbn; [reflexivity|]. destruct (is_ws delim c); cbn; auto. Qed.

Lemma word_take s : word delim s = take (word_len delim s) s.
Proof. induction s as [|c r IH]; cbn; [reflexivity|]. destruct (is_ws delim c); cbn; congruence. Qed.

Lemma after_word_drop s : after_word delim s = drop (S (word_len delim s)) s.
Proof. induction s as [|c r IH]; cbn; [reflexivity|]. destruct (is_ws delim c); cbn; auto. Qed.

Lemma ws_len_le s : (ws_len delim s ≤ length s)%nat.
Proof. induction s as [|c r IH]; cbn; [lia|]. destruct (is_ws delim c); cbn; lia. Qed.

Lemma word_len_le s : (word_len delim s ≤ length s)%nat.
Proof. induction s as [|c r IH]; cbn; [lia|]. destruct (is_ws delim c); cbn; lia. Qed.

Lemma length_word s : length (word delim s) = word_len delim s.
Proof. rewrite word_take, length_take. pose proof (word_len_le s). lia. Qed.

(** What stands at the end of the first word: nothing, or a delimiter. *)
Lemma lookup_word_len s :
  s !! word_len delim s = None ∧ word delim s = s ∧ after_word delim s = []
  ∨ ∃ d, s !! word_len delim s = Some d ∧ is_ws delim d = true
         ∧ s = word delim s ++ d :: after_word delim s.
Proof.
  induction s as [|c r IH]; cbn; [left; auto|].
  destruct (is_ws delim c) eqn:E; cbn.
  - right. exists c. auto.
  - destruct IH as [(H1 & H2 & H3)|(d & H1 & H2 & H3)].
    + left. rewrite H2. auto.
    + right. exists d. rewrite <- H3. auto.
Qed.

Lemma skip_ws_head c r : skip_ws delim (c :: r) = c :: r → is_ws delim c = false.
Proof.
  cbn. destruct (is_ws delim c); [|reflexivity].
  intros H. pose proof (f_equal length H) as HL. rewrite skip_ws_drop, length_drop in HL.
  cbn in HL. lia.
Qed.

Lemma skip_ws_idem s : skip_ws delim (skip_ws delim s) = skip_ws delim s.
Proof.
  induction s as [|c r IH]; cbn; [reflexivity|].
  destruct (is_ws delim c) eqn:E; [exact IH|]. cbn. now rewrite E.
Qed.

Lemma skip_ws_cons s c r : skip_ws delim s = c :: r → is_ws delim c = false.
Proof. intros H. apply (skip_ws_head c r). rewrite <- H. apply skip_ws_idem. Qed.

Lemma word_len_pos c r : is_ws delim c = false → (0 < word_len delim (c :: r))%nat.
Proof. intros H. cbn. rewrite H. lia. Qed.

(** Reading on from a run that has begun. *)
Lemma collect_cur cur s :
  cur ≠ [] →
  collect delim cur s = (cur ++ word delim s) :: collect delim [] (after_word delim s).
Proof.
  revert cur. induction s as [|c r IH]; intros cur Hc; cbn.
  - rewrite app_nil_r. destruct cur; [done|reflexivity].
  - destruct (is_ws delim c).
    + rewrite app_nil_r. destruct cur; [done|reflexivity].
    + rewrite IH by (destruct cur; done). now rewrite <- app_assoc.
Qed.

Lemma collect_skip s : collect delim [] s = collect delim [] (skip_ws delim s).
Proof.
  induction s as [|c r IH]; cbn; [reflexivity|].
  destruct (is_ws delim c) eqn:E; cbn; [exact IH|]. now rewrite E.
Qed.

(** The runs of a string, one token at a time. *)
Lemma runs_unfold s :
  runs delim s = match next_token delim s with
                 | None => []
                 | Some (t, r) => t :: runs delim r
                 end.
Proof.
  unfold runs, next_token. rewrite collect_skip.
  destruct (skip_ws delim s) as [|c r] eqn:E; [reflexivity|].
  pose proof (skip_ws_cons _ _ _ E) as Hc.
  cbn. rewrite Hc. rewrite collect_cur by done. reflexivity.
Qed.

Lemma next_token_shorter s t r :
  next_token delim s = Some (t, r) → (length r < length s)%nat.
Proof.
  unfold next_token. pose proof (ws_len_le s) as Hk.
  destruct (skip_ws delim s) as [|c s1] eqn:E; [done|].
  pose proof (skip_ws_cons _ _ _ E) as Hc.
  intros [= <- <-]. rewrite Hc, after_word_drop, length_drop.
  pose proof (f_equal length E) as HL. rewrite skip_ws_drop, length_drop in HL.
  cbn [length] in HL. lia.
Qed.

Lemma next_token_None s : next_token delim s = None ↔ skip_ws delim s = [].
Proof. unfold next_token. destruct (skip_ws delim s); split; done. Qed.

(** Counting the places where a run begins gives the number of runs. *)
Lemma length_collect cur s :
  length (collect delim cur s)
  = ((if cur is [] then 0 else 1)
     + count_from delim (if cur is [] then true else false) s)%nat.
Proof.
  revert cur. induction s as [|c r IH]; intros cur; cbn.
  - destruct cur; reflexivity.
  - destruct (is_ws delim c) eqn:E; cbn.
    + rewrite length_app, (IH []). destruct cur; cbn; lia.
    + rewrite IH. destruct cur; cbn; lia.
Qed.

Lemma length_runs s : length (runs delim s) = count_runs delim s.
Proof. unfold runs, count_runs. rewrite length_collect. cbn. lia. Qed.

Lemma Forall_word s : Forall (fun c => is_ws delim c = false) (word delim s).
Proof.
  induction s as [|c r IH]; cbn; [constructor|].
  destruct (is_ws delim c) eqn:E; constructor; auto.
Qed.

Lemma runs_are_words s : Forall (is_word delim) (runs delim s).
Proof.
  remember (length s) as n eqn:Hn. revert s Hn.
  induction (lt_wf n) as [n _ IH]. intros s ->.
  rewrite runs_unfold. destruct (next_token delim s) as [[t r]|] eqn:E; [|constructor].
  constructor.
  - unfold next_token in E. destruct (skip_ws delim s) as [|c s1] eqn:E1; [done|].
    injection E as <- <-. pose proof (skip_ws_cons _ _ _ E1) as Hc.
    split; [cbn; now rewrite Hc|apply (Forall_word (c :: s1))].
  - eapply IH; [|reflexivity]. eapply next_token_shorter; eassumption.
Qed.

Lemma Forall_take_ws s :
  Forall (fun c => is_ws delim c = true) (take (ws_len delim s) s).
Proof.
  induction s as [|c r IH]; cbn; [constructor|].
  destruct (is_ws delim c) eqn:E; cbn; constructor; auto.
Qed.

Lemma weave_cons_sep d sep seps toks :
  weave ((d :: sep) :: seps) toks = d :: weave (sep :: seps) toks.
Proof. destruct toks; reflexivity. Qed.

(** The function [runs] computes the maximal runs, as the words of the
    specification define them. *)
Lemma runs_splits s : splits_into delim s (runs delim s).
Proof.
  split; [apply runs_are_words|].
  remember (length s) as n eqn:Hn. revert s Hn.
  induction (lt_wf n) as [n _ IH]. intros s ->.
  pose proof (take_drop (ws_len delim s) s) as Hs. rewrite <- skip_ws_drop in Hs.
  pose proof (Forall_take_ws s) as Hws.
  rewrite runs_unfold. unfold next_token.
  destruct (skip_ws delim s) as [|c s1] eqn:E.
  - exists [s]. rewrite app_nil_r in Hs. rewrite Hs in Hws.
    split; [reflexivity|]. split; [repeat constructor; exact Hws|].
    split; [intros i sep H; destruct i; discriminate H|reflexivity].
  - destruct (lookup_word_len (c :: s1)) as [(_ & Hw & Ha)|(d & _ & Hd & Hw)].
    + exists [take (ws_len delim s) s; []]. rewrite Hw, Ha.
      split; [reflexivity|]. split; [repeat constructor; exact Hws|].
      split.
      { intros i sep H Hi. cbn in Hi. lia. }
      cbn. rewrite app_nil_r. exact Hs.
    + set (a := after_word delim (c :: s1)) in *.
      assert (Hlt : (length a < length s)%nat).
      { apply (f_equal length) in Hs, Hw. rewrite length_app in Hs, Hw.
        cbn [length] in Hs, Hw. fold a in Hw. cbn [length] in Hw. lia. }
      destruct (IH _ Hlt a eq_refl) as (seps' & Hlen & Hall & Hinner & Hweave).
      destruct seps' as [|sep0 rest']; [discriminate Hlen|].
      exists (take (ws_len delim s) s :: (d :: sep0) :: rest').
      split; [cbn [length] in *; lia|].
      split.
      { constructor; [exact Hws|]. inversion Hall; subst.
        constructor; [constructor; assumption|assumption]. }
      split.
      { intros i sep H Hi. destruct i as [|i]; [cbn in H; injection H as <-; discriminate|].
        cbn [length] in Hi. apply (Hinner i sep); [exact H|lia]. }
      change (weave (?x :: ?r) (?t :: ?ts)) with (x ++ t ++ weave r ts).
      rewrite weave_cons_sep, Hweave.
      rewrite <- Hs at 3. f_equal. exact (eq_sym Hw).
Qed.

(** No token at all exactly when every character is a delimiter. *)
Lemma runs_nil s : Forall (fun c => is_ws delim c = true) s → runs delim s = [].
Proof.
  unfold runs. induction 1 as [|c r Hc _ IH]; cbn; [reflexivity|]. now rewrite Hc.
Qed.

End WithDelims.
End RunsFacts.

Module CStrFacts.
Import CStr Runs RunsFacts.

Lemma cstr_app s r : NUL ∉ s → cstr (s ++ NUL :: r) = Some s.
Proof.
  induction s as [|c s IH]; intros Hs; cbn.
  - rewrite bool_decide_eq_true_2; reflexivity.
  - apply not_elem_of_cons in Hs as [Hc Hs].
    rewrite bool_decide_eq_false_2 by congruence. now rewrite IH.
Qed.

Lemma cstr_inv bs s : cstr bs = Some s → ∃ r, bs = s ++ NUL :: r ∧ NUL ∉ s.
Proof.
  revert s. induction bs as [|c bs IH]; intros s; cbn; [done|].
  case_bool_decide as Hc.
  - intros [= <-]. subst c. exists bs. split; [reflexivity|apply not_elem_of_nil].
  - destruct (cstr bs) as [s'|] eqn:E; [|done]. cbn. intros [= <-].
    destruct (IH s' eq_refl) as (r & -> & Hs). exists r. split; [reflexivity|].
    apply not_elem_of_cons. split; [congruence|exact Hs].
Qed.

Lemma cstr_at_inv bs q s :
  cstr_at bs q = Some s → ∃ r, drop q bs = s ++ NUL :: r ∧ NUL ∉ s.
Proof. apply cstr_inv. Qed.

Lemma cstr_at_intro bs q s r :
  drop q bs = s ++ NUL :: r → NUL ∉ s → cstr_at bs q = Some s.
Proof. intros H Hs. unfold cstr_at. rewrite H. now apply cstr_app. Qed.

(** The terminator of the string at [q] is inside the block. *)
Lemma cstr_at_bound bs q s : cstr_at bs q = Some s → (q + length s < length bs)%nat.
Proof.
  intros H. apply cstr_at_inv in H as (r & H & _).
  pose proof (f_equal length H) as HL.
  rewrite length_drop, length_app in HL. cbn in HL. lia.
Qed.

Lemma cstr_at_terminator bs q s : cstr_at bs q = Some s → bs !! (q + length s)%nat = Some NUL.
Proof.
  intros H. apply cstr_at_inv in H as (r & H & _).
  rewrite <- lookup_drop, H. now rewrite lookup_app_r, Nat.sub_diag by lia.
Qed.

(** A write beyond the terminator of a string leaves the string alone. *)
Lemma cstr_at_insert_after bs q s e c :
  cstr_at bs q = Some s → (q + length s < e)%nat →
  cstr_at (<[e := c]> bs) q = Some s.
Proof.
  intros H He. apply cstr_at_inv in H as (r & H & Hs).
  unfold cstr_at. rewrite drop_insert_ge by lia. rewrite H.
  replace (e - q)%nat with (length s + S (e - q - length s - 1))%nat by lia.
  rewrite insert_app_r. cbn. now apply cstr_app.
Qed.

Section WithDelims.
Variable delim : list byte.

Lemma strspn_string s r : NUL ∉ s → strspn (s ++ NUL :: r) delim = Some (ws_len delim s).
Proof.
  induction s as [|c s IH]; intros Hs; cbn.
  - rewrite bool_decide_eq_true_2; reflexivity.
  - apply not_elem_of_cons in Hs as [Hc Hs].
    rewrite bool_decide_eq_false_2 by congruence.
    unfold is_ws. destruct (mem c delim); [|reflexivity]. now rewrite IH.
Qed.

Lemma strcspn_string s r : NUL ∉ s → strcspn (s ++ NUL :: r) delim = Some (word_len delim s).
Proof.
  induction s as [|c s IH]; intros Hs; cbn.
  - rewrite bool_decide_eq_true_2; reflexivity.
  - apply not_elem_of_cons in Hs as [Hc Hs].
    rewrite bool_decide_eq_false_2 by congruence.
    unfold is_ws. destruct (mem c delim); [reflexivity|]. now rewrite IH.
Qed.

(** One [strtok] search, read on the string it starts from: no token when
    the string has none; otherwise the first token, cut out in place, with
    the search set to go on after it.  Strings that end at or before the
    starting point are untouched. *)
Lemma strtok_buf_spec bs s str :
  cstr_at bs s = Some str →
  match next_token delim str with
  | None =>
      ∃ s', strtok_buf bs s delim = Some (None, bs, s') ∧ cstr_at bs s' = Some []
            ∧ (s ≤ s')%nat
  | Some (t, rest) =>
      ∃ p bs' s',
        strtok_buf bs s delim = Some (Some p, bs', s')
        ∧ cstr_at bs' p = Some t
        ∧ cstr_at bs' s' = Some rest
        ∧ (s ≤ p)%nat ∧ (p + length t ≤ s')%nat
        ∧ length bs' = length bs
        ∧ (∀ q u, cstr_at bs q = Some u → (q + length u ≤ s)%nat →
                  cstr_at bs' q = Some u)
  end.
Proof.
  intros Hstr. pose proof (cstr_at_inv _ _ _ Hstr) as (r & Hd & Hnul).
  unfold strtok_buf, next_token. rewrite Hd, strspn_string by exact Hnul. cbn [mbind option_bind].
  rewrite skip_ws_drop. set (k := ws_len delim str).
  assert (Hk : (k ≤ length str)%nat) by apply ws_len_le.
  assert (Hdk : drop (s + k) bs = drop k str ++ NUL :: r).
  { rewrite <- drop_drop, Hd. rewrite drop_app_le by lia. reflexivity. }
  assert (Hnul1 : NUL ∉ drop k str).
  { intros Hin. apply Hnul. eapply (subseteq_drop k); exact Hin. }
  destruct (drop k str) as [|c s1] eqn:E1.
  - (* only delimiters up to the terminator *)
    rewrite <- (Nat.add_0_r (s + k)), <- lookup_drop, Hdk. cbn.
    rewrite bool_decide_eq_true_2 by reflexivity.
    exists (s + k)%nat. rewrite Nat.add_0_r. split; [reflexivity|].
    split; [|lia].
    eapply cstr_at_intro; [exact Hdk|apply not_elem_of_nil].
  - assert (Hc : is_ws delim c = false).
    { eapply skip_ws_cons. rewrite skip_ws_drop. exact E1. }
    assert (Hc0 : c ≠ NUL) by (intros ->; apply Hnul1; set_solver).
    rewrite <- (Nat.add_0_r (s + k)), <- lookup_drop, Hdk. cbn [lookup list_lookup app mbind option_bind].
    rewrite Nat.add_0_r.
    rewrite bool_decide_eq_false_2 by exact Hc0.
    rewrite Hdk. rewrite (strcspn_string (c :: s1)) by exact Hnul1. cbn [mbind option_bind].
    set (m := word_len delim (c :: s1)).
    exists (s + k)%nat.
    assert (Hm : (m ≤ length (c :: s1))%nat) by apply word_len_le.
    rewrite <- lookup_drop, Hdk.
    destruct (lookup_word_len delim (c :: s1)) as [(H1 & H2 & H3)|(d & H1 & H2 & H3)]; fold m in H1.
    + (* the token runs up to the terminator *)
      apply lookup_ge_None in H1.
      assert (m = length (c :: s1)) as Hml by lia.
      rewrite lookup_app_r by lia. rewrite Hml, Nat.sub_diag. cbn [lookup list_lookup mbind option_bind].
      rewrite bool_decide_eq_true_2 by reflexivity.
      exists bs, (s + k + length (c :: s1))%nat. rewrite H2, H3.
      split; [reflexivity|]. split; [eapply cstr_at_intro; eassumption|].
      split.
      { eapply (cstr_at_intro _ _ [] r); [|apply not_elem_of_nil].
        rewrite <- drop_drop, Hdk. rewrite drop_app_length. reflexivity. }
      repeat split; auto; lia.
    + (* a delimiter closes the token and is overwritten *)
      assert (Hd0 : d ≠ NUL).
      { intros ->. apply Hnul1. rewrite H3. set_solver. }
      rewrite lookup_app_l by (apply lookup_lt_Some in H1; exact H1).
      rewrite H1. cbn [mbind option_bind].
      rewrite bool_decide_eq_false_2 by exact Hd0.
      set (t := word delim (c :: s1)) in *. set (aw := after_word delim (c :: s1)) in *.
      assert (Hlt : length t = m) by apply length_word.
      assert (Hnt : NUL ∉ t).
      { intros Hin. apply Hnul1. rewrite H3. set_solver. }
      assert (Hna : NUL ∉ aw).
      { intros Hin. apply Hnul1. rewrite H3. set_solver. }
      exists (<[(s + k + m)%nat := NUL]> bs), (S (s + k + m)).
      split; [reflexivity|].
      split.
      { unfold cstr_at. rewrite drop_insert_ge by lia. rewrite Hdk, H3.
        replace (s + k + m - (s + k))%nat with (length t + 0)%nat by lia.
        rewrite <- app_assoc. rewrite insert_app_r. cbn. now apply cstr_app. }
      split.
      { unfold cstr_at. rewrite drop_insert_lt by lia.
        replace (S (s + k + m)) with ((s + k) + S m)%nat by lia.
        rewrite <- drop_drop, Hdk, H3. rewrite <- app_assoc.
        rewrite <- Hlt. replace (S (length t)) with (length t + 1)%nat by lia.
        rewrite <- drop_drop, drop_app_length. cbn. now apply cstr_app. }
      split; [lia|]. split; [lia|]. split; [apply length_insert|].
      intros q u Hu Hq.
      apply cstr_at_insert_after; [exact Hu|].
      pose proof (cstr_at_terminator _ _ _ Hu) as Ht.
      assert (bs !! (s + k + m)%nat = Some d) as Hbd.
      { rewrite <- lookup_drop, Hdk. rewrite lookup_app_l by (apply lookup_lt_Some in H1; exact H1). exact H1. }
      destruct (decide (q + length u = s + k + m)%nat) as [Heq|]; [|lia].
      rewrite Heq in Ht. congruence.
Qed.

End WithDelims.
End CStrFacts.

(** ** The launcher *)

Module LaunchFacts.
Import Libc Shell Run LibcFacts Inv.

Lemma fork_eq w :
  fork w =
    let w1 := log CFork w in
    match forks w with
    | ForkChild :: rest => (Returns 0, set_children ∅ (set_forks rest w1))
    | ForkParent pid reports :: rest =>
        (Returns pid, set_children (<[pid := reports]> (children w)) (set_forks rest w1))
    | ForkError err :: rest => (Returns (-1), set_errno err (set_forks rest w1))
    | [] => (Returns (-1), set_errno EAGAIN w1)
    end.
Proof. reflexivity. Qed.

Lemma waitpid_eq pid w :
  waitpid pid w =
    let w1 := log (CWaitpid pid) w in
    match children w !! pid with
    | None => (Returns None, set_errno ECHILD w1)
    | Some [] => (Stops Blocked, w1)
    | Some (s :: rest) =>
        (Returns (Some s),
         set_children (if WIFEXITED s || WIFSIGNALED s then delete pid (children w)
                       else <[pid := rest]> (children w)) w1)
    end.
Proof. reflexivity. Qed.

(** The wait loop on a child that reaches a terminal state. *)
Lemma wait_loop_terminates pid : ∀ reports fuel status w,
  children w !! pid = Some reports →
  Exists (fun s => terminal s = true) reports →
  (waits reports ≤ fuel)%nat →
  wait_loop fuel pid status w
  = (Returns tt,
     set_children (delete pid (children w))
       (set_calls (calls w ++ replicate (waits reports) (CWaitpid pid)) w)).
Proof.
  induction reports as [|s rest IH]; intros fuel status w Hc Hex Hfuel.
  - inversion Hex.
  - cbn [waits] in *. destruct fuel as [|fuel]; [destruct (terminal s); lia|].
    cbn [wait_loop]. erewrite bind_returns by (rewrite waitpid_eq; cbn zeta; rewrite Hc; reflexivity).
    cbv beta iota. unfold terminal in *.
    destruct (WIFEXITED s || WIFSIGNALED s) eqn:Ht.
    + apply orb_true_iff in Ht. 
      replace (negb (WIFEXITED s) && negb (WIFSIGNALED s)) with false
        by (destruct Ht as [-> | ->]; destruct (WIFEXITED s); reflexivity).
      reflexivity.
    + pose proof Ht as Ht'. apply orb_false_iff in Ht' as [Ht1 Ht2].
      rewrite Ht1, Ht2. cbn [negb andb].
      rewrite IH.
      * f_equal. world_eq.
        -- now rewrite delete_insert_eq.
        -- rewrite <- app_assoc. reflexivity.
      * fields. apply lookup_insert_eq.
      * inversion Hex as [? ? H|]; subst; [|assumption].
        cbv beta in H. congruence.
      * lia.
Qed.

Lemma waits_le reports : (waits reports ≤ length reports)%nat.
Proof. induction reports as [|s r IH]; cbn; [lia|]. destruct (terminal s); lia. Qed.

(** The shell side of [lsh_launch] when the child is created. *)
Lemma lsh_launch_parent args w pid reports rest :
  forks w = ForkParent pid reports :: rest → 0 < pid →
  Exists (fun s => terminal s = true) reports →
  lsh_launch args w
  = (Returns CONTINUE,
     set_children (delete pid (children w))
       (set_forks rest
          (set_calls (calls w ++ CFork :: replicate (waits reports) (CWaitpid pid)) w))).
Proof.
  intros Hf Hpid Hex. unfold lsh_launch.
  erewrite bind_returns by (rewrite fork_eq; cbn zeta; rewrite Hf; reflexivity).
  assert (pid ≠ 0) as Hp0 by lia. assert (¬ pid < 0) as Hp1 by lia.
  rewrite (bool_decide_eq_false_2 _ Hp0), (bool_decide_eq_false_2 _ Hp1).
  erewrite bind_returns.
  2:{ erewrite bind_returns by reflexivity. fields. rewrite lookup_insert_eq. cbn [default].
      apply wait_loop_terminates with (reports := reports).
      - fields. apply lookup_insert_eq.
      - exact Hex.
      - pose proof (waits_le reports). unfold id. lia. }
  unfold ret, CONTINUE. f_equal. world_eq.
  - now rewrite delete_insert_eq.
  - rewrite <- app_assoc. reflexivity.
Qed.

(** The shell side of [lsh_launch] when no process can be created. *)
Lemma lsh_launch_fork_error args w err rest :
  forks w = ForkError err :: rest →
  let w1 := set_errno err (set_forks rest (log CFork w)) in
  lsh_launch args w
  = (Returns CONTINUE, set_stderr (stderr w ++ perror_text (CStr.lit "lsh") w1) w1).
Proof.
  intros Hf w1. unfold lsh_launch.
  erewrite bind_returns by (rewrite fork_eq; cbn zeta; rewrite Hf; reflexivity).
  rewrite bool_decide_eq_false_2 by lia. rewrite bool_decide_eq_true_2 by lia.
  erewrite bind_returns by apply perror_eq. reflexivity.
Qed.

Lemma lsh_launch_no_fork_left args w :
  forks w = [] →
  let w1 := set_errno EAGAIN (log CFork w) in
  lsh_launch args w
  = (Returns CONTINUE, set_stderr (stderr w ++ perror_text (CStr.lit "lsh") w1) w1).
Proof.
  intros Hf w1. unfold lsh_launch.
  erewrite bind_returns by (rewrite fork_eq; cbn zeta; rewrite Hf; reflexivity).
  rewrite bool_decide_eq_false_2 by lia. rewrite bool_decide_eq_true_2 by lia.
  erewrite bind_returns by apply perror_eq. reflexivity.
Qed.

End LaunchFacts.

(** ** The dispatcher *)

Module DispatchFacts.
Import Libc Shell Run LibcFacts Inv LaunchFacts Builtins.

Lemma to_N_inj c d : Byte.to_N c = Byte.to_N d → c = d.
Proof.
  intros H. apply (f_equal Byte.of_N) in H. rewrite !Byte.of_to_N in H. congruence.
Qed.

Lemma to_N_zero c : Byte.to_N c = 0%N → c = CStr.NUL.
Proof. intros H. apply to_N_inj. rewrite H. reflexivity. Qed.

(** On strings without NUL, [strcmp] gives 0 exactly on equal strings. *)
Lemma strcmp_eq a : ∀ b, CStr.NUL ∉ a → CStr.NUL ∉ b → CStr.strcmp a b = 0 ↔ a = b.
Proof.
  induction a as [|c a IH]; intros b Ha Hb.
  all: destruct b as [|d b]; cbn.
  - split; reflexivity.
  - split; [|discriminate]. intros H. exfalso. apply Hb.
    assert (Byte.to_N d = 0%N) as H0 by lia. apply to_N_zero in H0. subst d. apply list_elem_of_here.
  - split; [|discriminate]. intros H. exfalso. apply Ha.
    assert (Byte.to_N c = 0%N) as H0 by lia. apply to_N_zero in H0. subst c. apply list_elem_of_here.
  - apply not_elem_of_cons in Ha as [_ Ha]. apply not_elem_of_cons in Hb as [_ Hb].
    case_bool_decide as Hcd.
    + subst d. rewrite IH by assumption. split; congruence.
    + split; [|congruence]. intros H. exfalso. apply Hcd. apply to_N_inj. lia.
Qed.

Lemma string_at_no_nul w p s : string_at w p = Some s → CStr.NUL ∉ s.
Proof.
  unfold string_at. destruct (heap w !! p.1) as [[bs|ps]|]; try discriminate.
  intros H. apply CStrFacts.cstr_at_inv in H as (r & _ & H). exact H.
Qed.

Lemma first_token_inv w args s :
  first_token w args = Some s →
  ∃ p sl, heap w !! args = Some (Ptrs (Ptr p :: sl)) ∧ string_at w p = Some s.
Proof.
  unfold first_token. destruct (heap w !! args) as [[bs|[|[| |p] sl]]|]; try discriminate.
  eauto.
Qed.

(** One turn of the dispatch loop: the handler on a match, the rest of the
    loop otherwise. *)
Lemma try_builtin_eq args i k w s name (f : nat → M Z) :
  first_token w args = Some s →
  builtin_str !! i = Some name → builtin_func !! i = Some f →
  CStr.NUL ∉ name →
  try_builtin args i k w = if decide (s = name) then f args w else k w.
Proof.
  intros Hs Hn Hf Hnul. apply first_token_inv in Hs as (p & sl & Hargs & Hp).
  unfold try_builtin.
  erewrite bind_returns by (eapply load_slot_ptr; [eassumption|reflexivity]).
  cbv beta iota. rewrite Hn. cbv beta iota. rewrite Hf. cbv beta iota.
  erewrite bind_returns by (apply load_string_eq; eassumption).
  pose proof (strcmp_eq s name (string_at_no_nul _ _ _ Hp) Hnul) as Hcmp.
  destruct (decide (s = name)) as [->|Hne].
  - rewrite bool_decide_eq_true_2 by (apply Hcmp; reflexivity). reflexivity.
  - rewrite bool_decide_eq_false_2 by (intros H; apply Hne, Hcmp, H). reflexivity.
Qed.

(** Dispatch on the first token: the three builtins by exact name, in
    their order, the launcher for every other name. *)
Lemma lsh_execute_dispatch args w s :
  first_token w args = Some s →
  lsh_execute args w
  = if decide (s = CStr.lit "cd") then lsh_cd args w
    else if decide (s = CStr.lit "help") then lsh_help args w
    else if decide (s = CStr.lit "exit") then lsh_exit args w
    else lsh_launch args w.
Proof.
  intros Hs. pose proof (first_token_inv _ _ _ Hs) as (p & sl & Hargs & Hp).
  unfold lsh_execute.
  erewrite bind_returns by (eapply load_slot_ptr; [eassumption|reflexivity]).
  change (seq 0 (Z.to_nat lsh_num_builtins)) with [0; 1; 2]%nat.
  cbn [foldr].
  assert (Hnul : ∀ name, name ∈ builtin_str → CStr.NUL ∉ name).
  { intros name Hin. unfold builtin_str in Hin.
    repeat (apply elem_of_cons in Hin as [->|Hin]); [| | |inversion Hin];
      apply (bool_decide_unpack _); vm_compute; exact I. }
  rewrite (try_builtin_eq _ 0%nat _ _ s (CStr.lit "cd") lsh_cd Hs eq_refl eq_refl)
    by (apply Hnul; set_solver).
  destruct (decide (s = CStr.lit "cd")); [reflexivity|].
  rewrite (try_builtin_eq _ 1%nat _ _ s (CStr.lit "help") lsh_help Hs eq_refl eq_refl)
    by (apply Hnul; set_solver).
  destruct (decide (s = CStr.lit "help")); [reflexivity|].
  rewrite (try_builtin_eq _ 2%nat _ _ s (CStr.lit "exit") lsh_exit Hs eq_refl eq_refl)
    by (apply Hnul; set_solver).
  reflexivity.
Qed.

Lemma lsh_execute_empty args w sl :
  heap w !! args = Some (Ptrs (Null :: sl)) →
  lsh_execute args w = (Returns CONTINUE, w).
Proof.
  intros H. unfold lsh_execute.
  erewrite bind_returns by (eapply load_slot_null; [eassumption|reflexivity]).
  reflexivity.
Qed.

Lemma lsh_execute_exit args w :
  first_token w args = Some (CStr.lit "exit") →
  lsh_execute args w = (Returns TERMINATE, w).
Proof.
  intros H. rewrite (lsh_execute_dispatch _ _ _ H).
  destruct (decide (CStr.lit "exit" = CStr.lit "cd")) as [E|_]; [discriminate E|].
  destruct (decide (CStr.lit "exit" = CStr.lit "help")) as [E|_]; [discriminate E|].
  destruct (decide (CStr.lit "exit" = CStr.lit "exit")) as [_|E]; [reflexivity|done].
Qed.

(** *** What the dispatcher leaves untouched *)

Ltac blind Hb :=
  let B1 := fresh in let B2 := fresh in let B3 := fresh in let B4 := fresh in
  let B5 := fresh in let B6 := fresh in let B7 := fresh in
  pose proof Hb as (B1 & B2 & B3 & B4 & B5 & B6 & B7);
  unfold log;
  repeat first [rewrite B1|rewrite B2|rewrite B3|rewrite B4|rewrite B5|rewrite B6|rewrite B7];
  reflexivity.

(** Split every [match] in the hypothesis, then read the result off. *)
Ltac prim_cases H :=
  repeat match type of H with
         | context [match ?x with _ => _ end] => destruct x eqn:?
         end;
  inversion H; subst; clear H.

Section Blind.
Context {A : Type} (f : world → A) (Hb : os_blind f).

Lemma preserves_load_slot a i : preserves f (load_slot a i).
Proof. intros w o w' H. unfold load_slot in H. prim_cases H; reflexivity. Qed.

Lemma preserves_load_string p : preserves f (load_string p).
Proof. intros w o w' H. unfold load_string in H. prim_cases H; reflexivity. Qed.

Lemma preserves_printf s : preserves f (printf s).
Proof. apply preserves_modify. intros w. blind Hb. Qed.

Lemma preserves_fprintf_stderr s : preserves f (fprintf_stderr s).
Proof. apply preserves_modify. intros w. blind Hb. Qed.

Lemma preserves_perror s : preserves f (perror s).
Proof. apply preserves_modify. intros w. blind Hb. Qed.

Lemma preserves_exit {B} c : preserves f (@exit B c).
Proof. apply preserves_halt. Qed.

Lemma preserves_chdir p : preserves f (chdir p).
Proof.
  unfold chdir. apply preserves_bind; [apply preserves_load_string|intros path].
  apply preserves_bind; [apply preserves_modify; intros w; blind Hb|intros _].
  intros w o w' H. prim_cases H; blind Hb.
Qed.

Lemma preserves_fork : preserves f fork.
Proof.
  unfold fork. apply preserves_bind; [apply preserves_modify; intros w; blind Hb|intros _].
  intros w o w' H. prim_cases H; blind Hb.
Qed.

Lemma preserves_execvp file argv : preserves f (execvp file argv).
Proof. intros w o w' H. unfold execvp in H. prim_cases H; try reflexivity; blind Hb. Qed.

Lemma preserves_waitpid pid : preserves f (waitpid pid).
Proof.
  unfold waitpid. apply preserves_bind; [apply preserves_modify; intros w; blind Hb|intros _].
  intros w o w' H. prim_cases H; try reflexivity; blind Hb.
Qed.

Lemma preserves_wait_loop pid : ∀ fuel status, preserves f (wait_loop fuel pid status).
Proof.
  induction fuel as [|fuel IH]; intros status; cbn [wait_loop].
  - apply preserves_halt.
  - apply preserves_bind; [apply preserves_waitpid|intros [s|]].
    + destruct (negb (WIFEXITED s) && negb (WIFSIGNALED s)); [apply IH|apply preserves_ret].
    + destruct status as [s|]; [|apply preserves_halt].
      destruct (negb (WIFEXITED s) && negb (WIFSIGNALED s)); [apply preserves_halt|apply preserves_ret].
Qed.

Lemma preserves_lsh_launch args : preserves f (lsh_launch args).
Proof.
  unfold lsh_launch. apply preserves_bind; [apply preserves_fork|intros pid].
  apply preserves_bind; [|intros; apply preserves_ret].
  case_bool_decide.
  - apply preserves_bind; [apply preserves_load_slot|intros a0].
    apply preserves_bind; [apply preserves_execvp|intros r].
    case_bool_decide; [|apply preserves_ret].
    apply preserves_bind; [apply preserves_perror|intros; apply preserves_exit].
  - case_bool_decide; [apply preserves_perror|].
    apply preserves_bind; [apply preserves_get|intros fuel]. apply preserves_wait_loop.
Qed.

Lemma preserves_lsh_cd args : preserves f (lsh_cd args).
Proof.
  unfold lsh_cd. apply preserves_bind; [apply preserves_load_slot|intros [p|]].
  - apply preserves_bind; [|intros; apply preserves_ret].
    apply preserves_bind; [apply preserves_chdir|intros r].
    case_bool_decide; [apply preserves_perror|apply preserves_ret].
  - apply preserves_bind; [apply preserves_fprintf_stderr|intros; apply preserves_ret].
Qed.

Lemma preserves_lsh_help args : preserves f (lsh_help args).
Proof.
  intros w o w' H. rewrite (lsh_help_eq args w) in H.
  inversion H; subst. blind Hb.
Qed.

Lemma preserves_lsh_exit args : preserves f (lsh_exit args).
Proof. apply preserves_ret. Qed.

Lemma preserves_try_builtin args i k :
  preserves f k → preserves f (try_builtin args i k).
Proof.
  intros Hk. unfold try_builtin.
  apply preserves_bind; [apply preserves_load_slot|intros [p|]]; [|apply preserves_halt].
  destruct (builtin_str !! i) as [name|] eqn:En; [|apply preserves_halt].
  destruct (builtin_func !! i) as [h|] eqn:Ef; [|apply preserves_halt].
  apply preserves_bind; [apply preserves_load_string|intros s].
  case_bool_decide; [|exact Hk].
  assert (Hin : h ∈ builtin_func) by (eapply list_elem_of_lookup_2; eassumption).
  unfold builtin_func in Hin.
  repeat (apply elem_of_cons in Hin as [->|Hin]); [| | |inversion Hin].
  - apply preserves_lsh_cd.
  - apply preserves_lsh_help.
  - apply preserves_lsh_exit.
Qed.

Lemma preserves_lsh_execute args : preserves f (lsh_execute args).
Proof.
  unfold lsh_execute.
  apply preserves_bind; [apply preserves_load_slot|intros [p|]]; [|apply preserves_ret].
  change (seq 0 (Z.to_nat lsh_num_builtins)) with [0; 1; 2]%nat. cbn [foldr].
  repeat apply preserves_try_builtin. apply preserves_lsh_launch.
Qed.

End Blind.

Lemma os_blind_heap : os_blind heap.
Proof. repeat split. Qed.
Lemma os_blind_stdin : os_blind stdin.
Proof. repeat split. Qed.
Lemma os_blind_alloc_count : os_blind alloc_count.
Proof. repeat split. Qed.
Lemma os_blind_alloc_ok : os_blind alloc_ok.
Proof. repeat split. Qed.

(** *** How a dispatch ends *)




Lemma load_slot_inv a i w r w' :
  load_slot a i w = (Returns r, w') →
  w' = w ∧ ∃ sl, heap w !! a = Some (Ptrs sl)
                 ∧ sl !! i = Some (match r with Some p => Ptr p | None => Null end).
Proof.
  unfold load_slot. intros H.
  destruct (heap w !! a) as [[bs|sl]|] eqn:Ea; try discriminate.
  destruct (sl !! i) as [[| |p]|] eqn:Ei; try discriminate; inversion H; subst; eauto.
Qed.


(** Reading strings needs the heap only. *)
Lemma string_at_heap w1 w2 p : heap w1 = heap w2 → string_at w1 p = string_at w2 p.
Proof. intros H. unfold string_at. now rewrite H. Qed.

Lemma strings_until_null_heap w1 w2 sl :
  heap w1 = heap w2 → strings_until_null w1 sl = strings_until_null w2 sl.
Proof.
  intros H. induction sl as [|[| |p] sl IH]; cbn; try reflexivity.
  rewrite (string_at_heap _ _ _ H), IH. reflexivity.
Qed.

Lemma argv_strings_heap w1 w2 a :
  heap w1 = heap w2 → argv_strings w1 a = argv_strings w2 a.
Proof.
  intros H. unfold argv_strings. rewrite H.
  destruct (heap w2 !! a) as [[bs|sl]|]; try reflexivity. now apply strings_until_null_heap.
Qed.

Lemma tokens_of_cons w args s toks :
  tokens_of w args = Some (s :: toks) →
  ∃ p sl, heap w !! args = Some (Ptrs (Ptr p :: sl)) ∧ string_at w p = Some s
          ∧ strings_until_null w sl = Some toks.
Proof.
  unfold tokens_of, argv_strings.
  destruct (heap w !! args) as [[bs|[|[| |p] sl]]|]; cbn; try discriminate.
  destruct (string_at w p) as [s'|] eqn:E1; [|discriminate]. cbn.
  destruct (strings_until_null w sl) as [l|] eqn:E2; [|discriminate]. cbn.
  intros [= <- <-]. eauto.
Qed.

Lemma tokens_of_nil w args :
  tokens_of w args = Some [] → ∃ sl, heap w !! args = Some (Ptrs (Null :: sl)).
Proof.
  unfold tokens_of, argv_strings.
  destruct (heap w !! args) as [[bs|[|[| |p] sl]]|]; cbn; try discriminate; eauto.
  destruct (string_at w p) as [s'|]; [|discriminate]. cbn.
  destruct (strings_until_null w sl) as [l|]; discriminate.
Qed.

Lemma tokens_of_first w args s toks :
  tokens_of w args = Some (s :: toks) → first_token w args = Some s.
Proof.
  intros H. apply tokens_of_cons in H as (p & sl & Ha & Hp & _).
  unfold first_token. now rewrite Ha.
Qed.

(** The wait loop ends when the child does, and hangs if it never does. *)
Lemma wait_loop_total pid : ∀ reports fuel status w,
  children w !! pid = Some reports → (length reports < fuel)%nat →
  ∃ o w', wait_loop fuel pid status w = (o, w')
          ∧ (o = Returns tt ∨ o = Stops Blocked).
Proof.
  induction reports as [|s rest IH]; intros fuel status w Hc Hfuel.
  - destruct fuel as [|fuel]; [cbn in Hfuel; lia|]. cbn [wait_loop].
    eexists _, _. split; [|right; reflexivity].
    erewrite bind_stops; [reflexivity|]. rewrite waitpid_eq. cbn zeta. rewrite Hc. reflexivity.
  - destruct fuel as [|fuel]; [cbn in Hfuel; lia|]. cbn [wait_loop]. cbn [length] in Hfuel.
    destruct (negb (WIFEXITED s) && negb (WIFSIGNALED s)) eqn:Hs.
    + destruct (IH fuel (Some s)
                  (set_children (<[pid := rest]> (children w)) (log (CWaitpid pid) w)))
        as (o & w' & Hw & Ho); [fields; apply lookup_insert_eq|lia|].
      exists o, w'. split; [|exact Ho].
      erewrite bind_returns by (rewrite waitpid_eq; cbn zeta; rewrite Hc; reflexivity).
      cbv beta iota. rewrite Hs.
      replace (WIFEXITED s || WIFSIGNALED s) with false
        by (destruct (WIFEXITED s), (WIFSIGNALED s); cbn in *; congruence).
      exact Hw.
    + eexists _, _. split; [|left; reflexivity].
      erewrite bind_returns by (rewrite waitpid_eq; cbn zeta; rewrite Hc; reflexivity).
      cbv beta iota. rewrite Hs. reflexivity.
Qed.

(** The forked child: its image is replaced, or it reports and exits. *)
Lemma launch_child args w s toks :
  tokens_of w args = Some (s :: toks) →
  ∃ o w',
    (a0 ← load_slot args 0;
     r ← execvp a0 args;
     if bool_decide (r = -1) then perror (CStr.lit "lsh");; exit EXIT_FAILURE
     else ret ()) w = (o, w')
    ∧ ((o = Stops (Exit EXIT_FAILURE)
        ∧ calls w' = calls w ++ [CExecvp s (s :: toks)]
        ∧ ∃ text, stderr w' = stderr w ++ text)
       ∨ o = Stops (Replaced s (s :: toks))).
Proof.
  intros Ht. pose proof (tokens_of_cons _ _ _ _ Ht) as (p & sl & Ha & Hp & Hsl).
  destruct (decide (s ∈ progs w)) as [Hin|Hin].
  - eexists _, _. split; [|right; reflexivity].
    erewrite bind_returns by (eapply load_slot_ptr; [eassumption|reflexivity]).
    erewrite bind_stops; [reflexivity|].
    unfold execvp. rewrite Hp. unfold tokens_of in Ht. rewrite Ht.
    rewrite bool_decide_eq_true_2 by exact Hin. reflexivity.
  - eexists _, _. split.
    { erewrite bind_returns by (eapply load_slot_ptr; [eassumption|reflexivity]).
      erewrite bind_returns.
      2:{ unfold execvp. rewrite Hp. unfold tokens_of in Ht. rewrite Ht.
          rewrite bool_decide_eq_false_2 by exact Hin. reflexivity. }
      rewrite bool_decide_eq_true_2 by reflexivity.
      erewrite bind_returns by apply perror_eq. reflexivity. }
    left. split; [reflexivity|]. fields. split; [reflexivity|]. eexists. reflexivity.
Qed.

(** [lsh_launch] on a command read by the tokenizer never goes wrong. *)
Lemma lsh_launch_total args w s toks :
  tokens_of w args = Some (s :: toks) →
  ∃ o w', lsh_launch args w = (o, w') ∧ dispatch_end (s :: toks) w o w'.
Proof.
  intros Ht. unfold lsh_launch.
  assert (Hchild : ∀ w1, heap w1 = heap w → calls w1 = calls w ++ [CFork] →
            stderr w1 = stderr w →
            ∃ o w',
              ((a0 ← load_slot args 0;
                r ← execvp a0 args;
                if bool_decide (r = -1) then perror (CStr.lit "lsh");; exit EXIT_FAILURE
                else ret ()) ≫= (fun _ => ret 1)) w1 = (o, w')
              ∧ dispatch_end (s :: toks) w o w').
  { intros w1 Hh Hc He.
    assert (Ht1 : tokens_of w1 args = Some (s :: toks)).
    { unfold tokens_of. rewrite (argv_strings_heap _ _ _ Hh). exact Ht. }
    destruct (launch_child _ _ _ _ Ht1) as (o & w' & Hrun & [(-> & Hcalls & text & Herr)| ->]).
    - eexists _, _. split; [erewrite bind_stops by exact Hrun; reflexivity|].
      right. right. left. split; [reflexivity|]. split.
      + rewrite Hcalls. eauto.
      + exists text. congruence.
    - eexists _, _. split; [erewrite bind_stops by exact Hrun; reflexivity|].
      right. right. right. left. eauto. }
  destruct (forks w) as [|[err| |pid reports] rest] eqn:Hf.
  - eexists _, _. split; [|left; reflexivity].
    rewrite <- (lsh_launch_no_fork_left args w Hf). reflexivity.
  - eexists _, _. split; [|left; reflexivity].
    rewrite <- (lsh_launch_fork_error args w err rest Hf). reflexivity.
  - erewrite bind_returns by (rewrite fork_eq; cbn zeta; rewrite Hf; reflexivity).
    rewrite bool_decide_eq_true_2 by reflexivity. apply Hchild; reflexivity.
  - erewrite bind_returns by (rewrite fork_eq; cbn zeta; rewrite Hf; reflexivity).
    case_bool_decide as Hp0; [apply Hchild; reflexivity|].
    case_bool_decide as Hp1.
    { eexists _, _. split; [|left; reflexivity].
      erewrite bind_returns by apply perror_eq. reflexivity. }
    set (w1 := set_children _ _).
    destruct (wait_loop_total pid reports (S (length reports)) None w1)
      as (o & w' & Hw & [-> | ->]); [apply lookup_insert_eq|lia| |].
    + eexists _, _. split; [|left; reflexivity].
      erewrite bind_returns.
      2:{ erewrite bind_returns by reflexivity. unfold w1 at 1. fields.
          rewrite lookup_insert_eq. exact Hw. }
      reflexivity.
    + eexists _, _. split; [|do 4 right; reflexivity].
      erewrite bind_stops; [reflexivity|].
      erewrite bind_returns by reflexivity. unfold w1 at 1. fields.
      rewrite lookup_insert_eq. exact Hw.
Qed.

End DispatchFacts.

(** ** The tokenizer *)

Module SplitFacts.
Import Libc Shell Run LibcFacts Inv.

Lemma quiet_refl w : quiet w w.
Proof. repeat split; auto. intros k Hk. lia. Qed.

Lemma quiet_trans w1 w2 w3 : quiet w1 w2 → quiet w2 w3 → quiet w1 w3.
Proof.
  intros ((Ha & Hb) & Hc & Hd) ((Ha' & Hb') & Hc' & Hd').
  repeat split; try congruence; try lia.
  intros k Hk. destruct (decide (k < alloc_count w2)%nat).
  - apply Hb. lia.
  - rewrite <- Hc. apply Hb'. lia.
Qed.

Lemma quiet_alloc_failure w1 w2 w3 :
  quiet w1 w2 → alloc_failure w2 w3 → alloc_failure w1 w3.
Proof.
  intros ((Ha & Hb) & Hc & Hd) ((Ha' & Hb' & Hc') & Hd' & He').
  split; [|split; [congruence|exact He']].
  split; [lia|]. split; [congruence|].
  intros k Hk. destruct (decide (k < alloc_count w2)%nat).
  - apply Hb. lia.
  - rewrite <- Hc. apply Hc'. lia.
Qed.

Ltac quiet_tac :=
  unfold quiet, allocs_succeed; fields; repeat split; auto; intros; lia.

Section Split.
Variables (h0 : gmap nat block) (lb : nat).

Lemma split_pre_lookup_line tb w buffsize pos s bs ps done :
  split_pre h0 lb tb w buffsize pos s bs ps done →
  heap w !! lb = Some (Chars bs).
Proof.
  intros (sl & Hh & Hn & Hne & _). rewrite Hh.
  rewrite lookup_insert_ne by congruence. apply lookup_insert_eq.
Qed.

(** [tokens[pos] = token; pos++] *)
Lemma store_token tb w buffsize pos s bs ps done p t :
  split_inv h0 lb tb w buffsize pos s bs ps done →
  CStr.cstr_at bs p = Some t → (p + length t ≤ s)%nat →
  ∃ w1, store_slot tb pos (Ptr (lb, p)) w = (Returns tt, w1)
        ∧ quiet w w1 ∧ calls w1 = calls w
        ∧ split_pre h0 lb tb w1 buffsize (pos + 1) s bs (ps ++ [p]) (done ++ [t]).
Proof.
  intros [(sl & Hh & Hn & Hne & Hsv & Hlen & Hpos & Hle & Htk & Hstr) Hlt] Hp Hpt.
  eexists. split.
  { apply store_slot_eq with (ps := sl); [rewrite Hh; apply lookup_insert_eq|lia]. }
  split; [quiet_tac|]. split; [reflexivity|].
  exists (<[Z.to_nat pos := Ptr (lb, p)]> sl). fields.
  split; [rewrite Hh; apply insert_insert_eq|].
  repeat split; auto.
  - rewrite length_insert. exact Hlen.
  - rewrite length_app. cbn [length]. lia.
  - lia.
  - lia.
  - subst pos. rewrite Nat2Z.id. rewrite length_app. cbn [length].
    rewrite Nat.add_1_r.
    rewrite (take_S_r _ _ (Ptr (lb, p))).
    + rewrite take_insert_ge by lia. rewrite Htk, map_app. reflexivity.
    + apply list_lookup_insert_eq. lia.
  - apply Forall2_app; [exact Hstr|]. constructor; [auto|constructor].
Qed.

(** The [if (pos >= buffsize)] block: more room, or the fatal error. *)
Lemma grow_tokens tb w buffsize pos s bs ps done :
  split_pre h0 lb tb w buffsize pos s bs ps done →
  ∃ o w1,
    (if pos >=? buffsize then
       let buffsize := buffsize + LSH_TOK_BUFSIZE in
       r ← realloc tb buffsize;
       match r with
       | None => fprintf_stderr allocation_error;; exit EXIT_FAILURE
       | Some tokens => ret (buffsize, tokens)
       end
     else ret (buffsize, tb)) w = (o, w1)
    ∧ ((∃ buffsize' tb', o = Returns (buffsize', tb') ∧ quiet w w1
          ∧ split_inv h0 lb tb' w1 buffsize' pos s bs ps done)
       ∨ (o = Stops (Exit EXIT_FAILURE) ∧ alloc_failure w w1
          ∧ heap w1 !! lb = Some (Chars bs))).
Proof.
  intros Hpre. pose proof Hpre as (sl & Hh & Hn & Hne & Hsv & Hlen & Hpos & Hle & Htk & Hstr).
  destruct (pos >=? buffsize) eqn:Hge.
  2:{ do 2 eexists. split; [reflexivity|]. left. do 2 eexists.
      split; [reflexivity|]. split; [apply quiet_refl|]. split; [exact Hpre|lia]. }
  assert (pos = buffsize) as Hpb by lia.
  cbn zeta. 
  assert (Hsl : heap w !! tb = Some (Ptrs sl)) by (rewrite Hh; apply lookup_insert_eq).
  destruct (alloc_ok w (alloc_count w)) eqn:Hok.
  - (* realloc gives a larger block *)
    do 2 eexists. split.
    { erewrite bind_returns.
      2:{ rewrite (realloc_eq _ _ _ _ Hsl). cbn zeta. rewrite Hok. reflexivity. }
      reflexivity. }
    left. do 2 eexists. split; [reflexivity|].
    assert (Hdel : delete tb (heap w) = <[lb := Chars bs]> h0).
    { rewrite Hh. apply delete_insert_id. rewrite lookup_insert_ne by congruence. exact Hn. }
    rewrite Hdel.
    pose proof (fresh_heap (<[lb := Chars bs]> h0)) as Hf.
    apply lookup_insert_None in Hf as [Hf1 Hf2].
    split.
    { unfold quiet, allocs_succeed. fields. repeat split; auto.
      intros k Hk. assert (k = alloc_count w) as -> by lia. exact Hok. }
    split; [|unfold LSH_TOK_BUFSIZE; lia].
    eexists. fields. split; [reflexivity|].
    repeat split; auto.
    + rewrite length_app, length_take, length_replicate. unfold LSH_TOK_BUFSIZE. lia.
    + unfold LSH_TOK_BUFSIZE; lia.
    + unfold LSH_TOK_BUFSIZE; lia.
    + rewrite take_app_le by (rewrite length_take; unfold LSH_TOK_BUFSIZE; lia).
      rewrite take_take. rewrite Nat.min_l by (unfold LSH_TOK_BUFSIZE; lia). exact Htk.
  - (* realloc returns NULL *)
    do 2 eexists. split.
    { erewrite bind_returns.
      2:{ rewrite (realloc_eq _ _ _ _ Hsl). cbn zeta. rewrite Hok. reflexivity. }
      cbv beta iota.
      erewrite bind_returns by apply fprintf_stderr_eq. reflexivity. }
    right. split; [reflexivity|].
    split; [|fields; eapply split_pre_lookup_line; exact Hpre].
    unfold alloc_failure, alloc_fails. fields.
    split; [|split; [reflexivity|]].
    + split; [lia|]. split; [rewrite Nat.sub_1_r; exact Hok|]. intros k Hk. lia.
    + eexists _, _. split; [reflexivity|]. exact I.
Qed.

(** One more [strtok(NULL, LSH_TOK_DELIM)]. *)
Lemma strtok_step tb w buffsize pos s bs ps done rem :
  split_inv h0 lb tb w buffsize pos s bs ps done →
  CStr.cstr_at bs s = Some rem →
  ∃ token w1 s' bs',
    strtok None LSH_TOK_DELIM w = (Returns token, w1)
    ∧ quiet w w1 ∧ calls w1 = calls w
    ∧ split_inv h0 lb tb w1 buffsize pos s' bs' ps done
    ∧ token_ok lb bs' s' token (Runs.runs LSH_TOK_DELIM rem)
    ∧ length bs' = length bs.
Proof.
  intros [Hpre Hlt] Hrem.
  pose proof (split_pre_lookup_line _ _ _ _ _ _ _ _ Hpre) as Hline.
  destruct Hpre as (sl & Hh & Hn & Hne & Hsv & Hlen & Hpos & Hle & Htk & Hstr).
  pose proof (CStrFacts.strtok_buf_spec LSH_TOK_DELIM bs s rem Hrem) as Hspec.
  rewrite RunsFacts.runs_unfold.
  assert (Hheap : ∀ bs', <[lb := Chars bs']> (heap w) = <[tb := Ptrs sl]> (<[lb := Chars bs']> h0)).
  { intros bs'. rewrite Hh. rewrite insert_insert_ne by congruence.
    now rewrite insert_insert_eq. }
  destruct (Runs.next_token LSH_TOK_DELIM rem) as [[t r]|].
  - destruct Hspec as (p & bs' & s' & Htok & Ht & Hr & Hsp & Hps & Hlb & Hkeep).
    eexists _, _, s', bs'. split; [eapply strtok_next; eassumption|].
    split; [quiet_tac|]. split; [reflexivity|].
    split.
    + split; [|exact Hlt]. exists sl. fields. rewrite Hheap.
      repeat split; auto; try lia.
      eapply Forall2_impl; [exact Hstr|]. cbv beta. intros q u [Hq Hqs].
      split; [apply Hkeep; assumption|lia].
    + split; [|exact Hlb]. cbn. split; [reflexivity|]. eauto 10.
  - destruct Hspec as (s' & Htok & Hnil & Hss).
    eexists _, _, s', bs. split; [eapply strtok_next; eassumption|].
    split; [quiet_tac|]. split; [reflexivity|].
    split.
    + split; [|exact Hlt]. exists sl. fields. rewrite Hheap.
      repeat split; auto; try lia.
      eapply Forall2_impl; [exact Hstr|]. cbv beta. intros q u [Hq Hqs].
      split; [assumption|lia].
    + split; reflexivity.
Qed.

Lemma length_runs_le delim (str : list byte) :
  (length (Runs.runs delim str) ≤ length str)%nat.
Proof.
  rewrite RunsFacts.length_runs. unfold Runs.count_runs.
  generalize true. induction str as [|c r IH]; intros b; cbn [Runs.count_from length]; [lia|].
  specialize (IH (Runs.is_ws delim c)). destruct (b && negb (Runs.is_ws delim c)); lia.
Qed.

(** The whole loop: it stores the pending tokens and returns, or an
    allocation fails and the process exits with EXIT_FAILURE. *)
Lemma split_loop_spec fuel : ∀ w buffsize pos tb token s bs ps done pending,
  split_inv h0 lb tb w buffsize pos s bs ps done →
  token_ok lb bs s token pending →
  (length pending ≤ fuel)%nat →
  ∃ o w',
    split_loop fuel buffsize pos tb token w = (o, w')
    ∧ ((∃ tb' buffsize' s' bs' ps',
          o = Returns (pos + Z.of_nat (length pending), tb')
          ∧ quiet w w'
          ∧ split_inv h0 lb tb' w' buffsize' (pos + Z.of_nat (length pending))
              s' bs' ps' (done ++ pending))
       ∨ (o = Stops (Exit EXIT_FAILURE) ∧ alloc_failure w w'
          ∧ ∃ bs', heap w' !! lb = Some (Chars bs'))).
Proof.
  induction fuel as [|fuel IH]; intros w buffsize pos tb token s bs ps done pending Hinv Htok Hfuel.
  - destruct pending; [|cbn in Hfuel; lia].
    destruct token as [[b p]|]; [destruct Htok as (_ & t & rem & _ & _ & _ & ?); done|].
    eexists _, _. split; [reflexivity|]. left. exists tb, buffsize, s, bs, ps.
    rewrite app_nil_r, Z.add_0_r. split; [reflexivity|]. split; [apply quiet_refl|exact Hinv].
  - destruct token as [[b p]|].
    2:{ cbn in Htok. subst pending. eexists _, _. split; [reflexivity|]. left.
        exists tb, buffsize, s, bs, ps.
        rewrite app_nil_r, Z.add_0_r. split; [reflexivity|]. split; [apply quiet_refl|exact Hinv]. }
    destruct Htok as (-> & t & rem & Ht & Hts & Hrem & ->).
    cbn [length] in Hfuel.
    destruct (store_token _ _ _ _ _ _ _ _ _ _ Hinv Ht Hts) as (w1 & Hst & Hq1 & Hc1 & Hpre).
    destruct (grow_tokens _ _ _ _ _ _ _ _ Hpre) as (o2 & w2 & Hgrow & [(bf' & tb' & -> & Hq2 & Hinv2)|(-> & Hfail & Hkept)]).
    2:{ eexists _, _. split.
        { cbn [split_loop]. erewrite bind_returns by exact Hst.
          erewrite bind_stops by exact Hgrow. reflexivity. }
        right. split; [reflexivity|].
        split; [eapply quiet_alloc_failure; eassumption|eauto]. }
    assert (Hrem2 : CStr.cstr_at bs s = Some rem) by exact Hrem.
    destruct (strtok_step _ _ _ _ _ _ _ _ _ Hinv2 Hrem2) as (token' & w3 & s' & bs' & Hstk & Hq3 & Hc3 & Hinv3 & Htok3 & _).
    destruct (IH w3 bf' (pos + 1) tb' token' s' bs' (ps ++ [p]) (done ++ [t]) _ Hinv3 Htok3)
      as (o & w' & Hloop & Hres); [lia|].
    exists o, w'. split.
    { cbn [split_loop]. erewrite bind_returns by exact Hst.
      erewrite bind_returns by exact Hgrow.
      erewrite bind_returns by exact Hstk. exact Hloop. }
    assert (Hq13 : quiet w w3) by (eapply quiet_trans; [eapply quiet_trans|]; eassumption).
    destruct Hres as [(tb'' & bf'' & s'' & bs'' & ps'' & -> & Hq & Hinv')|(-> & Hfail & Hkept)].
    + left. exists tb'', bf'', s'', bs'', ps''.
      replace (pos + Z.of_nat (length (t :: Runs.runs LSH_TOK_DELIM rem)))
        with (pos + 1 + Z.of_nat (length (Runs.runs LSH_TOK_DELIM rem))) by (cbn [length]; lia).
      split; [reflexivity|]. split; [eapply quiet_trans; eassumption|].
      rewrite <- app_assoc in Hinv'. exact Hinv'.
    + right. split; [reflexivity|].
      split; [eapply quiet_alloc_failure; eassumption|exact Hkept].
Qed.

End Split.

Lemma malloc_eq n w :
  malloc n w
  = let w1 := log (CMalloc n) (set_alloc_count (S (alloc_count w)) w) in
    if alloc_ok w (alloc_count w) then
      let b := fresh (dom (heap w)) in
      (Returns (Some b),
       set_heap (<[b := Ptrs (replicate (Z.to_nat n) Uninit)]> (heap w)) w1)
    else (Returns None, w1).
Proof. reflexivity. Qed.

Lemma strtok_first_returns p delim w tok w' :
  strtok None delim (set_strtok_save (Some p) w) = (Returns tok, w') →
  strtok (Some p) delim w = (Returns tok, w').
Proof.
  unfold strtok. fields. destruct p as [b off].
  destruct (heap w !! b) as [[bs|]|]; try discriminate.
  destruct (CStr.strtok_buf bs off delim) as [[[tk bs'] save]|]; [|discriminate].
  intros H. exact H.
Qed.

(** [lsh_split_line] on a line that reads [str]: it returns the array of
    the runs of [str], or an allocation fails and the process exits with
    EXIT_FAILURE after the diagnostic. *)
Lemma lsh_split_line_spec w lb off bs str :
  heap w !! lb = Some (Chars bs) → CStr.cstr_at bs off = Some str →
  ∃ o w',
    lsh_split_line (lb, off) w = (o, w')
    ∧ ((∃ tb, o = Returns tb ∧ split_result w (lb, off) str tb w')
       ∨ (o = Stops (Exit EXIT_FAILURE) ∧ alloc_failure w w'
          ∧ ∃ bs', heap w' !! lb = Some (Chars bs'))).
Proof.
  intros Hline Hstr. unfold lsh_split_line. cbn zeta.
  destruct (alloc_ok w (alloc_count w)) eqn:Hok.
  2:{ eexists _, _. split.
      { erewrite bind_returns by (rewrite malloc_eq; cbn zeta; rewrite Hok; reflexivity).
        cbv beta iota. erewrite bind_returns by apply fprintf_stderr_eq. reflexivity. }
      right. split; [reflexivity|]. split; [|fields; eauto].
      unfold alloc_failure, alloc_fails. fields.
      split; [|split; [reflexivity|]].
      + split; [lia|]. split; [rewrite Nat.sub_1_r; exact Hok|]. intros k Hk. lia.
      + eexists _, _. split; [reflexivity|]. exact I. }
  set (tb := fresh (dom (heap w))).
  set (w1 := set_heap (<[tb := Ptrs (replicate (Z.to_nat LSH_TOK_BUFSIZE) Uninit)]> (heap w))
               (log (CMalloc LSH_TOK_BUFSIZE) (set_alloc_count (S (alloc_count w)) w))).
  assert (Hm : malloc LSH_TOK_BUFSIZE w = (Returns (Some tb), w1)).
  { rewrite malloc_eq. cbn zeta. rewrite Hok. reflexivity. }
  assert (Hf : heap w !! tb = None) by apply fresh_heap.
  assert (Hne : lb ≠ tb) by congruence.
  assert (Hq1 : quiet w w1).
  { unfold quiet, allocs_succeed, w1. fields. repeat split; auto.
    intros k Hk. assert (k = alloc_count w) as -> by lia. exact Hok. }
  set (w1' := set_strtok_save (Some (lb, off)) w1).
  assert (Hinv1 : split_inv (heap w) lb tb w1' LSH_TOK_BUFSIZE 0 off bs [] []).
  { split; [|unfold LSH_TOK_BUFSIZE; lia].
    exists (replicate (Z.to_nat LSH_TOK_BUFSIZE) Uninit). unfold w1', w1. fields.
    rewrite (insert_id (heap w) lb (Chars bs)) by exact Hline.
    repeat split; auto;
      try (rewrite ?length_replicate; unfold LSH_TOK_BUFSIZE; lia). }
  destruct (strtok_step _ _ _ _ _ _ _ _ _ _ _ Hinv1 Hstr)
    as (token & w2 & s2 & bs2 & Hstk & Hq2 & _ & Hinv2 & Htok2 & Hlen2).
  assert (Hq12 : quiet w1 w2).
  { eapply quiet_trans; [|exact Hq2]. unfold w1'. quiet_tac. }
  assert (Hfuel : block_size w2 (lb, off) = length bs).
  { unfold block_size. cbn [fst]. destruct Hinv2 as [Hpre2 _].
    rewrite (split_pre_lookup_line _ _ _ _ _ _ _ _ _ _ Hpre2). exact Hlen2. }
  destruct (split_loop_spec (heap w) lb (length bs) w2 LSH_TOK_BUFSIZE 0 tb token s2 bs2 [] []
              _ Hinv2 Htok2) as (o3 & w3 & Hloop & Hres).
  { pose proof (length_runs_le LSH_TOK_DELIM str). pose proof (CStrFacts.cstr_at_bound _ _ _ Hstr). lia. }
  destruct Hres as [(tb' & bf' & s' & bs' & ps' & -> & Hq3 & Hinv3)|(-> & Hfail & Hkept)].
  2:{ eexists _, _. split.
      { erewrite bind_returns by exact Hm. cbv beta iota.
        erewrite bind_returns by (apply strtok_first_returns; exact Hstk).
        erewrite bind_returns by reflexivity. rewrite Hfuel.
        erewrite bind_stops by exact Hloop. reflexivity. }
      right. split; [reflexivity|]. split; [|exact Hkept].
      eapply quiet_alloc_failure; [|exact Hfail].
      eapply quiet_trans; eassumption. }
  destruct Hinv3 as [(sl & Hh & Hn & Hne3 & Hsv & Hlen & Hpos & Hle & Htk & Hstr3) Hlt].
  cbn [app] in Hstr3, Hpos.
  eexists _, _. split.
  { erewrite bind_returns by exact Hm. cbv beta iota.
    erewrite bind_returns by (apply strtok_first_returns; exact Hstk).
    erewrite bind_returns by reflexivity. rewrite Hfuel.
    erewrite bind_returns by exact Hloop. cbn [fst snd].
    erewrite bind_returns.
    2:{ apply store_slot_eq with (ps := sl); [rewrite Hh; apply lookup_insert_eq|lia]. }
    reflexivity. }
  left. exists tb'. split; [reflexivity|].
  exists (<[Z.to_nat (0 + Z.of_nat (length (Runs.runs LSH_TOK_DELIM str))) := Null]> sl), bs', ps'.
  fields. cbn [fst].
  assert (Hn' : Z.to_nat (0 + Z.of_nat (length (Runs.runs LSH_TOK_DELIM str))) = length ps') by lia.
  rewrite Hn'.
  split; [rewrite Hh; apply insert_insert_eq|].
  split; [exact Hn|]. split; [congruence|].
  split; [rewrite take_insert_ge by lia; exact Htk|].
  split; [apply list_lookup_insert_eq; lia|].
  split; [rewrite length_insert; unfold LSH_TOK_BUFSIZE in *; lia|].
  split.
  { eapply Forall2_impl; [exact Hstr3|]. cbv beta. intros q u [Hq _]. exact Hq. }
  eapply quiet_trans; [eapply quiet_trans; [eapply quiet_trans|]|]; try eassumption.
  quiet_tac.
Qed.

End SplitFacts.

(** ** The loop *)

Module LoopFacts.
Import Libc Shell Run LibcFacts Inv LaunchFacts Builtins DispatchFacts SplitFacts.

Lemma strings_until_null_inv w sl toks :
  strings_until_null w sl = Some toks →
  match toks with
  | [] => ∃ sl', sl = Null :: sl'
  | t :: toks' => ∃ p sl', sl = Ptr p :: sl' ∧ string_at w p = Some t
                           ∧ strings_until_null w sl' = Some toks'
  end.
Proof.
  destruct sl as [|[| |p] sl]; cbn; try discriminate.
  - intros [= <-]. eauto.
  - destruct (string_at w p) as [s|] eqn:E1; [|discriminate]. cbn.
    destruct (strings_until_null w sl) as [l|] eqn:E2; [|discriminate]. cbn.
    intros [= <-]. eauto.
Qed.

(** [lsh_cd] on a command read by the tokenizer always returns. *)
Lemma lsh_cd_total args w s toks :
  tokens_of w args = Some (s :: toks) →
  ∃ w', lsh_cd args w = (Returns CONTINUE, w').
Proof.
  intros Ht. apply tokens_of_cons in Ht as (p & sl & Ha & _ & Hsl).
  apply strings_until_null_inv in Hsl. destruct toks as [|t toks].
  - destruct Hsl as (sl' & ->). eexists.
    eapply lsh_cd_no_argument; [eassumption|reflexivity].
  - destruct Hsl as (p1 & sl' & -> & Hp1 & _).
    destruct (decide (t ∈ dirs w)).
    + eexists. eapply lsh_cd_chdir_succeeds; [eassumption|reflexivity|eassumption|assumption].
    + eexists. eapply lsh_cd_chdir_fails; [eassumption|reflexivity|eassumption|assumption].
Qed.

(** A dispatch on a command read by the tokenizer ends in one of the ways
    of [dispatch_end]: it never goes wrong. *)
Lemma lsh_execute_total args w toks :
  tokens_of w args = Some toks →
  ∃ o w', lsh_execute args w = (o, w') ∧ dispatch_end toks w o w'.
Proof.
  intros Ht. destruct toks as [|s toks].
  - apply tokens_of_nil in Ht as (sl & Ha).
    eexists _, _. split; [eapply lsh_execute_empty; eassumption|left; reflexivity].
  - rewrite (lsh_execute_dispatch _ _ _ (tokens_of_first _ _ _ _ Ht)).
    destruct (decide (s = CStr.lit "cd")).
    { destruct (lsh_cd_total _ _ _ _ Ht) as (w' & ->). eexists _, _. split; [reflexivity|left; reflexivity]. }
    destruct (decide (s = CStr.lit "help")).
    { rewrite (lsh_help_eq args w).
      eexists _, _. split; [reflexivity|left; reflexivity]. }
    destruct (decide (s = CStr.lit "exit")) as [->|].
    { eexists _, _. split; [reflexivity|]. right. left. split; reflexivity. }
    apply lsh_launch_total. exact Ht.
Qed.

(** *** The line and its tokens *)

Lemma cstr_until_nul bs : CStr.cstr (bs ++ [CStr.NUL]) = Some (until_nul bs).
Proof.
  induction bs as [|c bs IH]; cbn.
  - rewrite bool_decide_eq_true_2; reflexivity.
  - case_bool_decide; [reflexivity|]. now rewrite IH.
Qed.

Lemma strings_until_null_ptrs w lb bs' ps toks junk :
  heap w !! lb = Some (Chars bs') →
  Forall2 (fun p t => CStr.cstr_at bs' p = Some t) ps toks →
  strings_until_null w (map (fun p => Ptr (lb, p)) ps ++ Null :: junk) = Some toks.
Proof.
  intros Hl. induction 1 as [|p t ps toks Hp _ IH]; cbn; [reflexivity|].
  unfold string_at at 1. cbn [fst snd]. rewrite Hl, Hp. cbn. rewrite IH. reflexivity.
Qed.

(** What a caller finds in the array [lsh_split_line] returned. *)
Lemma split_result_array w line str tb w' :
  split_result w line str tb w' →
  ∃ sl bs' ps junk,
    heap w' !! tb = Some (Ptrs sl) ∧ heap w' !! line.1 = Some (Chars bs')
    ∧ sl = map (fun p => Ptr (line.1, p)) ps ++ Null :: junk
    ∧ (length sl ≤ length ps + Z.to_nat LSH_TOK_BUFSIZE)%nat
    ∧ Forall2 (fun p t => CStr.cstr_at bs' p = Some t) ps (Runs.runs LSH_TOK_DELIM str).
Proof.
  intros (sl & bs' & ps & Hh & Hn & Hne & Htk & Hnull & Hcap & Hstr & Hq).
  exists sl, bs', ps, (drop (S (length ps)) sl).
  split; [rewrite Hh; apply lookup_insert_eq|].
  split; [rewrite Hh, lookup_insert_ne by congruence; apply lookup_insert_eq|].
  split; [|split; [exact Hcap|exact Hstr]].
  rewrite <- Htk. rewrite <- (drop_S _ _ _ Hnull). symmetry. apply take_drop.
Qed.

Lemma split_result_tokens w line str tb w' :
  split_result w line str tb w' →
  tokens_of w' tb = Some (Runs.runs LSH_TOK_DELIM str).
Proof.
  intros H. apply split_result_array in H as (sl & bs' & ps & junk & Htb & Hl & -> & _ & Hstr).
  unfold tokens_of, argv_strings. rewrite Htb.
  eapply strings_until_null_ptrs; eassumption.
Qed.

(** *** Reading a line *)

Lemma lsh_read_line_eq w :
  lsh_read_line w =
    match stdin w with
    | GetlineOk bs :: rest =>
        let b := fresh (dom (heap w)) in
        (Returns (b, 0%nat),
         log CGetline (set_heap (<[b := Chars (bs ++ [CStr.NUL])]> (heap w)) (set_stdin rest w)))
    | GetlineFail eof err :: rest =>
        let w1 := log CGetline
                    (set_heap (<[fresh (dom (heap w)) := Chars getline_buffer]> (heap w))
                       (set_errno err
                          (set_stdin_eof (stdin_eof w || eof) (set_stdin rest w)))) in
        if stdin_eof w || eof then (Stops (Exit EXIT_SUCCESS), w1)
        else (Stops (Exit EXIT_FAILURE),
              set_stderr (stderr w ++ perror_text readline_prefix w1) w1)
    | GetlineNoMem err :: rest =>
        let w1 := log CGetline (set_errno err (set_stdin rest w)) in
        if stdin_eof w then (Stops (Exit EXIT_SUCCESS), w1)
        else (Stops (Exit EXIT_FAILURE),
              set_stderr (stderr w ++ perror_text readline_prefix w1) w1)
    | [] =>
        (Stops (Exit EXIT_SUCCESS),
         log CGetline
           (set_heap (<[fresh (dom (heap w)) := Chars getline_buffer]> (heap w))
              (set_stdin_eof true w)))
    end.
Proof.
  unfold lsh_read_line, mbind, M_bind, bind, getline.
  destruct (stdin w) as [|[bs|eof err|err] rest]; try reflexivity.
  - cbn zeta. unfold feof_stdin, get. fields.
    destruct (stdin_eof w || eof); reflexivity.
  - unfold feof_stdin, get. fields. destruct (stdin_eof w); reflexivity.
Qed.

Lemma free_eq b w x :
  heap w !! b = Some x →
  free b w = (Returns tt, log (CFree b) (set_heap (delete b (heap w)) w)).
Proof. intros H. unfold free. now rewrite H. Qed.

(** *** What the tokenizer leaves untouched *)

Ltac mblind Hb :=
  let B1 := fresh in let B2 := fresh in let B3 := fresh in let B4 := fresh in
  let B5 := fresh in
  pose proof Hb as (B1 & B2 & B3 & B4 & B5);
  unfold log;
  repeat first [rewrite B1|rewrite B2|rewrite B3|rewrite B4|rewrite B5];
  reflexivity.

Section MemBlind.
Context {A : Type} (f : world → A) (Hb : mem_blind f).

Lemma mem_preserves_store_slot a i v : preserves f (store_slot a i v).
Proof. intros w o w' H. unfold store_slot in H. prim_cases H; try reflexivity; mblind Hb. Qed.

Lemma mem_preserves_malloc n : preserves f (malloc n).
Proof. intros w o w' H. unfold malloc in H. prim_cases H; mblind Hb. Qed.

Lemma mem_preserves_realloc a n : preserves f (realloc a n).
Proof. intros w o w' H. unfold realloc in H. prim_cases H; try reflexivity; mblind Hb. Qed.

Lemma mem_preserves_free b : preserves f (free b).
Proof. intros w o w' H. unfold free in H. prim_cases H; try reflexivity; mblind Hb. Qed.

Lemma mem_preserves_strtok s delim : preserves f (strtok s delim).
Proof. intros w o w' H. unfold strtok in H. prim_cases H; try reflexivity; mblind Hb. Qed.

Lemma mem_preserves_alloc_error {B} :
  preserves f (fprintf_stderr allocation_error ≫= (fun _ => @exit B EXIT_FAILURE)).
Proof.
  apply preserves_bind; [|intros; apply preserves_halt].
  apply preserves_modify. intros w. mblind Hb.
Qed.

Lemma mem_preserves_split_loop : ∀ fuel buffsize pos tokens token,
  preserves f (split_loop fuel buffsize pos tokens token).
Proof.
  induction fuel as [|fuel IH]; intros buffsize pos tokens [t|]; cbn [split_loop];
    try apply preserves_ret; try apply preserves_halt.
  apply preserves_bind; [apply mem_preserves_store_slot|intros _].
  apply preserves_bind.
  - destruct (pos + 1 >=? buffsize); [|apply preserves_ret].
    apply preserves_bind; [apply mem_preserves_realloc|intros [tk|]];
      [apply preserves_ret|apply mem_preserves_alloc_error].
  - intros bt. apply preserves_bind; [apply mem_preserves_strtok|intros token]. apply IH.
Qed.

Lemma mem_preserves_lsh_split_line line : preserves f (lsh_split_line line).
Proof.
  unfold lsh_split_line. cbn zeta.
  apply preserves_bind; [apply mem_preserves_malloc|intros [tk|]];
    [|apply mem_preserves_alloc_error].
  apply preserves_bind; [apply mem_preserves_strtok|intros token].
  apply preserves_bind; [apply preserves_get|intros fuel].
  apply preserves_bind; [apply mem_preserves_split_loop|intros pt].
  apply preserves_bind; [apply mem_preserves_store_slot|intros _]. apply preserves_ret.
Qed.

End MemBlind.

Lemma mem_blind_stdin : mem_blind stdin.
Proof. repeat split. Qed.

(** *** One turn of the loop *)

Lemma iteration_unfold w bs rest :
  stdin w = GetlineOk bs :: rest →
  lsh_iteration w
  = (args ← lsh_split_line (fresh (dom (heap w)), 0%nat);
     status ← lsh_execute args;
     free args;;
     free_chars (fresh (dom (heap w)), 0%nat);;
     ret status) (after_getline bs rest w).
Proof.
  intros Hin. unfold lsh_iteration.
  erewrite bind_returns by apply printf_eq.
  erewrite bind_returns; [reflexivity|].
  rewrite lsh_read_line_eq. fields. rewrite Hin. reflexivity.
Qed.

Lemma lsh_iteration_line w bs rest :
  stdin w = GetlineOk bs :: rest →
  ∃ o w', lsh_iteration w = (o, w') ∧ iteration_end w bs o w' ∧ stdin w' = rest.
Proof.
  intros Hin. rewrite (iteration_unfold _ _ _ Hin).
  set (b := fresh (dom (heap w))). set (w1 := after_getline bs rest w).
  assert (Hb : heap w !! b = None) by apply fresh_heap.
  assert (Hline : heap w1 !! b = Some (Chars (bs ++ [CStr.NUL]))) by apply lookup_insert_eq.
  assert (Hstr : CStr.cstr_at (bs ++ [CStr.NUL]) 0 = Some (until_nul bs)) by apply cstr_until_nul.
  destruct (lsh_split_line_spec w1 b 0%nat _ _ Hline Hstr)
    as (o2 & w2 & Hsplit & [(tb & -> & Hres)|(-> & Hfail & bs' & Hkept)]).
  2:{ (* an allocation failed *)
      exists (Stops (Exit EXIT_FAILURE)), w2. split; [erewrite bind_stops by exact Hsplit; reflexivity|].
      split; [left; split; [reflexivity|split; [exact Hfail|eauto]]|].
      pose proof (mem_preserves_lsh_split_line (fun w => stdin w) mem_blind_stdin _ _ _ _ Hsplit) as Hin2.
      cbv beta in Hin2. rewrite Hin2. reflexivity. }
  pose proof (split_result_tokens _ _ _ _ _ Hres) as Htoks.
  pose proof (mem_preserves_lsh_split_line (fun w => stdin w) mem_blind_stdin _ _ _ _ Hsplit) as Hin2.
  cbv beta in Hin2.
  destruct Hres as (sl & bs' & ps & Hh2 & Hn & Hne & _ & _ & _ & _ & (Hsucc & Hok2 & Herr2)).
  cbn [fst] in Hh2, Hne.
  destruct (lsh_execute_total _ _ _ Htoks) as (o3 & w3 & Hexec & Hend).
  pose proof (preserves_lsh_execute (fun w => heap w) os_blind_heap _ _ _ _ Hexec) as Hh3.
  pose proof (preserves_lsh_execute (fun w => stdin w) os_blind_stdin _ _ _ _ Hexec) as Hin3.
  pose proof (preserves_lsh_execute (fun w => alloc_count w) os_blind_alloc_count _ _ _ _ Hexec) as Hc3.
  cbv beta in Hh3, Hin3, Hc3.
  assert (Hsucc3 : allocs_succeed w w3).
  { destruct Hsucc as [Hle Hall]. split; [rewrite Hc3; exact Hle|].
    intros k Hk. rewrite Hc3 in Hk. apply (Hall k Hk). }
  destruct o3 as [st|s].
  2:{ (* the dispatch does not return *)
      exists (Stops s), w3. split.
      { erewrite bind_returns by exact Hsplit. erewrite bind_stops by exact Hexec. reflexivity. }
      split; [|rewrite Hin3, Hin2; reflexivity].
      right. split; [exact Hsucc3|].
      destruct Hend as [H|[[H _]|[(-> & Hcalls & text & Htext)|[(f & a & ->)| ->]]]];
        try discriminate.
      - right. left. split; [reflexivity|]. split; [exact Hcalls|].
        exists text. rewrite Htext, Herr2. reflexivity.
      - right. right. left. eauto.
      - right. right. right. reflexivity. }
  (* the dispatch returns: both buffers are freed *)
  assert (Htb3 : heap w3 !! tb = Some (Ptrs sl)) by (rewrite Hh3, Hh2; apply lookup_insert_eq).
  eexists _, _. split.
  { erewrite bind_returns by exact Hsplit. erewrite bind_returns by exact Hexec.
    erewrite bind_returns by (eapply free_eq; exact Htb3).
    erewrite bind_returns.
    2:{ unfold free_chars. cbn [snd fst]. rewrite bool_decide_eq_true_2 by reflexivity.
        eapply (free_eq _ _ (Chars bs')). fields.
        rewrite lookup_delete_ne by congruence.
        rewrite Hh3, Hh2. rewrite lookup_insert_ne by congruence. apply lookup_insert_eq. }
    reflexivity. }
  fields. split; [|rewrite Hin3, Hin2; reflexivity].
  right. split; [exact Hsucc3|]. left. exists st. split; [reflexivity|].
  split.
  { destruct Hend as [H|[[H Hhead]|[(H & _)|[(f & a & H)|H]]]]; try discriminate.
    - left. congruence.
    - right. split; [congruence|exact Hhead]. }
  assert (Hn' : heap w !! tb = None).
  { unfold w1, after_getline in Hn. fields_in Hn. fold b in Hn.
    rewrite lookup_insert_ne in Hn by congruence. exact Hn. }
  rewrite Hh3, Hh2. unfold w1, after_getline. fields. fold b.
  apply map_eq. intros i.
  destruct (decide (i = b)) as [->|Hib]; [rewrite lookup_delete_eq, Hb; reflexivity|].
  rewrite lookup_delete_ne by congruence.
  destruct (decide (i = tb)) as [->|Hitb]; [rewrite lookup_delete_eq, Hn'; reflexivity|].
  rewrite lookup_delete_ne by congruence.
  rewrite !lookup_insert_ne by congruence. reflexivity.
Qed.

Lemma lsh_iteration_eof w :
  next_read w = ReadEOF →
  ∃ w', lsh_iteration w = (Stops (Exit EXIT_SUCCESS), w')
        ∧ stderr w' = stderr w ∧ calls w' = calls w ++ [CGetline]
        ∧ stdin_eof w' = true ∧ stdin w' = tail (stdin w)
        ∧ alloc_count w' = alloc_count w.
Proof.
  unfold next_read. intros Hn. unfold lsh_iteration.
  erewrite bind_returns by apply printf_eq.
  destruct (stdin w) as [|[bs|eof err|err] rest] eqn:Hin; [|discriminate| |].
  - eexists. split.
    { erewrite bind_stops; [reflexivity|]. rewrite lsh_read_line_eq. fields.
      rewrite Hin. reflexivity. }
    fields. rewrite ?Hin. repeat split; reflexivity.
  - destruct (stdin_eof w || eof) eqn:E; [|discriminate].
    eexists. split.
    { erewrite bind_stops; [reflexivity|]. rewrite lsh_read_line_eq. fields.
      rewrite Hin, E. reflexivity. }
    fields. repeat split; auto.
  - destruct (stdin_eof w) eqn:E; [|discriminate].
    eexists. split.
    { erewrite bind_stops; [reflexivity|]. rewrite lsh_read_line_eq. fields.
      rewrite Hin, E. reflexivity. }
    fields. repeat split; auto.
Qed.

Lemma lsh_iteration_error w err :
  next_read w = ReadError err →
  ∃ w', lsh_iteration w = (Stops (Exit EXIT_FAILURE), w')
        ∧ stderr w' = stderr w ++ readline_prefix ++ CStr.lit ": "
                      ++ strerror w err ++ newline
        ∧ calls w' = calls w ++ [CGetline]
        ∧ stdin_eof w' = false ∧ stdin w' = tail (stdin w)
        ∧ alloc_count w' = alloc_count w.
Proof.
  unfold next_read. intros Hn. unfold lsh_iteration.
  erewrite bind_returns by apply printf_eq.
  destruct (stdin w) as [|[bs|eof e|e] rest] eqn:Hin; try discriminate.
  - destruct (stdin_eof w || eof) eqn:E; [discriminate|]. injection Hn as ->.
    eexists. split.
    { erewrite bind_stops; [reflexivity|]. rewrite lsh_read_line_eq. fields.
      rewrite Hin, E. reflexivity. }
    fields. unfold perror_text. fields. repeat split; auto.
  - destruct (stdin_eof w) eqn:E; [discriminate|]. injection Hn as ->.
    eexists. split.
    { erewrite bind_stops; [reflexivity|]. rewrite lsh_read_line_eq. fields.
      rewrite Hin, E. reflexivity. }
    fields. unfold perror_text. fields. repeat split; auto.
Qed.

(** A turn that returns has read a line. *)
Lemma iteration_returns_inv w st w' :
  lsh_iteration w = (Returns st, w') →
  ∃ bs, stdin w = GetlineOk bs :: stdin w' ∧ iteration_end w bs (Returns st) w'.
Proof.
  intros H. destruct (next_read w) as [bs| |err] eqn:En.
  - unfold next_read in En. destruct (stdin w) as [|[bs0|eof e|e] rest] eqn:Hin; try discriminate.
    + injection En as ->.
      destruct (lsh_iteration_line _ _ _ Hin) as (o & w2 & Hit & Hend & Hrest).
      rewrite H in Hit. injection Hit as <- <-. exists bs. rewrite Hrest. auto.
    + destruct (stdin_eof w || eof); discriminate.
    + destruct (stdin_eof w); discriminate.
  - destruct (lsh_iteration_eof _ En) as (w2 & Hit & _). congruence.
  - destruct (lsh_iteration_error _ _ En) as (w2 & Hit & _). congruence.
Qed.

(** *** The loop *)

Lemma loop_n_step n w :
  loop_n (S n) w
  = match lsh_iteration w with
    | (Returns st, w1) => if bool_decide (st ≠ 0) then loop_n n w1 else (Returns tt, w1)
    | (Stops s, w1) => (Stops s, w1)
    end.
Proof.
  cbn [loop_n]. unfold mbind, M_bind, bind.
  destruct (lsh_iteration w) as [[st|s] w1]; [|reflexivity].
  case_bool_decide; reflexivity.
Qed.

(** More turns than there are lines to read are never used. *)
Lemma loop_n_enough : ∀ n m w,
  (length (stdin w) < n)%nat → (length (stdin w) < m)%nat → loop_n n w = loop_n m w.
Proof.
  induction n as [|n IH]; intros m w Hn Hm; [lia|].
  destruct m as [|m]; [lia|]. rewrite !loop_n_step.
  destruct (lsh_iteration w) as [[st|s] w1] eqn:Hit; [|reflexivity].
  case_bool_decide; [|reflexivity].
  apply iteration_returns_inv in Hit as (bs & Hin & _).
  rewrite Hin in Hn, Hm. cbn [length] in Hn, Hm. apply IH; lia.
Qed.

Lemma lsh_loop_eq w :
  lsh_loop w
  = match lsh_iteration w with
    | (Returns st, w1) => if bool_decide (st ≠ 0) then lsh_loop w1 else (Returns tt, w1)
    | (Stops s, w1) => (Stops s, w1)
    end.
Proof.
  unfold lsh_loop at 1. erewrite bind_returns by reflexivity. rewrite loop_n_step.
  destruct (lsh_iteration w) as [[st|s] w1] eqn:Hit; [|reflexivity].
  case_bool_decide; [|reflexivity].
  apply iteration_returns_inv in Hit as (bs & Hin & _).
  unfold lsh_loop. erewrite bind_returns by reflexivity.
  apply loop_n_enough; rewrite ?Hin; cbn [length]; lia.
Qed.

Lemma main_eq w :
  main w
  = match lsh_iteration w with
    | (Returns st, w1) => if bool_decide (st ≠ 0) then main w1 else (Returns EXIT_SUCCESS, w1)
    | (Stops s, w1) => (Stops s, w1)
    end.
Proof.
  unfold main. unfold mbind at 1, M_bind at 1, bind at 1. rewrite lsh_loop_eq.
  destruct (lsh_iteration w) as [[st|s] w1]; [|reflexivity].
  case_bool_decide; reflexivity.
Qed.

(** The process ends as the turn it has come to makes it end. *)
Lemma main_reaches w0 w : reaches w0 w → main w0 = main w.
Proof.
  induction 1 as [w|w w1 w2 st Hit Hst _ IH]; [reflexivity|].
  rewrite main_eq, Hit. rewrite bool_decide_eq_true_2 by exact Hst. exact IH.
Qed.

Lemma reaches_trans w0 w1 w2 : reaches w0 w1 → reaches w1 w2 → reaches w0 w2.
Proof. induction 1; eauto using reaches. Qed.


End LoopFacts.

(** ** The calls of [free] *)

Module FreeFacts.
Import Libc Shell Run LibcFacts Inv LaunchFacts Builtins DispatchFacts SplitFacts LoopFacts.

(** Close a goal [frees w' = frees w] where [w'] is [w] updated. *)
Ltac frees_tac :=
  unfold frees, log; fields; rewrite ?List.filter_app; cbn [List.filter is_free];
  rewrite ?app_nil_r; reflexivity.

Lemma nofree_load_slot a i : preserves (fun w => frees w) (load_slot a i).
Proof. intros w o w' H. unfold load_slot in H. prim_cases H; reflexivity. Qed.

Lemma nofree_load_string p : preserves (fun w => frees w) (load_string p).
Proof. intros w o w' H. unfold load_string in H. prim_cases H; reflexivity. Qed.

Lemma nofree_printf s : preserves (fun w => frees w) (printf s).
Proof. apply preserves_modify. reflexivity. Qed.

Lemma nofree_stderr s : preserves (fun w => frees w) (fprintf_stderr s).
Proof. apply preserves_modify. reflexivity. Qed.

Lemma nofree_perror s : preserves (fun w => frees w) (perror s).
Proof. apply preserves_modify. reflexivity. Qed.

Lemma nofree_chdir p : preserves (fun w => frees w) (chdir p).
Proof.
  unfold chdir. apply preserves_bind; [apply nofree_load_string|intros path].
  apply preserves_bind; [apply preserves_modify; intros w; frees_tac|intros _].
  intros w o w' H. prim_cases H; reflexivity.
Qed.

Lemma nofree_fork : preserves (fun w => frees w) fork.
Proof.
  unfold fork. apply preserves_bind; [apply preserves_modify; intros w; frees_tac|intros _].
  intros w o w' H. prim_cases H; reflexivity.
Qed.

Lemma nofree_execvp file argv : preserves (fun w => frees w) (execvp file argv).
Proof. intros w o w' H. unfold execvp in H. prim_cases H; try reflexivity; frees_tac. Qed.

Lemma nofree_waitpid pid : preserves (fun w => frees w) (waitpid pid).
Proof.
  unfold waitpid. apply preserves_bind; [apply preserves_modify; intros w; frees_tac|intros _].
  intros w o w' H. prim_cases H; reflexivity.
Qed.

Lemma nofree_wait_loop pid : ∀ fuel status,
  preserves (fun w => frees w) (wait_loop fuel pid status).
Proof.
  induction fuel as [|fuel IH]; intros status; cbn [wait_loop].
  - apply preserves_halt.
  - apply preserves_bind; [apply nofree_waitpid|intros [s|]].
    + destruct (negb (WIFEXITED s) && negb (WIFSIGNALED s)); [apply IH|apply preserves_ret].
    + destruct status as [s|]; [|apply preserves_halt].
      destruct (negb (WIFEXITED s) && negb (WIFSIGNALED s)); [apply preserves_halt|apply preserves_ret].
Qed.

Lemma nofree_lsh_launch args : preserves (fun w => frees w) (lsh_launch args).
Proof.
  unfold lsh_launch. apply preserves_bind; [apply nofree_fork|intros pid].
  apply preserves_bind; [|intros; apply preserves_ret].
  case_bool_decide.
  - apply preserves_bind; [apply nofree_load_slot|intros a0].
    apply preserves_bind; [apply nofree_execvp|intros r].
    case_bool_decide; [|apply preserves_ret].
    apply preserves_bind; [apply nofree_perror|intros; apply preserves_halt].
  - case_bool_decide; [apply nofree_perror|].
    apply preserves_bind; [apply preserves_get|intros fuel]. apply nofree_wait_loop.
Qed.

Lemma nofree_lsh_cd args : preserves (fun w => frees w) (lsh_cd args).
Proof.
  unfold lsh_cd. apply preserves_bind; [apply nofree_load_slot|intros [p|]].
  - apply preserves_bind; [|intros; apply preserves_ret].
    apply preserves_bind; [apply nofree_chdir|intros r].
    case_bool_decide; [apply nofree_perror|apply preserves_ret].
  - apply preserves_bind; [apply nofree_stderr|intros; apply preserves_ret].
Qed.

Lemma nofree_lsh_help args : preserves (fun w => frees w) (lsh_help args).
Proof. intros w o w' H. rewrite (lsh_help_eq args w) in H. inversion H; subst. reflexivity. Qed.

Lemma nofree_try_builtin args i k :
  preserves (fun w => frees w) k → preserves (fun w => frees w) (try_builtin args i k).
Proof.
  intros Hk. unfold try_builtin.
  apply preserves_bind; [apply nofree_load_slot|intros [p|]]; [|apply preserves_halt].
  destruct (builtin_str !! i) as [name|] eqn:En; [|apply preserves_halt].
  destruct (builtin_func !! i) as [h|] eqn:Ef; [|apply preserves_halt].
  apply preserves_bind; [apply nofree_load_string|intros s].
  case_bool_decide; [|exact Hk].
  assert (Hin : h ∈ builtin_func) by (eapply list_elem_of_lookup_2; eassumption).
  unfold builtin_func in Hin.
  repeat (apply elem_of_cons in Hin as [->|Hin]); [| | |inversion Hin].
  - apply nofree_lsh_cd.
  - apply nofree_lsh_help.
  - apply preserves_ret.
Qed.

(** The dispatcher never calls [free]. *)
Lemma nofree_lsh_execute args : preserves (fun w => frees w) (lsh_execute args).
Proof.
  unfold lsh_execute.
  apply preserves_bind; [apply nofree_load_slot|intros [p|]]; [|apply preserves_ret].
  change (seq 0 (Z.to_nat lsh_num_builtins)) with [0; 1; 2]%nat. cbn [foldr].
  repeat apply nofree_try_builtin. apply nofree_lsh_launch.
Qed.

Lemma nofree_store_slot a i v : preserves (fun w => frees w) (store_slot a i v).
Proof. intros w o w' H. unfold store_slot in H. prim_cases H; reflexivity. Qed.

Lemma nofree_malloc n : preserves (fun w => frees w) (malloc n).
Proof. intros w o w' H. unfold malloc in H. prim_cases H; frees_tac. Qed.

Lemma nofree_realloc a n : preserves (fun w => frees w) (realloc a n).
Proof. intros w o w' H. unfold realloc in H. prim_cases H; try reflexivity; frees_tac. Qed.

Lemma nofree_strtok s delim : preserves (fun w => frees w) (strtok s delim).
Proof. intros w o w' H. unfold strtok in H. prim_cases H; reflexivity. Qed.

Lemma nofree_alloc_error {B} :
  preserves (fun w => frees w)
    (fprintf_stderr allocation_error ≫= (fun _ => @exit B EXIT_FAILURE)).
Proof. apply preserves_bind; [apply nofree_stderr|intros; apply preserves_halt]. Qed.

Lemma nofree_split_loop : ∀ fuel buffsize pos tokens token,
  preserves (fun w => frees w) (split_loop fuel buffsize pos tokens token).
Proof.
  induction fuel as [|fuel IH]; intros buffsize pos tokens token; cbn [split_loop].
  - destruct token; [apply preserves_halt|apply preserves_ret].
  - destruct token as [t|]; [|apply preserves_ret].
    apply preserves_bind; [apply nofree_store_slot|intros _].
    apply preserves_bind.
    + destruct (pos + 1 >=? buffsize); [|apply preserves_ret]. cbn zeta.
      apply preserves_bind; [apply nofree_realloc|intros [t'|]];
        [apply preserves_ret|apply nofree_alloc_error].
    + intros bt. apply preserves_bind; [apply nofree_strtok|intros token']. apply IH.
Qed.

(** The tokenizer never calls [free]. *)
Lemma nofree_lsh_split_line line : preserves (fun w => frees w) (lsh_split_line line).
Proof.
  unfold lsh_split_line. cbn zeta.
  apply preserves_bind; [apply nofree_malloc|intros [tb|]]; [|apply nofree_alloc_error].
  apply preserves_bind; [apply nofree_strtok|intros token].
  apply preserves_bind; [apply preserves_get|intros fuel].
  apply preserves_bind; [apply nofree_split_loop|intros pt].
  apply preserves_bind; [apply nofree_store_slot|intros; apply preserves_ret].
Qed.

(** Neither does [lsh_read_line]. *)
Lemma nofree_lsh_read_line : preserves (fun w => frees w) lsh_read_line.
Proof. intros w o w' H. rewrite lsh_read_line_eq in H. prim_cases H; frees_tac. Qed.

End FreeFacts.

(** ** The heap when the tokenizer does not return *)

Module StopFacts.
Import Libc Shell Run LibcFacts Inv LaunchFacts Builtins DispatchFacts SplitFacts LoopFacts.

(** The [if (pos >= buffsize)] block, when it does not return: the heap is
    as it was, the old array still there. *)
Lemma grow_stops tb buffsize pos w s w1 :
  (if pos >=? buffsize then
     let buffsize := buffsize + LSH_TOK_BUFSIZE in
     r ← realloc tb buffsize;
     match r with
     | None => fprintf_stderr allocation_error;; exit EXIT_FAILURE
     | Some tokens => ret (buffsize, tokens)
     end
   else ret (buffsize, tb)) w = (Stops s, w1) →
  heap w1 = heap w.
Proof.
  destruct (pos >=? buffsize); intros H; [|discriminate].
  cbn zeta in H.
  apply bind_inv in H as [(r & w2 & Hr & H)|(s' & Hr & _)].
  - destruct r as [t|]; [discriminate|].
    erewrite bind_returns in H by apply fprintf_stderr_eq. inversion H; subst.
    unfold realloc in Hr. prim_cases Hr; reflexivity.
  - unfold realloc in Hr. prim_cases Hr; reflexivity.
Qed.

Section Split.
Variables (h0 : gmap nat block) (lb : nat).

(** The loop, when it does not return: the line and the array are both
    still allocated, and nothing else has changed. *)
Lemma split_loop_stops fuel : ∀ w buffsize pos tb token s bs ps done pending st w',
  split_inv h0 lb tb w buffsize pos s bs ps done →
  token_ok lb bs s token pending →
  (length pending ≤ fuel)%nat →
  split_loop fuel buffsize pos tb token w = (Stops st, w') →
  ∃ tb' sl bs',
    heap w' = <[tb' := Ptrs sl]> (<[lb := Chars bs']> h0)
    ∧ h0 !! tb' = None ∧ lb ≠ tb'.
Proof.
  induction fuel as [|fuel IH];
    intros w buffsize pos tb token s bs ps done pending st w' Hinv Htok Hfuel Hrun.
  - destruct pending; [|cbn in Hfuel; lia].
    destruct token as [[b p]|]; [destruct Htok as (_ & t & rem & _ & _ & _ & ?); done|].
    discriminate Hrun.
  - destruct token as [[b p]|]; [|discriminate Hrun].
    destruct Htok as (-> & t & rem & Ht & Hts & Hrem & ->).
    cbn [length] in Hfuel.
    destruct (store_token _ _ _ _ _ _ _ _ _ _ _ _ Hinv Ht Hts) as (w1 & Hst & Hq1 & Hc1 & Hpre).
    cbn [split_loop] in Hrun. erewrite bind_returns in Hrun by exact Hst.
    destruct (grow_tokens _ _ _ _ _ _ _ _ _ _ Hpre)
      as (o2 & w2 & Hgrow & [(bf' & tb1 & -> & Hq2 & Hinv2)|(-> & Hfail & Hkept)]).
    2:{ erewrite bind_stops in Hrun by exact Hgrow. injection Hrun as <- <-.
        destruct Hpre as (sl & Hh & Hn & Hne & _).
        exists tb, sl, bs. rewrite (grow_stops _ _ _ _ _ _ Hgrow). auto. }
    erewrite bind_returns in Hrun by exact Hgrow. cbn [fst snd] in Hrun.
    destruct (strtok_step _ _ _ _ _ _ _ _ _ _ _ Hinv2 Hrem)
      as (token' & w3 & s' & bs' & Hstk & Hq3 & Hc3 & Hinv3 & Htok3 & Hlen3).
    erewrite bind_returns in Hrun by exact Hstk.
    exact (IH w3 bf' (pos + 1) tb1 token' s' bs' (ps ++ [p]) (done ++ [t]) _ st w'
             Hinv3 Htok3 ltac:(lia) Hrun).
Qed.

End Split.

(** [lsh_split_line] when it does not return: if the first allocation
    failed the heap is as it was; otherwise the line and the array are
    both still allocated. *)
Lemma lsh_split_line_stops w lb off bs str st w' :
  heap w !! lb = Some (Chars bs) → CStr.cstr_at bs off = Some str →
  lsh_split_line (lb, off) w = (Stops st, w') →
  (alloc_ok w (alloc_count w) = false ∧ heap w' = heap w)
  ∨ (alloc_ok w (alloc_count w) = true
     ∧ ∃ tb sl bs',
         heap w' = <[tb := Ptrs sl]> (<[lb := Chars bs']> (heap w))
         ∧ heap w !! tb = None ∧ lb ≠ tb).
Proof.
  intros Hline Hstr Hrun. unfold lsh_split_line in Hrun. cbn zeta in Hrun.
  destruct (alloc_ok w (alloc_count w)) eqn:Hok.
  2:{ left. split; [reflexivity|].
      erewrite bind_returns in Hrun by (rewrite malloc_eq; cbn zeta; rewrite Hok; reflexivity).
      cbv beta iota in Hrun.
      erewrite bind_returns in Hrun by apply fprintf_stderr_eq.
      inversion Hrun; subst. reflexivity. }
  right. split; [reflexivity|].
  set (tb0 := fresh (dom (heap w))) in *.
  set (w1 := set_heap (<[tb0 := Ptrs (replicate (Z.to_nat LSH_TOK_BUFSIZE) Uninit)]> (heap w))
               (log (CMalloc LSH_TOK_BUFSIZE) (set_alloc_count (S (alloc_count w)) w))).
  assert (Hm : malloc LSH_TOK_BUFSIZE w = (Returns (Some tb0), w1)).
  { rewrite malloc_eq. cbn zeta. rewrite Hok. reflexivity. }
  assert (Hf : heap w !! tb0 = None) by apply fresh_heap.
  assert (Hne : lb ≠ tb0) by congruence.
  set (w1' := set_strtok_save (Some (lb, off)) w1).
  assert (Hinv1 : split_inv (heap w) lb tb0 w1' LSH_TOK_BUFSIZE 0 off bs [] []).
  { split; [|unfold LSH_TOK_BUFSIZE; lia].
    exists (replicate (Z.to_nat LSH_TOK_BUFSIZE) Uninit). unfold w1', w1. fields.
    rewrite (insert_id (heap w) lb (Chars bs)) by exact Hline.
    repeat split; auto;
      try (rewrite ?length_replicate; unfold LSH_TOK_BUFSIZE; lia). }
  destruct (strtok_step _ _ _ _ _ _ _ _ _ _ _ Hinv1 Hstr)
    as (token & w2 & s2 & bs2 & Hstk & Hq2 & _ & Hinv2 & Htok2 & Hlen2).
  assert (Hfuel : block_size w2 (lb, off) = length bs).
  { unfold block_size. cbn [fst]. destruct Hinv2 as [Hpre2 _].
    rewrite (split_pre_lookup_line _ _ _ _ _ _ _ _ _ _ Hpre2). exact Hlen2. }
  assert (Hlenle : (length (Runs.runs LSH_TOK_DELIM str) ≤ length bs)%nat).
  { pose proof (length_runs_le LSH_TOK_DELIM str).
    pose proof (CStrFacts.cstr_at_bound _ _ _ Hstr). lia. }
  erewrite bind_returns in Hrun by exact Hm. cbv beta iota in Hrun.
  erewrite bind_returns in Hrun by (apply strtok_first_returns; exact Hstk).
  erewrite bind_returns in Hrun by reflexivity. rewrite Hfuel in Hrun.
  destruct (split_loop_spec (heap w) lb (length bs) w2 LSH_TOK_BUFSIZE 0 tb0 token s2 bs2 [] []
              _ Hinv2 Htok2 Hlenle) as (o3 & w3 & Hloop & Hres).
  destruct Hres as [(tb' & bf' & s' & bs' & ps' & -> & Hq3 & Hinv3)|(-> & _)].
  - exfalso. erewrite bind_returns in Hrun by exact Hloop. cbn [fst snd] in Hrun.
    destruct Hinv3 as [(sl & Hh & Hn & Hne3 & Hsv & Hlen & Hpos & Hle & Htk & Hstr3) Hlt].
    erewrite bind_returns in Hrun.
    2:{ apply store_slot_eq with (ps := sl); [rewrite Hh; apply lookup_insert_eq|lia]. }
    discriminate Hrun.
  - erewrite bind_stops in Hrun by exact Hloop. injection Hrun as <- <-.
    exact (split_loop_stops (heap w) lb _ _ _ _ _ _ _ _ _ _ _ _ _ Hinv2 Htok2 Hlenle Hloop).
Qed.

End StopFacts.

(** ** The buffers of a turn *)

Module TurnBuffers.
Import Libc Shell Run LibcFacts Inv LaunchFacts Builtins DispatchFacts SplitFacts LoopFacts.
Import FreeFacts StopFacts.

(** The turn on a line, from the tokenizer on: its heap once the
    tokenizer has returned. *)
Lemma split_returns_heap w lb bs args w2 :
  heap w !! lb = Some (Chars (bs ++ [CStr.NUL])) →
  lsh_split_line (lb, 0%nat) w = (Returns args, w2) →
  ∃ sl bs', heap w2 = <[args := Ptrs sl]> (<[lb := Chars bs']> (heap w))
            ∧ heap w !! args = None ∧ lb ≠ args.
Proof.
  intros Hline Hs.
  destruct (lsh_split_line_spec w lb 0%nat _ _ Hline (cstr_until_nul bs))
    as (o & w' & Hrun & [(tb & -> & Hres)|(-> & _)]);
    rewrite Hs in Hrun; [|discriminate].
  injection Hrun as <- <-.
  destruct Hres as (sl & bs' & ps & Hh & Hn & Hne & _). cbn [fst] in Hh, Hne.
  exists sl, bs'. auto.
Qed.

(** The two calls of [free] at the end of the turn. *)
Lemma frees_run (st : Z) w3 tb lb sl bs' :
  heap w3 !! tb = Some (Ptrs sl) → heap w3 !! lb = Some (Chars bs') → lb ≠ tb →
  (free tb;; free_chars (lb, 0%nat);; ret st) w3
  = (Returns st,
     log (CFree lb) (set_heap (delete lb (delete tb (heap w3)))
       (log (CFree tb) (set_heap (delete tb (heap w3)) w3)))).
Proof.
  intros Htb Hlb Hne.
  erewrite bind_returns by (eapply free_eq; exact Htb).
  erewrite bind_returns.
  2:{ unfold free_chars. cbn [snd fst]. rewrite bool_decide_eq_true_2 by reflexivity.
      eapply (free_eq _ _ (Chars bs')). fields.
      rewrite lookup_delete_ne by congruence. exact Hlb. }
  reflexivity.
Qed.

(** A turn that ends the process by [exit] has called [free] for nothing:
    what was allocated before is untouched, the buffer [getline] had
    allocated is still there, and so is the token array if [malloc] had
    returned one. *)
Lemma turn_exit_frees_nothing w c w' :
  lsh_iteration w = (Stops (Exit c), w') → nothing_freed w w'.
Proof.
  intros H. unfold nothing_freed.
  set (lb := fresh (dom (heap w))).
  assert (Hlb : heap w !! lb = None) by apply fresh_heap.
  assert (Hold : ∀ b x, heap w !! b = Some x → b ≠ lb) by (intros b x Hb ->; congruence).
  destruct (stdin w) as [|[bs|eof err|err] rest] eqn:Hin.
  - (* nothing more to read *)
    unfold lsh_iteration in H. erewrite bind_returns in H by apply printf_eq.
    erewrite bind_stops in H
      by (rewrite lsh_read_line_eq; fields; rewrite Hin; reflexivity).
    injection H as <- <-. fields. fold lb.
    split; [frees_tac|]. split.
    { intros b x Hb. rewrite lookup_insert_ne by (symmetry; eapply Hold; exact Hb). exact Hb. }
    split; [right; exists lb, getline_buffer; split; [exact Hlb|apply lookup_insert_eq]|].
    intros bs rest; discriminate.
  - (* a line *)
    rewrite (iteration_unfold _ _ _ Hin) in H. fold lb in H.
    set (w1 := after_getline bs rest w) in H.
    assert (Hh1 : heap w1 = <[lb := Chars (bs ++ [CStr.NUL])]> (heap w)) by reflexivity.
    assert (Hline : heap w1 !! lb = Some (Chars (bs ++ [CStr.NUL]))) by apply lookup_insert_eq.
    assert (Hf1 : frees w1 = frees w) by (unfold w1, after_getline; frees_tac).
    assert (Hshape : ∀ tb sl bs', heap w' = <[tb := Ptrs sl]> (<[lb := Chars bs']> (heap w1)) →
              heap w1 !! tb = None → lb ≠ tb →
              (∀ b x, heap w !! b = Some x → heap w' !! b = Some x)
              ∧ ((∃ err rest0, GetlineOk bs :: rest = GetlineNoMem err :: rest0)
                 ∨ ∃ b bs', heap w !! b = None ∧ heap w' !! b = Some (Chars bs'))
              ∧ (∀ bs0 rest0, GetlineOk bs :: rest = GetlineOk bs0 :: rest0 →
                   alloc_ok w (alloc_count w) = true →
                   ∃ tb sl, heap w !! tb = None ∧ heap w' !! tb = Some (Ptrs sl))).
    { intros tb sl bs' Hh Hn Hne.
      rewrite Hh1 in Hn. apply lookup_insert_None in Hn as [Hn _].
      split.
      { intros b x Hb. rewrite Hh, Hh1.
        rewrite !lookup_insert_ne; [exact Hb| | |]; try (symmetry; eapply Hold; exact Hb).
        intros ->. congruence. }
      split.
      { right. exists lb, bs'. split; [exact Hlb|].
        rewrite Hh, lookup_insert_ne, lookup_insert_eq by congruence. reflexivity. }
      intros _ _ _ _. exists tb, sl. split; [exact Hn|]. rewrite Hh. apply lookup_insert_eq. }
    apply bind_inv in H as [(args & w2 & Hs & H)|(s & Hs & _)].
    + destruct (split_returns_heap _ _ _ _ _ Hline Hs) as (sl & bs' & Hh2 & Hn2 & Hne2).
      pose proof (nofree_lsh_split_line _ _ _ _ Hs) as Hf2. cbv beta in Hf2.
      apply bind_inv in H as [(st & w3 & He & H)|(s & He & _)].
      * exfalso.
        pose proof (preserves_lsh_execute (fun w => heap w) os_blind_heap _ _ _ _ He) as Hh3.
        cbv beta in Hh3.
        rewrite (frees_run st w3 args lb sl bs') in H; [discriminate| | |exact Hne2].
        -- rewrite Hh3, Hh2. apply lookup_insert_eq.
        -- rewrite Hh3, Hh2, lookup_insert_ne, lookup_insert_eq by congruence. reflexivity.
      * pose proof (preserves_lsh_execute (fun w => heap w) os_blind_heap _ _ _ _ He) as Hh3.
        pose proof (nofree_lsh_execute _ _ _ _ He) as Hf3. cbv beta in Hh3, Hf3.
        split; [congruence|]. apply (Hshape args sl bs'); congruence.
    + pose proof (nofree_lsh_split_line _ _ _ _ Hs) as Hf2. cbv beta in Hf2.
      split; [congruence|].
      destruct (lsh_split_line_stops w1 lb 0%nat _ (until_nul bs) _ _ Hline
                  (cstr_until_nul bs) Hs)
        as [(Hbad & Hh)|(_ & tb & sl & bs' & Hh & Hn & Hne)].
      * split.
        { intros b x Hb. rewrite Hh, Hh1.
          rewrite lookup_insert_ne by (symmetry; eapply Hold; exact Hb). exact Hb. }
        split.
        { right. exists lb, (bs ++ [CStr.NUL]). split; [exact Hlb|]. rewrite Hh. exact Hline. }
        intros _ _ _ Hok. exfalso.
        change (alloc_ok w (alloc_count w) = false) in Hbad. congruence.
      * apply (Hshape tb sl bs'); assumption.
  - (* a read that fails, the buffer allocated *)
    unfold lsh_iteration in H. erewrite bind_returns in H by apply printf_eq.
    destruct (stdin_eof w || eof) eqn:E.
    all: erewrite bind_stops in H
           by (rewrite lsh_read_line_eq; fields; rewrite Hin, E; reflexivity).
    all: injection H as <- <-; fields; fold lb.
    all: split; [frees_tac|].
    all: split;
      [intros b x Hb; rewrite lookup_insert_ne by (symmetry; eapply Hold; exact Hb);
       exact Hb|].
    all: split; [right; exists lb, getline_buffer; split; [exact Hlb|apply lookup_insert_eq]|].
    all: intros bs rest0; discriminate.
  - (* a read that fails for want of memory: no buffer *)
    unfold lsh_iteration in H. erewrite bind_returns in H by apply printf_eq.
    destruct (stdin_eof w) eqn:E.
    all: erewrite bind_stops in H
           by (rewrite lsh_read_line_eq; fields; rewrite Hin, E; reflexivity).
    all: injection H as <- <-; fields.
    all: split; [frees_tac|].
    all: split; [intros b x Hb; exact Hb|].
    all: split; [left; eauto|].
    all: intros bs rest0; discriminate.
Qed.

(** A turn that returns has freed the array, then the line, and nothing
    else ever. *)
Lemma turn_return_frees_both w st w' :
  lsh_iteration w = (Returns st, w') → both_freed w w'.
Proof.
  intros H. unfold both_freed. pose proof (iteration_returns_inv _ _ _ H) as (bs & Hin & Hend).
  assert (Hheap : heap w' = heap w).
  { destruct Hend as [(E & _)|(_ & [(st' & _ & _ & Hh)|[(E & _)|[(f & a & E)|E]]])];
      try discriminate. exact Hh. }
  set (lb := fresh (dom (heap w))).
  assert (Hlb : heap w !! lb = None) by apply fresh_heap.
  rewrite (iteration_unfold _ _ _ Hin) in H. fold lb in H.
  set (w1 := after_getline bs (stdin w') w) in H.
  assert (Hh1 : heap w1 = <[lb := Chars (bs ++ [CStr.NUL])]> (heap w)) by reflexivity.
  assert (Hline : heap w1 !! lb = Some (Chars (bs ++ [CStr.NUL]))) by apply lookup_insert_eq.
  assert (Hf1 : frees w1 = frees w) by (unfold w1, after_getline; frees_tac).
  apply bind_inv in H as [(args & w2 & Hs & H)|(s & _ & H)]; [|discriminate].
  destruct (split_returns_heap _ _ _ _ _ Hline Hs) as (sl & bs' & Hh2 & Hn2 & Hne2).
  pose proof (nofree_lsh_split_line _ _ _ _ Hs) as Hf2. cbv beta in Hf2.
  apply bind_inv in H as [(st' & w3 & He & H)|(s & _ & H)]; [|discriminate].
  pose proof (preserves_lsh_execute (fun w => heap w) os_blind_heap _ _ _ _ He) as Hh3.
  pose proof (nofree_lsh_execute _ _ _ _ He) as Hf3. cbv beta in Hh3, Hf3.
  rewrite (frees_run st' w3 args lb sl bs') in H; [| | |exact Hne2].
  2:{ rewrite Hh3, Hh2. apply lookup_insert_eq. }
  2:{ rewrite Hh3, Hh2, lookup_insert_ne, lookup_insert_eq by congruence. reflexivity. }
  injection H as _ <-.
  exists (lb, 0%nat), w1, args, w2.
  split.
  { rewrite lsh_read_line_eq. fields. rewrite Hin. reflexivity. }
  split; [exact Hs|]. cbn [fst].
  split; [exact Hlb|].
  rewrite Hh1 in Hn2. apply lookup_insert_None in Hn2 as [Hn2 Hne].
  split; [exact Hn2|]. split; [congruence|]. split; [|exact Hheap].
  rewrite <- Hf1, <- Hf2, <- Hf3. unfold frees, log. fields.
  rewrite !List.filter_app. cbn [List.filter is_free].
  rewrite <- app_assoc. reflexivity.
Qed.

End TurnBuffers.

(** * The model at work

    Concrete runs of the embedding, by evaluation. *)

Module Runs_of_the_shell.
Import Libc Shell Examples.

(** [  ls   -l ] and its newline give the two tokens [ls] and [-l]. *)
Example split_ls :
  let r := lsh_split_line (0%nat, 0%nat) (holding ls_line) in
  r.1 = Returns 1%nat ∧ tokens_of r.2 1 = Some [CStr.lit "ls"; CStr.lit "-l"].
Proof. vm_compute. split; reflexivity. Qed.

(** With 63 tokens the first block of 64 cells is enough; the 64th token
    makes it grow to 128 cells before the NULL is stored. *)
Example split_63_tokens :
  let r := lsh_split_line (0%nat, 0%nat) (holding (concat (replicate 63 (CStr.lit "ab ")))) in
  (slots ← heap r.2 !! 1%nat;
   match slots with Ptrs sl => Some (length sl, sl !! 63%nat) | Chars _ => None end)
  = Some (64%nat, Some Null).
Proof. vm_compute. reflexivity. Qed.

Example split_64_tokens :
  let r := lsh_split_line (0%nat, 0%nat) (holding full_line) in
  (slots ← heap r.2 !! 1%nat;
   match slots with Ptrs sl => Some (length sl, sl !! 64%nat) | Chars _ => None end)
  = Some (128%nat, Some Null).
Proof. vm_compute. reflexivity. Qed.

Example split_65_tokens :
  let r := lsh_split_line (0%nat, 0%nat) (holding (concat (replicate 65 (CStr.lit "ab ")))) in
  (slots ← heap r.2 !! 1%nat;
   match slots with Ptrs sl => Some (length sl, sl !! 65%nat) | Chars _ => None end)
  = Some (128%nat, Some Null).
Proof. vm_compute. reflexivity. Qed.

(** [help], then [exit 3]: the program returns 0 from [main], every block
    of the two turns has been freed. *)
Example run_help_then_exit :
  let r := main help_then_exit in
  r.1 = Returns 0 ∧ heap r.2 = ∅
  ∧ stdout r.2 = CStr.lit "> " ++ help_banner
                 ++ CStr.lit " cd" ++ newline ++ CStr.lit " help" ++ newline
                 ++ CStr.lit " exit" ++ newline
                 ++ help_footer ++ CStr.lit "> ".
Proof. vm_compute. repeat split; reflexivity. Qed.

(** No input at all: End-of-Input at the first read. *)
Example run_no_input : (main (boot [])).1 = Stops (Exit EXIT_SUCCESS).
Proof. vm_compute. reflexivity. Qed.

End Runs_of_the_shell.

(** * The claims *)

Import Libc Shell Run LibcFacts Inv LaunchFacts Builtins DispatchFacts SplitFacts LoopFacts Examples.

Lemma waits_pos reports :
  Exists (fun s => terminal s = true) reports → (0 < waits reports)%nat.
Proof. induction 1 as [s r H|s r _ IH]; cbn; destruct (terminal s); lia. Qed.

Lemma lsh_launch_child_never_returns args w rest st w' :
  forks w = ForkChild :: rest → lsh_launch args w ≠ (Returns st, w').
Proof.
  intros Hf H. unfold lsh_launch in H.
  erewrite bind_returns in H by (rewrite fork_eq; cbn zeta; rewrite Hf; reflexivity).
  rewrite bool_decide_eq_true_2 in H by reflexivity.
  apply bind_inv in H as [(u & w1 & H & _)|(s & _ & H)]; [|discriminate].
  apply bind_inv in H as [(a0 & w2 & _ & H)|(s & _ & H)]; [|discriminate].
  apply bind_inv in H as [(r & w3 & Hex & H)|(s & _ & H)]; [|discriminate].
  assert (r = -1) as ->.
  { unfold execvp in Hex. prim_cases Hex; reflexivity. }
  rewrite bool_decide_eq_true_2 in H by reflexivity.
  apply bind_inv in H as [(u' & w4 & _ & H)|(s & _ & H)]; discriminate.
Qed.

(** C1. In the shell, [lsh_launch] returns CONTINUE whatever [fork] gives.
    When [fork] fails it writes the perror line for "lsh" on stderr and
    returns CONTINUE, and the only call it has made is the fork: no
    waitpid.  When the child is created and reaches a terminal state it
    returns CONTINUE after waiting for it, for every sequence of statuses
    the child reports, so whatever its exit code.  Only in the forked child
    does it not return. *)
Theorem lsh_launch_continue (args : nat) (w : world)
    (fr : fork_result) (rest : list fork_result) :
  forks w = fr :: rest →
  match fr with
  | ForkError err =>
      ∃ w', lsh_launch args w = (Returns CONTINUE, w')
            ∧ stderr w' = stderr w ++ CStr.lit "lsh" ++ CStr.lit ": "
                          ++ strerror w err ++ newline
            ∧ calls w' = calls w ++ [CFork]
  | ForkParent pid reports =>
      0 < pid → Exists (fun s => terminal s = true) reports →
      ∃ w', lsh_launch args w = (Returns CONTINUE, w')
            ∧ calls w' = calls w ++ CFork :: replicate (waits reports) (CWaitpid pid)
            ∧ (0 < waits reports)%nat
            ∧ stderr w' = stderr w
  | ForkChild => ∀ st w', lsh_launch args w ≠ (Returns st, w')
  end.
Proof.
  intros Hf. destruct fr as [err| |pid reports].
  - eexists. split; [apply lsh_launch_fork_error; exact Hf|]. fields. split; reflexivity.
  - intros st w'. eapply lsh_launch_child_never_returns; exact Hf.
  - intros Hpid Hex. eexists. split; [apply lsh_launch_parent; eassumption|].
    fields. split; [reflexivity|]. split; [apply waits_pos; exact Hex|reflexivity].
Qed.




(** C4. [lsh_cd] recovers from both errors.  With no argument (args[1] is
    NULL) it returns CONTINUE and changes nothing but stderr, which gets
    the "expected argument" diagnostic: the working directory is as before
    and chdir is not called.  When chdir rejects the path it returns
    CONTINUE, the working directory is as before and stderr gets the perror
    line of the error chdir failed with, whichever it is: the message of
    the errno that chdir has set. *)
Theorem lsh_cd_recovers (args : nat) (w : world) (ps : list slot) :
  heap w !! args = Some (Ptrs ps) →
  (ps !! 1%nat = Some Null →
   lsh_cd args w = (Returns CONTINUE, set_stderr (stderr w ++ cd_expected_argument) w)
   ∧ cd_expected_argument
     = CStr.lit "lsh: expected argument to " ++ dquote ++ CStr.lit "cd" ++ dquote ++ newline)
  ∧ (∀ p path, ps !! 1%nat = Some (Ptr p) → string_at w p = Some path → path ∉ dirs w →
     ∃ w', lsh_cd args w = (Returns CONTINUE, w')
           ∧ cwd w' = cwd w
           ∧ errno w' = sys_errno w (CChdir path)
           ∧ stderr w' = stderr w ++ CStr.lit "lsh" ++ CStr.lit ": "
                         ++ strerror w (errno w') ++ newline
           ∧ calls w' = calls w ++ [CChdir path]).
Proof.
  intros Ha. split.
  - intros H1. split; [eapply lsh_cd_no_argument; eassumption|reflexivity].
  - intros p path H1 Hp Hd. eexists. split; [eapply lsh_cd_chdir_fails; eassumption|].
    fields. repeat split; reflexivity.
Qed.

Lemma alloc_failure_not_ok w w' :
  alloc_failure w w' → ¬ (∀ k, (alloc_count w ≤ k)%nat → alloc_ok w k = true).
Proof.
  intros ((Hlt & Hbad & _) & _) Hok. rewrite Hok in Hbad by lia. discriminate.
Qed.

(** C5. The exit builtin returns TERMINATE in every world and for every
    argument array, which it does not read; and a command whose first token
    is exactly "exit" is dispatched to it, whatever follows that token: the
    dispatch returns TERMINATE and changes nothing. *)
Theorem lsh_exit_terminates (args : nat) (w : world) :
  lsh_exit args w = (Returns TERMINATE, w)
  ∧ (first_token w args = Some (CStr.lit "exit") →
     lsh_execute args w = (Returns TERMINATE, w)).
Proof.
  split; [reflexivity|apply lsh_execute_exit].
Qed.

(** C6. Whatever its arguments and in every world, [lsh_help] returns
    CONTINUE and changes nothing but stdout, to which it appends the fixed
    banner, then the registered names in their order, " cd", " help",
    " exit", one per line, then the fixed closing line. *)
Theorem lsh_help_prints_builtins (args : nat) (w : world) :
  lsh_help args w
  = (Returns CONTINUE,
     set_stdout (stdout w ++ help_banner ++ help_names builtin_str ++ help_footer) w)
  ∧ help_names builtin_str
    = CStr.lit " cd" ++ newline ++ CStr.lit " help" ++ newline
      ++ CStr.lit " exit" ++ newline
  ∧ builtin_str = [CStr.lit "cd"; CStr.lit "help"; CStr.lit "exit"].
Proof. split; [apply lsh_help_eq|split; reflexivity]. Qed.

(** C7. A line made of delimiters only, the empty line included, gives an
    array whose first cell is NULL: zero tokens (unless the allocation
    fails, which ends the process).  Dispatching a command with zero
    tokens returns CONTINUE and leaves the world exactly as it was. *)
Theorem empty_command_continues :
  (∀ (w : world) (lb off : nat) (bs str : list byte),
     heap w !! lb = Some (Chars bs) → CStr.cstr_at bs off = Some str →
     Forall (fun c => Runs.is_ws LSH_TOK_DELIM c = true) str →
     ∃ o w', lsh_split_line (lb, off) w = (o, w')
       ∧ ((∃ tb, o = Returns tb ∧ tokens_of w' tb = Some []
                 ∧ lsh_execute tb w' = (Returns CONTINUE, w'))
          ∨ (o = Stops (Exit EXIT_FAILURE) ∧ alloc_failure w w'))
       ∧ ((∀ k, (alloc_count w ≤ k)%nat → alloc_ok w k = true) → ∃ tb, o = Returns tb))
  ∧ (∀ (w : world) (args : nat),
       tokens_of w args = Some [] → lsh_execute args w = (Returns CONTINUE, w)).
Proof.
  assert (Hempty : ∀ (w : world) (args : nat),
            tokens_of w args = Some [] → lsh_execute args w = (Returns CONTINUE, w)).
  { intros w args H. apply tokens_of_nil in H as (sl & H). eapply lsh_execute_empty; exact H. }
  split; [|exact Hempty].
  intros w lb off bs str Hline Hstr Hws.
  destruct (lsh_split_line_spec w lb off bs str Hline Hstr)
    as (o & w' & Hrun & [(tb & -> & Hres)|(-> & Hfail & _)]).
  - exists (Returns tb), w'. split; [exact Hrun|].
    pose proof (split_result_tokens _ _ _ _ _ Hres) as Ht.
    rewrite (RunsFacts.runs_nil _ _ Hws) in Ht.
    split; [|eauto]. left. exists tb. split; [reflexivity|].
    split; [exact Ht|apply Hempty; exact Ht].
  - exists (Stops (Exit EXIT_FAILURE)), w'. split; [exact Hrun|].
    split; [right; auto|]. intros Hok. exfalso.
    eapply alloc_failure_not_ok; eassumption.
Qed.

(** C2. On every line, [lsh_split_line] returns the array of the maximal
    runs of non-delimiter characters of the line, in order, the delimiters
    being space, tab, carriage return, newline and bell: no token is empty,
    none holds a delimiter, the line is the tokens in order with delimiters
    only around them and at least one between two of them, and there are as
    many tokens as places where a run begins.  The only other outcome is the exit with EXIT_FAILURE on a
    failed allocation; when allocations succeed the call returns.  The line
    is the C string at the pointer passed. *)
Theorem lsh_split_line_tokens (w : world) (lb off : nat) (bs str : list byte) :
  heap w !! lb = Some (Chars bs) → CStr.cstr_at bs off = Some str →
  ∃ o w', lsh_split_line (lb, off) w = (o, w')
    ∧ ((∃ tb toks, o = Returns tb ∧ tokens_of w' tb = Some toks
          ∧ toks = Runs.runs LSH_TOK_DELIM str
          ∧ Runs.splits_into LSH_TOK_DELIM str toks
          ∧ length toks = Runs.count_runs LSH_TOK_DELIM str)
       ∨ (o = Stops (Exit EXIT_FAILURE) ∧ alloc_failure w w'))
    ∧ ((∀ k, (alloc_count w ≤ k)%nat → alloc_ok w k = true) → ∃ tb, o = Returns tb)
    ∧ LSH_TOK_DELIM = [x20; x09; x0d; x0a; x07].
Proof.
  intros Hline Hstr.
  destruct (lsh_split_line_spec w lb off bs str Hline Hstr)
    as (o & w' & Hrun & [(tb & -> & Hres)|(-> & Hfail & _)]).
  - exists (Returns tb), w'. split; [exact Hrun|]. split; [|split; [eauto|reflexivity]].
    left. exists tb, (Runs.runs LSH_TOK_DELIM str). split; [reflexivity|].
    split; [eapply split_result_tokens; exact Hres|]. split; [reflexivity|].
    split; [apply RunsFacts.runs_splits|apply RunsFacts.length_runs].
  - exists (Stops (Exit EXIT_FAILURE)), w'. split; [exact Hrun|].
    split; [right; auto|]. split; [|reflexivity].
    intros Hok. exfalso. eapply alloc_failure_not_ok; eassumption.
Qed.

(** C10. The array [lsh_split_line] returns is NULL-terminated inside its
    block: with [n] the number of tokens of the line, none, fewer than 64,
    exactly 64 or more, the cells 0 to n-1 point to the tokens, cell [n]
    exists and holds NULL, so reading up to the NULL yields exactly the
    [n] tokens and never leaves the block.  The block has at most 64 cells
    more than there are tokens.  This is for n + 64 within the range of
    [int], where [buffsize], whose last value is the number of cells,
    never overflows; from 2^31 - 64 tokens on it would. *)
Theorem lsh_split_line_null_terminated (w : world) (lb off : nat) (bs str : list byte) :
  heap w !! lb = Some (Chars bs) → CStr.cstr_at bs off = Some str →
  Z.of_nat (Runs.count_runs LSH_TOK_DELIM str) + LSH_TOK_BUFSIZE ≤ INT_MAX →
  ∃ o w', lsh_split_line (lb, off) w = (o, w')
    ∧ ((∃ tb sl, o = Returns tb ∧ heap w' !! tb = Some (Ptrs sl)
          ∧ let n := Runs.count_runs LSH_TOK_DELIM str in
            (n < length sl ≤ n + 64)%nat
            ∧ Z.of_nat (length sl) ≤ INT_MAX
            ∧ sl !! n = Some Null
            ∧ (∀ i, (i < n)%nat →
                 ∃ p t, sl !! i = Some (Ptr p) ∧ string_at w' p = Some t
                        ∧ Runs.runs LSH_TOK_DELIM str !! i = Some t)
            ∧ ∃ toks, tokens_of w' tb = Some toks ∧ length toks = n)
       ∨ (o = Stops (Exit EXIT_FAILURE) ∧ alloc_failure w w'))
    ∧ ((∀ k, (alloc_count w ≤ k)%nat → alloc_ok w k = true) → ∃ tb, o = Returns tb).
Proof.
  intros Hline Hstr Hint.
  destruct (lsh_split_line_spec w lb off bs str Hline Hstr)
    as (o & w' & Hrun & [(tb & -> & Hres)|(-> & Hfail & _)]).
  2:{ exists (Stops (Exit EXIT_FAILURE)), w'. split; [exact Hrun|].
      split; [right; auto|].
      intros Hok. exfalso. eapply alloc_failure_not_ok; eassumption. }
  exists (Returns tb), w'. split; [exact Hrun|]. split; [|eauto].
  left. pose proof (split_result_tokens _ _ _ _ _ Hres) as Htoks.
  apply split_result_array in Hres as (sl & bs' & ps & junk & Htb & Hl & -> & Hcap & Hall).
  cbn [fst] in Hl. change (Z.to_nat LSH_TOK_BUFSIZE) with 64%nat in Hcap.
  exists tb, (map (fun p => Ptr (lb, p)) ps ++ Null :: junk).
  split; [reflexivity|]. split; [exact Htb|]. cbn zeta.
  rewrite <- RunsFacts.length_runs in Hint |- *.
  pose proof (Forall2_length _ _ _ Hall) as Hlen. rewrite <- Hlen in Hint |- *.
  split; [split; [rewrite length_app, length_map; cbn [length]; lia|exact Hcap]|].
  split; [cbn [fst] in Hcap; unfold LSH_TOK_BUFSIZE, INT_MAX in Hint |- *; lia|].
  split.
  { rewrite lookup_app_r by (rewrite length_map; lia).
    rewrite length_map, Nat.sub_diag. reflexivity. }
  split.
  { intros i Hi. destruct (lookup_lt_is_Some_2 ps i Hi) as [p Hp].
    destruct (Forall2_lookup_l _ _ _ _ _ Hall Hp) as (t & Ht & Hpt).
    exists (lb, p), t. split.
    - rewrite lookup_app_l by (rewrite length_map; lia).
      rewrite list_lookup_fmap, Hp. reflexivity.
    - split; [|exact Ht]. unfold string_at. cbn [fst snd]. rewrite Hl. exact Hpt. }
  exists (Runs.runs LSH_TOK_DELIM str). split; [exact Htoks|]. lia.
Qed.

Lemma lsh_read_line_returns_inv w line w1 :
  lsh_read_line w = (Returns line, w1) →
  ∃ bs rest, stdin w = GetlineOk bs :: rest
             ∧ line = (fresh (dom (heap w)), 0%nat)
             ∧ w1 = log CGetline
                      (set_heap (<[fresh (dom (heap w)) := Chars (bs ++ [CStr.NUL])]> (heap w))
                         (set_stdin rest w)).
Proof.
  rewrite lsh_read_line_eq. destruct (stdin w) as [|[bs|eof err|err] rest]; try discriminate.
  - cbn zeta. intros [= <- <-]. eauto.
  - cbn zeta. destruct (stdin_eof w || eof); discriminate.
  - cbn zeta. destruct (stdin_eof w); discriminate.
Qed.

(** A turn whose command is exit returns TERMINATE. *)
Lemma lsh_iteration_exit w line w1 args w2 :
  lsh_read_line (set_stdout (stdout w ++ prompt) w) = (Returns line, w1) →
  lsh_split_line line w1 = (Returns args, w2) →
  first_token w2 args = Some (CStr.lit "exit") →
  ∃ w', lsh_iteration w = (Returns TERMINATE, w').
Proof.
  intros Hread Hsplit Hexit.
  apply lsh_read_line_returns_inv in Hread as (bs & rest & Hin & Hl & Hw1).
  fields_in Hin. fields_in Hl. fields_in Hw1. subst line w1.
  set (b := fresh (dom (heap w))) in *.
  match type of Hsplit with lsh_split_line _ ?x = _ => set (w1 := x) in * end.
  assert (Hline : heap w1 !! b = Some (Chars (bs ++ [CStr.NUL]))) by apply lookup_insert_eq.
  destruct (lsh_split_line_spec w1 b 0%nat _ _ Hline (cstr_until_nul bs))
    as (o & w2' & Hrun & [(tb & -> & Hres)|(-> & _)]); rewrite Hsplit in Hrun;
    [|discriminate].
  injection Hrun as <- <-.
  destruct Hres as (sl & bs' & ps & Hh2 & Hn & Hne & _). cbn [fst] in Hh2, Hne.
  rewrite (iteration_unfold _ _ _ Hin). fold b. change (after_getline bs rest w) with w1.
  erewrite bind_returns by exact Hsplit.
  erewrite bind_returns by (apply lsh_execute_exit; exact Hexit).
  erewrite bind_returns by (eapply free_eq; rewrite Hh2; apply lookup_insert_eq).
  erewrite bind_returns.
  2:{ unfold free_chars. cbn [snd fst]. rewrite bool_decide_eq_true_2 by reflexivity.
      eapply (free_eq _ _ (Chars bs')). fields.
      rewrite lookup_delete_ne by congruence.
      rewrite Hh2. rewrite lookup_insert_ne by congruence. apply lookup_insert_eq. }
  eexists. reflexivity.
Qed.

(** C3. Wherever the loop has come to, to the top of a turn in the world
    [w]: if the read of this turn meets end of file, the process exits with
    code 0 and writes nothing to stderr; if this turn dispatches exit, the
    loop ends and main returns 0; if the read fails otherwise, the process
    exits with code 1, having written the perror line for "readline" and
    made that one read only; if an allocation of this turn fails, the
    process exits with code 1, having written the allocation diagnostic,
    the failed call being the last call it made. *)
Theorem exit_codes (w0 w : world) :
  reaches w0 w →
  (next_read w = ReadEOF →
   ∃ w', main w0 = (Stops (Exit EXIT_SUCCESS), w')
         ∧ exit_code (main w0).1 = Some 0
         ∧ stderr w' = stderr w)
  ∧ (∀ line w1 args w2,
       lsh_read_line (set_stdout (stdout w ++ prompt) w) = (Returns line, w1) →
       lsh_split_line line w1 = (Returns args, w2) →
       first_token w2 args = Some (CStr.lit "exit") →
       ∃ w', main w0 = (Returns EXIT_SUCCESS, w')
             ∧ exit_code (main w0).1 = Some 0)
  ∧ (∀ err, next_read w = ReadError err →
       ∃ w', main w0 = (Stops (Exit EXIT_FAILURE), w')
             ∧ exit_code (main w0).1 = Some 1
             ∧ stderr w' = stderr w ++ CStr.lit "readline" ++ CStr.lit ": "
                           ++ strerror w err ++ newline
             ∧ calls w' = calls w ++ [CGetline])
  ∧ (∀ o w', lsh_iteration w = (o, w') →
       (∃ k, (alloc_count w ≤ k < alloc_count w')%nat ∧ alloc_ok w k = false) →
       main w0 = (Stops (Exit EXIT_FAILURE), w')
       ∧ exit_code (main w0).1 = Some 1
       ∧ stderr w' = stderr w ++ CStr.lit "lsh: allocation error" ++ newline
       ∧ alloc_ok w (alloc_count w' - 1) = false
       ∧ ∃ cs c, calls w' = cs ++ [c] ∧ alloc_call c).
Proof.
  intros Hr. rewrite (main_reaches _ _ Hr). split; [|split; [|split]].
  - intros Hn. destruct (lsh_iteration_eof _ Hn) as (w' & Hit & He & _).
    exists w'. rewrite main_eq, Hit. auto.
  - intros line w1 args w2 Hread Hsplit Hexit.
    destruct (lsh_iteration_exit _ _ _ _ _ Hread Hsplit Hexit) as (w' & Hit).
    exists w'. rewrite main_eq, Hit. auto.
  - intros err Hn. destruct (lsh_iteration_error _ _ Hn) as (w' & Hit & He & Hc & _).
    exists w'. rewrite main_eq, Hit. auto.
  - intros o w' Hit (k & Hk & Hbad).
    assert (Hfail : o = Stops (Exit EXIT_FAILURE) ∧ alloc_failure w w').
    { destruct (next_read w) as [bs| |err] eqn:En.
      - unfold next_read in En.
        destruct (stdin w) as [|[bs0|eof e|e] rest] eqn:Hin; try discriminate.
        2:{ destruct (stdin_eof w || eof); discriminate. }
        2:{ destruct (stdin_eof w); discriminate. }
        destruct (lsh_iteration_line _ _ _ Hin) as (o' & w2 & Hit' & Hend & _).
        rewrite Hit in Hit'. injection Hit' as <- <-.
        destruct Hend as [(-> & Hf & _)|((_ & Hall) & _)]; [auto|].
        rewrite (Hall k Hk) in Hbad. discriminate.
      - destruct (lsh_iteration_eof _ En) as (w2 & Hit' & _ & _ & _ & _ & Hc).
        rewrite Hit in Hit'. injection Hit' as -> ->. lia.
      - destruct (lsh_iteration_error _ _ En) as (w2 & Hit' & _ & _ & _ & _ & Hc).
        rewrite Hit in Hit'. injection Hit' as -> ->. lia. }
    destruct Hfail as (-> & (Hlt & Hlast & _) & Herr & Hcalls).
    rewrite main_eq, Hit. auto.
Qed.

Lemma allocs_succeed_not_failure w w' : allocs_succeed w w' → ¬ alloc_failure w w'.
Proof.
  intros (_ & Hall) ((Hlt & Hbad & _) & _).
  rewrite Hall in Hbad by lia. discriminate.
Qed.

(** C8, as the code has it.  A turn that returns, with either status, has
    freed the array [lsh_split_line] returned and then the line
    [lsh_read_line] returned, each once: the heap is what it was before
    the turn, so no command data goes on to the next turn.  A turn that ends the process by [exit], whichever way
    (End-of-Input, a failed read, a failed allocation in [lsh_split_line],
    a failed [execvp] in the forked child), has freed nothing: [free] was
    not called, the buffer that [getline] allocated is still allocated
    when the process exits, and so is the token array once [malloc] has
    returned it. *)
Theorem buffers_freed_when_turn_returns :
  (∀ (w : world) (st : Z) (w' : world),
     lsh_iteration w = (Returns st, w') → both_freed w w')
  ∧ (∀ (w : world) (c : Z) (w' : world),
       lsh_iteration w = (Stops (Exit c), w') → nothing_freed w w').
Proof.
  split.
  - intros w st w' H. exact (TurnBuffers.turn_return_frees_both w st w' H).
  - intros w c w' H. exact (TurnBuffers.turn_exit_frees_nothing w c w' H).
Qed.


(** C8 as stated fails: on the exit path taken when malloc fails in
    [lsh_split_line], the line buffer of the turn is not released. *)
Lemma line_buffer_left_on_allocation_failure :
  ¬ (∀ (w : world) (o : outcome Z) (w' : world),
       lsh_iteration w = (o, w') → heap w' = heap w).
Proof.
  intros H.
  specialize (H out_of_memory _ _ (surjective_pairing _)).
  apply (f_equal (fun h => h !! 0%nat)) in H. vm_compute in H. discriminate H.
Qed.

Lemma buffers_freed_when_turn_returns_witness :
  ((lsh_iteration (boot [GetlineOk (CStr.lit "cd" ++ newline)])).1 = Returns CONTINUE
   ∧ both_freed (boot [GetlineOk (CStr.lit "cd" ++ newline)])
                (lsh_iteration (boot [GetlineOk (CStr.lit "cd" ++ newline)])).2)
  ∧ ((lsh_iteration out_of_memory).1 = Stops (Exit EXIT_FAILURE)
     ∧ nothing_freed out_of_memory (lsh_iteration out_of_memory).2)
  ∧ ((lsh_iteration (boot [])).1 = Stops (Exit EXIT_SUCCESS)
     ∧ nothing_freed (boot []) (lsh_iteration (boot [])).2)
  ∧ ((lsh_iteration read_failure).1 = Stops (Exit EXIT_FAILURE)
     ∧ nothing_freed read_failure (lsh_iteration read_failure).2)
  ∧ ((lsh_iteration Scenes.no_buffer).1 = Stops (Exit EXIT_FAILURE)
     ∧ nothing_freed Scenes.no_buffer (lsh_iteration Scenes.no_buffer).2)
  ∧ ((lsh_iteration Scenes.lost_child).1 = Stops (Exit EXIT_FAILURE)
     ∧ nothing_freed Scenes.lost_child (lsh_iteration Scenes.lost_child).2).
Proof.
  destruct buffers_freed_when_turn_returns as [Hret Hexit].
  split; [|split; [|split; [|split; [|split]]]].
  - split; [vm_compute; reflexivity|]. apply (Hret _ CONTINUE). vm_compute. reflexivity.
  - split; [vm_compute; reflexivity|]. apply (Hexit _ EXIT_FAILURE). vm_compute. reflexivity.
  - split; [vm_compute; reflexivity|]. apply (Hexit _ EXIT_SUCCESS). vm_compute. reflexivity.
  - split; [vm_compute; reflexivity|]. apply (Hexit _ EXIT_FAILURE). vm_compute. reflexivity.
  - split; [vm_compute; reflexivity|]. apply (Hexit _ EXIT_FAILURE). vm_compute. reflexivity.
  - split; [vm_compute; reflexivity|]. apply (Hexit _ EXIT_FAILURE). vm_compute. reflexivity.
Defined.








Lemma lsh_launch_continue_witness :
  (∃ w', lsh_launch 0 no_fork = (Returns CONTINUE, w')
         ∧ stderr w' = stderr no_fork ++ CStr.lit "lsh" ++ CStr.lit ": "
                       ++ strerror no_fork 12 ++ newline
         ∧ calls w' = calls no_fork ++ [CFork])
  ∧ ∃ w', lsh_launch 0 one_child = (Returns CONTINUE, w')
          ∧ calls w' = calls one_child
                       ++ CFork :: replicate (waits stop_then_exit) (CWaitpid 42)
          ∧ (0 < waits stop_then_exit)%nat
          ∧ stderr w' = stderr one_child.
Proof.
  split.
  - apply (lsh_launch_continue 0 no_fork (ForkError 12) []). reflexivity.
  - apply (lsh_launch_continue 0 one_child (ForkParent 42 stop_then_exit) []).
    + reflexivity.
    + lia.
    + apply Exists_cons_tl, Exists_cons_hd. reflexivity.
Defined.

Lemma lsh_split_line_tokens_witness :
  ∃ o w', lsh_split_line (0%nat, 0%nat) (holding ls_line) = (o, w')
    ∧ ((∃ tb toks, o = Returns tb ∧ tokens_of w' tb = Some toks
          ∧ toks = Runs.runs LSH_TOK_DELIM ls_line
          ∧ Runs.splits_into LSH_TOK_DELIM ls_line toks
          ∧ length toks = Runs.count_runs LSH_TOK_DELIM ls_line)
       ∨ (o = Stops (Exit EXIT_FAILURE) ∧ alloc_failure (holding ls_line) w'))
    ∧ ((∀ k, (alloc_count (holding ls_line) ≤ k)%nat → alloc_ok (holding ls_line) k = true)
       → ∃ tb, o = Returns tb)
    ∧ LSH_TOK_DELIM = [x20; x09; x0d; x0a; x07].
Proof.
  apply (lsh_split_line_tokens (holding ls_line) 0 0 (ls_line ++ [CStr.NUL]) ls_line).
  - vm_compute. reflexivity.
  - vm_compute. reflexivity.
Defined.

Lemma lsh_split_line_null_terminated_witness :
  ∃ o w', lsh_split_line (0%nat, 0%nat) (holding full_line) = (o, w')
    ∧ ((∃ tb sl, o = Returns tb ∧ heap w' !! tb = Some (Ptrs sl)
          ∧ let n := Runs.count_runs LSH_TOK_DELIM full_line in
            (n < length sl ≤ n + 64)%nat
            ∧ Z.of_nat (length sl) ≤ INT_MAX
            ∧ sl !! n = Some Null
            ∧ (∀ i, (i < n)%nat →
                 ∃ p t, sl !! i = Some (Ptr p) ∧ string_at w' p = Some t
                        ∧ Runs.runs LSH_TOK_DELIM full_line !! i = Some t)
            ∧ ∃ toks, tokens_of w' tb = Some toks ∧ length toks = n)
       ∨ (o = Stops (Exit EXIT_FAILURE) ∧ alloc_failure (holding full_line) w'))
    ∧ ((∀ k, (alloc_count (holding full_line) ≤ k)%nat
             → alloc_ok (holding full_line) k = true)
       → ∃ tb, o = Returns tb).
Proof.
  apply (lsh_split_line_null_terminated (holding full_line) 0 0
           (full_line ++ [CStr.NUL]) full_line).
  - vm_compute. reflexivity.
  - vm_compute. reflexivity.
  - vm_compute. discriminate.
Defined.

Lemma lsh_cd_recovers_witness :
  (lsh_cd 1 cd_alone
   = (Returns CONTINUE, set_stderr (stderr cd_alone ++ cd_expected_argument) cd_alone)
   ∧ cd_expected_argument
     = CStr.lit "lsh: expected argument to " ++ dquote ++ CStr.lit "cd" ++ dquote ++ newline)
  ∧ (∃ w', lsh_cd 1 cd_nowhere = (Returns CONTINUE, w')
           ∧ cwd w' = cwd cd_nowhere
           ∧ errno w' = ENOENT
           ∧ stderr w' = stderr cd_nowhere ++ CStr.lit "lsh" ++ CStr.lit ": "
                         ++ strerror cd_nowhere (errno w') ++ newline
           ∧ calls w' = calls cd_nowhere ++ [CChdir (CStr.lit "/nowhere")])
  ∧ ∃ w', lsh_cd 1 Scenes.cd_passwd = (Returns CONTINUE, w')
          ∧ cwd w' = cwd Scenes.cd_passwd
          ∧ errno w' = Scenes.ENOTDIR
          ∧ stderr w' = stderr Scenes.cd_passwd ++ CStr.lit "lsh" ++ CStr.lit ": "
                        ++ strerror Scenes.cd_passwd (errno w') ++ newline
          ∧ calls w' = calls Scenes.cd_passwd ++ [CChdir (CStr.lit "/etc/passwd")].
Proof.
  assert (H1 : heap cd_alone !! 1%nat = Some (Ptrs (slots_of cd_alone 1)))
    by (vm_compute; reflexivity).
  assert (H2 : heap cd_nowhere !! 1%nat = Some (Ptrs (slots_of cd_nowhere 1)))
    by (vm_compute; reflexivity).
  assert (H3 : heap Scenes.cd_passwd !! 1%nat = Some (Ptrs (slots_of Scenes.cd_passwd 1)))
    by (vm_compute; reflexivity).
  split; [|split].
  - apply (proj1 (lsh_cd_recovers 1 cd_alone _ H1)). vm_compute. reflexivity.
  - apply (proj2 (lsh_cd_recovers 1 cd_nowhere _ H2) (0%nat, 3%nat)).
    + vm_compute. reflexivity.
    + vm_compute. reflexivity.
    + vm_compute. apply not_elem_of_nil.
  - apply (proj2 (lsh_cd_recovers 1 Scenes.cd_passwd _ H3) (0%nat, 3%nat)).
    + vm_compute. reflexivity.
    + vm_compute. reflexivity.
    + vm_compute. apply not_elem_of_nil.
Defined.

Lemma lsh_exit_terminates_witness :
  first_token exit_now 1 = Some (CStr.lit "exit")
  ∧ lsh_execute 1 exit_now = (Returns TERMINATE, exit_now).
Proof.
  split; [vm_compute; reflexivity|].
  apply (proj2 (lsh_exit_terminates 1 exit_now)). vm_compute. reflexivity.
Defined.

Lemma empty_command_continues_witness :
  (∃ o w', lsh_split_line (0%nat, 0%nat) (holding blank_line) = (o, w')
     ∧ ((∃ tb, o = Returns tb ∧ tokens_of w' tb = Some []
               ∧ lsh_execute tb w' = (Returns CONTINUE, w'))
        ∨ (o = Stops (Exit EXIT_FAILURE) ∧ alloc_failure (holding blank_line) w'))
     ∧ ((∀ k, (alloc_count (holding blank_line) ≤ k)%nat
              → alloc_ok (holding blank_line) k = true)
        → ∃ tb, o = Returns tb))
  ∧ lsh_execute 1 (lsh_split_line (0%nat, 0%nat) (holding blank_line)).2
    = (Returns CONTINUE, (lsh_split_line (0%nat, 0%nat) (holding blank_line)).2).
Proof.
  destruct empty_command_continues as [Hsplit Hempty]. split.
  - apply (Hsplit (holding blank_line) 0%nat 0%nat (blank_line ++ [CStr.NUL]) blank_line).
    + vm_compute. reflexivity.
    + vm_compute. reflexivity.
    + repeat constructor.
  - apply Hempty. vm_compute. reflexivity.
Defined.

Lemma exit_codes_witness :
  (∃ w', main (boot []) = (Stops (Exit EXIT_SUCCESS), w')
         ∧ exit_code (main (boot [])).1 = Some 0
         ∧ stderr w' = stderr (boot []))
  ∧ (∃ w', main help_then_exit = (Returns EXIT_SUCCESS, w')
           ∧ exit_code (main help_then_exit).1 = Some 0)
  ∧ (∃ w', main read_failure = (Stops (Exit EXIT_FAILURE), w')
           ∧ exit_code (main read_failure).1 = Some 1
           ∧ stderr w' = stderr read_failure ++ CStr.lit "readline" ++ CStr.lit ": "
                         ++ strerror read_failure 5 ++ newline
           ∧ calls w' = calls read_failure ++ [CGetline])
  ∧ (main out_of_memory = (Stops (Exit EXIT_FAILURE), (lsh_iteration out_of_memory).2)
     ∧ exit_code (main out_of_memory).1 = Some 1
     ∧ stderr (lsh_iteration out_of_memory).2
       = stderr out_of_memory ++ CStr.lit "lsh: allocation error" ++ newline
     ∧ alloc_ok out_of_memory (alloc_count (lsh_iteration out_of_memory).2 - 1) = false
     ∧ ∃ cs c, calls (lsh_iteration out_of_memory).2 = cs ++ [c] ∧ alloc_call c).
Proof.
  split; [|split; [|split]].
  - apply (proj1 (exit_codes (boot []) (boot []) (reaches_here _))). reflexivity.
  - set (w := (lsh_iteration help_then_exit).2).
    assert (Hr : reaches help_then_exit w).
    { apply (reaches_turn _ w w CONTINUE); [vm_compute; reflexivity|discriminate|constructor]. }
    apply (proj1 (proj2 (exit_codes help_then_exit w Hr)) (0%nat, 0%nat)
             (lsh_read_line (set_stdout (stdout w ++ prompt) w)).2 1%nat
             (lsh_split_line (0%nat, 0%nat)
                (lsh_read_line (set_stdout (stdout w ++ prompt) w)).2).2).
    + vm_compute. reflexivity.
    + vm_compute. reflexivity.
    + vm_compute. reflexivity.
  - apply (proj1 (proj2 (proj2 (exit_codes read_failure read_failure (reaches_here _))))).
    reflexivity.
  - apply (proj2 (proj2 (proj2 (exit_codes out_of_memory out_of_memory (reaches_here _))))
             (lsh_iteration out_of_memory).1).
    + vm_compute. reflexivity.
    + exists 0%nat. split; [vm_compute; lia|reflexivity].
Defined.

(** * More lemmas on the calls, the tokenizer and the loop *)

(** ** The status of a child *)

Module WaitFacts.

(** The wait loop goes on exactly on a status whose low seven bits are all
    set: a stopped or a continued child. *)
Lemma terminal_iff status : terminal status = false ↔ WTERMSIG status = 127.
Proof.
  unfold terminal, WIFEXITED, WIFSIGNALED, signed_char, WTERMSIG.
  assert (H : 0 ≤ Z.land status 127 < 128).
  { change 127 with (Z.ones 7). rewrite Z.land_ones by lia. apply Z.mod_pos_bound. lia. }
  set (t := Z.land status 127) in *.
  rewrite Z.shiftr_div_pow2 by lia. change (2 ^ 1) with 2.
  rewrite (Z.mod_small (t + 1) 256) by lia.
  destruct (t =? 0) eqn:E0; cbn [orb].
  - split; [discriminate|lia].
  - destruct (t + 1 <? 128) eqn:E1.
    + assert ((t + 1) / 2 > 0) by (apply Z.lt_gt, Z.div_str_pos; lia).
      split; [|lia]. intros Hf. exfalso.
      assert (((t + 1) / 2 >? 0) = true) by lia. congruence.
    + split; [lia|]. intros ->. reflexivity.
Qed.

Lemma waits_stops pre s post :
  Forall (fun r => WTERMSIG r = 127) pre → WTERMSIG s ≠ 127 →
  waits (pre ++ s :: post) = S (length pre)
  ∧ Exists (fun r => terminal r = true) (pre ++ s :: post).
Proof.
  intros Hpre Hs. induction Hpre as [|r pre Hr _ [IH1 IH2]]; cbn [app waits length].
  - destruct (terminal s) eqn:E; [split; [reflexivity|constructor; exact E]|].
    apply terminal_iff in E. contradiction.
  - apply terminal_iff in Hr. rewrite Hr, IH1. split; [reflexivity|].
    apply Exists_cons_tl. exact IH2.
Qed.

(** A child that is only ever seen stopped: the loop waits for ever. *)
Lemma wait_loop_blocks pid : ∀ reports fuel status w,
  children w !! pid = Some reports →
  Forall (fun r => WTERMSIG r = 127) reports →
  (length reports < fuel)%nat →
  ∃ w', wait_loop fuel pid status w = (Stops Blocked, w')
        ∧ calls w' = calls w ++ replicate (S (length reports)) (CWaitpid pid).
Proof.
  induction reports as [|s rest IH]; intros fuel status w Hc Hall Hfuel.
  - destruct fuel as [|fuel]; [cbn in Hfuel; lia|]. cbn [wait_loop].
    eexists. split.
    { erewrite bind_stops; [reflexivity|]. rewrite waitpid_eq. cbn zeta. rewrite Hc. reflexivity. }
    reflexivity.
  - destruct fuel as [|fuel]; [cbn in Hfuel; lia|]. cbn [wait_loop]. cbn [length] in Hfuel.
    inversion Hall as [|? ? Hs Hrest]; subst.
    apply terminal_iff in Hs. unfold terminal in Hs.
    destruct (IH fuel (Some s)
                (set_children (<[pid := rest]> (children w)) (log (CWaitpid pid) w)))
      as (w' & Hw & Hcalls); [fields; apply lookup_insert_eq|exact Hrest|lia|].
    exists w'. split.
    + erewrite bind_returns by (rewrite waitpid_eq; cbn zeta; rewrite Hc; reflexivity).
      cbv beta iota. rewrite Hs.
      replace (negb (WIFEXITED s) && negb (WIFSIGNALED s)) with true
        by (destruct (WIFEXITED s), (WIFSIGNALED s); cbn in *; congruence).
      exact Hw.
    + rewrite Hcalls. fields. rewrite <- app_assoc. reflexivity.
Qed.

End WaitFacts.

(** ** The builtin cd, call by call *)

Module ExecFacts.

Lemma chdir_inv p w o w' :
  chdir p w = (o, w') →
  (string_at w p = None ∧ o = Stops Undefined ∧ w' = w)
  ∨ ∃ path, string_at w p = Some path
      ∧ ((path ∈ dirs w ∧ o = Returns 0 ∧ w' = set_cwd path (log (CChdir path) w))
         ∨ ((path ∉ dirs w) ∧ o = Returns (-1)
            ∧ w' = set_errno (sys_errno w (CChdir path)) (log (CChdir path) w))).
Proof.
  intros H. destruct (string_at w p) as [path|] eqn:Hs.
  - right. exists path. split; [reflexivity|].
    destruct (decide (path ∈ dirs w)) as [Hd|Hd].
    + rewrite (chdir_succeeds _ _ _ Hs Hd) in H. inversion H. auto.
    + rewrite (chdir_fails _ _ _ Hs Hd) in H. inversion H. auto.
  - left. unfold chdir in H. erewrite bind_stops in H.
    2:{ unfold load_string. rewrite Hs. reflexivity. }
    inversion H. auto.
Qed.

Lemma load_slot_stops a i w s w' :
  load_slot a i w = (Stops s, w') → s = Undefined ∧ w' = w.
Proof. unfold load_slot. intros H. prim_cases H; auto. Qed.

(** [lsh_cd] and the calls it logs: [chdir] at most once, nothing else. *)
Lemma lsh_cd_calls args w o w' :
  lsh_cd args w = (o, w') →
  forks w' = forks w ∧ children w' = children w
  ∧ (calls w' = calls w ∨ ∃ path, calls w' = calls w ++ [CChdir path]).
Proof.
  unfold lsh_cd. intros H.
  destruct (load_slot args 1 w) as [[a1|s] w1] eqn:Hl.
  2:{ pose proof (load_slot_stops _ _ _ _ _ Hl) as [-> ->].
      erewrite bind_stops in H by exact Hl. inversion H; subst. auto. }
  pose proof (load_slot_inv _ _ _ _ _ Hl) as [-> _].
  erewrite bind_returns in H by exact Hl.
  destruct a1 as [p|].
  2:{ rewrite (bind_returns _ _ _ _ _ (fprintf_stderr_eq _ _)) in H.
      inversion H; subst. fields. auto. }
  destruct (chdir p w) as [o1 w2] eqn:Hc.
  destruct (chdir_inv _ _ _ _ Hc) as [(_ & -> & ->)|(path & _ & [(_ & -> & ->)|(_ & -> & ->)])].
  - erewrite bind_stops in H.
    2:{ erewrite bind_stops by exact Hc. reflexivity. }
    inversion H; subst. auto.
  - erewrite bind_returns in H.
    2:{ erewrite bind_returns by exact Hc.
        rewrite bool_decide_eq_false_2 by lia. reflexivity. }
    inversion H; subst. fields. eauto.
  - erewrite bind_returns in H.
    2:{ erewrite bind_returns by exact Hc.
        rewrite bool_decide_eq_true_2 by lia. apply perror_eq. }
    inversion H; subst. fields. eauto.
Qed.

End ExecFacts.

(** ** The size of the token array *)

Module CapacityFacts.

Lemma store_slot_count a i v w o w' :
  store_slot a i v w = (o, w') → alloc_count w' = alloc_count w.
Proof. unfold store_slot. intros H. prim_cases H; reflexivity. Qed.

Lemma strtok_count s delim w o w' :
  strtok s delim w = (o, w') → alloc_count w' = alloc_count w.
Proof. unfold strtok. intros H. prim_cases H; reflexivity. Qed.

(** The [if (pos >= buffsize)] block, when it returns: the new size and
    the number of allocation calls. *)
Lemma grow_size tb buffsize pos w bf' tb' w1 :
  (if pos >=? buffsize then
     let buffsize := buffsize + LSH_TOK_BUFSIZE in
     r ← realloc tb buffsize;
     match r with
     | None => fprintf_stderr allocation_error;; exit EXIT_FAILURE
     | Some tokens => ret (buffsize, tokens)
     end
   else ret (buffsize, tb)) w = (Returns (bf', tb'), w1) →
  if pos >=? buffsize
  then bf' = buffsize + LSH_TOK_BUFSIZE ∧ alloc_count w1 = S (alloc_count w)
  else bf' = buffsize ∧ alloc_count w1 = alloc_count w.
Proof.
  destruct (pos >=? buffsize); intros H.
  - cbn zeta in H.
    apply bind_inv in H as [(r & w2 & Hr & H)|(s & _ & H)]; [|discriminate].
    destruct r as [t|].
    + inversion H; subst. split; [reflexivity|].
      unfold realloc in Hr. prim_cases Hr. reflexivity.
    + apply bind_inv in H as [(u & w3 & _ & H)|(s & _ & H)]; discriminate.
  - inversion H. auto.
Qed.

(** Sizes go by 64: the block that holds [pos] pointers and has room for
    one more cell. *)
Lemma next_size pos buffsize :
  0 ≤ pos → buffsize = 64 * (pos / 64 + 1) →
  (if pos + 1 >=? buffsize then buffsize + 64 else buffsize) = 64 * ((pos + 1) / 64 + 1)
  ∧ (pos + 1) / 64 = (if pos + 1 >=? buffsize then pos / 64 + 1 else pos / 64).
Proof.
  intros Hpos ->.
  destruct (pos + 1 >=? 64 * (pos / 64 + 1)) eqn:E; Z.div_mod_to_equations; lia.
Qed.

Section Split.
Variables (h0 : gmap nat block) (lb : nat).

Lemma split_loop_capacity fuel : ∀ w buffsize pos tb token s bs ps done pending p' tb' w',
  split_inv h0 lb tb w buffsize pos s bs ps done →
  token_ok lb bs s token pending →
  (length pending ≤ fuel)%nat →
  buffsize = 64 * (pos / 64 + 1) →
  split_loop fuel buffsize pos tb token w = (Returns (p', tb'), w') →
  ∃ sl bs',
    heap w' !! tb' = Some (Ptrs sl) ∧ Z.of_nat (length sl) = 64 * (p' / 64 + 1)
    ∧ heap w' !! lb = Some (Chars bs') ∧ length bs' = length bs
    ∧ Z.of_nat (alloc_count w') = Z.of_nat (alloc_count w) + p' / 64 - pos / 64
    ∧ lb ≠ tb' ∧ ∀ b, b ≠ lb → b ≠ tb' → heap w' !! b = h0 !! b.
Proof.
  induction fuel as [|fuel IH];
    intros w buffsize pos tb token s bs ps done pending p' tb' w' Hinv Htok Hfuel Hsize Hrun.
  all: assert (Hstop : split_loop 0 buffsize pos tb None w = (Returns (p', tb'), w') →
         ∃ sl bs',
           heap w' !! tb' = Some (Ptrs sl) ∧ Z.of_nat (length sl) = 64 * (p' / 64 + 1)
           ∧ heap w' !! lb = Some (Chars bs') ∧ length bs' = length bs
           ∧ Z.of_nat (alloc_count w') = Z.of_nat (alloc_count w) + p' / 64 - pos / 64
           ∧ lb ≠ tb' ∧ ∀ b, b ≠ lb → b ≠ tb' → heap w' !! b = h0 !! b).
  1,3: intros H; inversion H; subst p' tb' w'; clear H;
       pose proof (split_pre_lookup_line _ _ _ _ _ _ _ _ _ _ (proj1 Hinv)) as Hline;
       destruct Hinv as [(sl & Hh & Hn & Hne & Hsv & Hlen & Hpos & Hle & Htk & Hstr) Hlt];
       exists sl, bs; split; [rewrite Hh; apply lookup_insert_eq|];
       split; [lia|]; split; [exact Hline|]; split; [reflexivity|]; split; [lia|];
       split; [exact Hne|]; intros b Hb1 Hb2; rewrite Hh;
       rewrite !lookup_insert_ne by congruence; reflexivity.
  - destruct pending; [|cbn in Hfuel; lia].
    destruct token as [[b p]|]; [destruct Htok as (_ & t & rem & _ & _ & _ & ?); done|].
    apply Hstop. exact Hrun.
  - destruct token as [[b p]|]; [|apply Hstop; exact Hrun]. clear Hstop.
    destruct Htok as (-> & t & rem & Ht & Hts & Hrem & ->).
    cbn [length] in Hfuel.
    assert (Hpos0 : 0 ≤ pos) by (destruct Hinv as [(sl & _ & _ & _ & _ & _ & Hpos & _) _]; lia).
    destruct (store_token _ _ _ _ _ _ _ _ _ _ _ _ Hinv Ht Hts) as (w1 & Hst & Hq1 & Hc1 & Hpre).
    cbn [split_loop] in Hrun. erewrite bind_returns in Hrun by exact Hst.
    destruct (grow_tokens _ _ _ _ _ _ _ _ _ _ Hpre)
      as (o2 & w2 & Hgrow & [(bf' & tb1 & -> & Hq2 & Hinv2)|(-> & Hfail & Hkept)]).
    2:{ erewrite bind_stops in Hrun by exact Hgrow. discriminate. }
    erewrite bind_returns in Hrun by exact Hgrow. cbn [fst snd] in Hrun.
    pose proof (grow_size _ _ _ _ _ _ _ Hgrow) as Hsz.
    destruct (strtok_step _ _ _ _ _ _ _ _ _ _ _ Hinv2 Hrem)
      as (token' & w3 & s' & bs' & Hstk & Hq3 & Hc3 & Hinv3 & Htok3 & Hlen3).
    erewrite bind_returns in Hrun by exact Hstk.
    pose proof (store_slot_count _ _ _ _ _ _ Hst) as Ha1.
    pose proof (strtok_count _ _ _ _ _ Hstk) as Ha3.
    destruct (next_size pos buffsize Hpos0 Hsize) as [Hn1 Hn2].
    unfold LSH_TOK_BUFSIZE in Hsz.
    assert (Hbf : bf' = 64 * ((pos + 1) / 64 + 1)
                  ∧ Z.of_nat (alloc_count w2)
                    = Z.of_nat (alloc_count w1) + (pos + 1) / 64 - pos / 64).
    { destruct (pos + 1 >=? buffsize); destruct Hsz as [-> ->]; split; lia. }
    destruct Hbf as [Hbf Ha2].
    destruct (IH w3 bf' (pos + 1) tb1 token' s' bs' (ps ++ [p]) (done ++ [t]) _ p' tb' w'
                Hinv3 Htok3 ltac:(lia) Hbf Hrun)
      as (sl & bs'' & Htb & Hlen & Hline & Hlb & Hcount & Hne & Hframe).
    exists sl, bs''. split; [exact Htb|]. split; [exact Hlen|]. split; [exact Hline|].
    split; [congruence|]. split; [lia|]. split; [exact Hne|exact Hframe].
Qed.

End Split.

(** [lsh_split_line] when it returns: the size of the array, the number of
    allocation calls, and what the heap has become. *)
Lemma lsh_split_line_capacity w lb off bs str tb w' :
  heap w !! lb = Some (Chars bs) → CStr.cstr_at bs off = Some str →
  lsh_split_line (lb, off) w = (Returns tb, w') →
  let n := Z.of_nat (length (Runs.runs LSH_TOK_DELIM str)) in
  ∃ sl bs',
    heap w' = <[tb := Ptrs sl]> (<[lb := Chars bs']> (heap w))
    ∧ heap w !! tb = None
    ∧ Z.of_nat (length sl) = 64 * (n / 64 + 1)
    ∧ length bs' = length bs
    ∧ Z.of_nat (alloc_count w') = Z.of_nat (alloc_count w) + 1 + n / 64.
Proof.
  intros Hline Hstr Hrun n. unfold lsh_split_line in Hrun. cbn zeta in Hrun.
  destruct (alloc_ok w (alloc_count w)) eqn:Hok.
  2:{ erewrite bind_returns in Hrun by (rewrite malloc_eq; cbn zeta; rewrite Hok; reflexivity).
      cbv beta iota in Hrun.
      erewrite bind_returns in Hrun by apply fprintf_stderr_eq. discriminate. }
  set (tb0 := fresh (dom (heap w))) in *.
  set (w1 := set_heap (<[tb0 := Ptrs (replicate (Z.to_nat LSH_TOK_BUFSIZE) Uninit)]> (heap w))
               (log (CMalloc LSH_TOK_BUFSIZE) (set_alloc_count (S (alloc_count w)) w))).
  assert (Hm : malloc LSH_TOK_BUFSIZE w = (Returns (Some tb0), w1)).
  { rewrite malloc_eq. cbn zeta. rewrite Hok. reflexivity. }
  assert (Hf : heap w !! tb0 = None) by apply fresh_heap.
  assert (Hne : lb ≠ tb0) by congruence.
  set (w1' := set_strtok_save (Some (lb, off)) w1).
  assert (Hinv1 : split_inv (heap w) lb tb0 w1' LSH_TOK_BUFSIZE 0 off bs [] []).
  { split; [|unfold LSH_TOK_BUFSIZE; lia].
    exists (replicate (Z.to_nat LSH_TOK_BUFSIZE) Uninit). unfold w1', w1. fields.
    rewrite (insert_id (heap w) lb (Chars bs)) by exact Hline.
    repeat split; auto;
      try (rewrite ?length_replicate; unfold LSH_TOK_BUFSIZE; lia). }
  destruct (strtok_step _ _ _ _ _ _ _ _ _ _ _ Hinv1 Hstr)
    as (token & w2 & s2 & bs2 & Hstk & Hq2 & _ & Hinv2 & Htok2 & Hlen2).
  pose proof (strtok_count _ _ _ _ _ Hstk) as Hc2.
  assert (Hfuel : block_size w2 (lb, off) = length bs).
  { unfold block_size. cbn [fst]. destruct Hinv2 as [Hpre2 _].
    rewrite (split_pre_lookup_line _ _ _ _ _ _ _ _ _ _ Hpre2). exact Hlen2. }
  assert (Hlenle : (length (Runs.runs LSH_TOK_DELIM str) ≤ length bs)%nat).
  { pose proof (length_runs_le LSH_TOK_DELIM str).
    pose proof (CStrFacts.cstr_at_bound _ _ _ Hstr). lia. }
  destruct (split_loop_spec (heap w) lb (length bs) w2 LSH_TOK_BUFSIZE 0 tb0 token s2 bs2 [] []
              _ Hinv2 Htok2 Hlenle) as (o3 & w3 & Hloop & Hres).
  erewrite bind_returns in Hrun by exact Hm. cbv beta iota in Hrun.
  erewrite bind_returns in Hrun by (apply strtok_first_returns; exact Hstk).
  erewrite bind_returns in Hrun by reflexivity. rewrite Hfuel in Hrun.
  destruct Hres as [(tb' & bf' & s' & bs' & ps' & -> & Hq3 & Hinv3)|(-> & _)].
  2:{ erewrite bind_stops in Hrun by exact Hloop. discriminate. }
  erewrite bind_returns in Hrun by exact Hloop. cbn [fst snd] in Hrun.
  destruct (split_loop_capacity (heap w) lb _ _ _ _ _ _ _ _ _ _ _ _ _ _ Hinv2 Htok2 Hlenle
              eq_refl Hloop)
    as (sl & bs'' & Htb & Hlen & Hlb & Hlbs & Hcount & _ & _).
  destruct Hinv3 as [(sl3 & Hh & Hn & Hne3 & Hsv & Hlen3 & Hpos & Hle & Htk & Hstr3) Hlt].
  assert (sl3 = sl) as ->.
  { rewrite Hh, lookup_insert_eq in Htb. congruence. }
  assert (bs'' = bs') as ->.
  { rewrite Hh, lookup_insert_ne, lookup_insert_eq in Hlb by congruence. congruence. }
  erewrite bind_returns in Hrun.
  2:{ apply store_slot_eq with (ps := sl); [rewrite Hh; apply lookup_insert_eq|lia]. }
  inversion Hrun; subst tb w'. clear Hrun.
  eexists _, bs'. fields.
  split; [rewrite Hh; apply insert_insert_eq|].
  split; [exact Hn|].
  split; [rewrite length_insert; fold n in Hlen |- *; rewrite Hlen; f_equal; f_equal; f_equal; lia|].
  split; [congruence|].
  rewrite Hcount, Hc2. unfold w1', w1. fields. fold n.
  change (0 / 64) with 0. replace (0 + n) with n by lia. lia.
Qed.

End CapacityFacts.

(** ** One turn, from the line read to the buffers freed *)

Module TurnFacts.
Import Frames.

(** The turn that reads a line, when no allocation fails: the tokenizer
    returns the tokens of the line, the dispatcher runs on them, and the
    turn ends as the dispatcher does, after both buffers are freed. *)
Lemma turn_runs_command w bs rest :
  stdin w = GetlineOk bs :: rest →
  (∀ k, (alloc_count w ≤ k)%nat → alloc_ok w k = true) →
  ∃ args w2,
    lsh_split_line (fresh (dom (heap w)), 0%nat) (after_getline bs rest w) = (Returns args, w2)
    ∧ tokens_of w2 args = Some (Runs.runs LSH_TOK_DELIM (until_nul bs))
    ∧ (∀ A (f : world → A), mem_blind f → f w2 = f (after_getline bs rest w))
    ∧ stderr w2 = stderr w
    ∧ ∀ o w3, lsh_execute args w2 = (o, w3) →
        match o with
        | Returns st =>
            ∃ w', lsh_iteration w = (Returns st, w') ∧ heap w' = heap w
                  ∧ calls w' = calls w3 ++ [CFree args; CFree (fresh (dom (heap w)))]
                  ∧ ∀ A (f : world → A), free_blind f → f w' = f w3
        | Stops s => lsh_iteration w = (Stops s, w3)
        end.
Proof.
  intros Hin Hok. rewrite (iteration_unfold _ _ _ Hin).
  set (b := fresh (dom (heap w))). set (w1 := after_getline bs rest w).
  assert (Hb : heap w !! b = None) by apply fresh_heap.
  assert (Hline : heap w1 !! b = Some (Chars (bs ++ [CStr.NUL]))) by apply lookup_insert_eq.
  assert (Hstr : CStr.cstr_at (bs ++ [CStr.NUL]) 0 = Some (until_nul bs)) by apply cstr_until_nul.
  destruct (lsh_split_line_spec w1 b 0%nat _ _ Hline Hstr)
    as (o2 & w2 & Hsplit & [(tb & -> & Hres)|(-> & Hfail & _)]).
  2:{ exfalso. eapply (alloc_failure_not_ok w1 w2 Hfail). exact Hok. }
  exists tb, w2. split; [exact Hsplit|].
  split; [eapply split_result_tokens; exact Hres|].
  split.
  { intros A f Hf. exact (mem_preserves_lsh_split_line f Hf _ _ _ _ Hsplit). }
  destruct Hres as (sl & bs' & ps & Hh2 & Hn & Hne & _ & _ & _ & _ & (_ & _ & Herr)).
  split; [exact Herr|].
  intros o3 w3 Hexec.
  cbn [fst] in Hh2, Hne.
  pose proof (preserves_lsh_execute (fun w => heap w) os_blind_heap _ _ _ _ Hexec) as Hh3.
  cbv beta in Hh3.
  destruct o3 as [st|s].
  2:{ erewrite bind_returns by exact Hsplit. erewrite bind_stops by exact Hexec. reflexivity. }
  assert (Htb3 : heap w3 !! tb = Some (Ptrs sl)) by (rewrite Hh3, Hh2; apply lookup_insert_eq).
  eexists. split.
  { erewrite bind_returns by exact Hsplit. erewrite bind_returns by exact Hexec.
    erewrite bind_returns by (eapply free_eq; exact Htb3).
    erewrite bind_returns.
    2:{ unfold free_chars. cbn [snd fst]. rewrite bool_decide_eq_true_2 by reflexivity.
        eapply (free_eq _ _ (Chars bs')). fields.
        rewrite lookup_delete_ne by congruence.
        rewrite Hh3, Hh2. rewrite lookup_insert_ne by congruence. apply lookup_insert_eq. }
    reflexivity. }
  fields. split; [|split].
  - assert (Hn' : heap w !! tb = None).
    { unfold w1, after_getline in Hn. fields_in Hn. fold b in Hn.
      rewrite lookup_insert_ne in Hn by congruence. exact Hn. }
    rewrite Hh3, Hh2. unfold w1, after_getline. fields. fold b.
    apply map_eq. intros i.
    destruct (decide (i = b)) as [->|Hib]; [rewrite lookup_delete_eq, Hb; reflexivity|].
    rewrite lookup_delete_ne by congruence.
    destruct (decide (i = tb)) as [->|Hitb]; [rewrite lookup_delete_eq, Hn'; reflexivity|].
    rewrite lookup_delete_ne by congruence.
    rewrite !lookup_insert_ne by congruence. reflexivity.
  - rewrite <- app_assoc. reflexivity.
  - intros A f [Hf1 Hf2]. unfold log. rewrite !Hf2, !Hf1, !Hf2, !Hf1. reflexivity.
Qed.

(** A line whose first token is exit makes the turn that returns give
    TERMINATE. *)
Lemma iteration_exit_line w bs st w' :
  next_read w = ReadLine bs →
  head (Runs.runs LSH_TOK_DELIM (until_nul bs)) = Some (CStr.lit "exit") →
  lsh_iteration w = (Returns st, w') → st = TERMINATE.
Proof.
  unfold next_read. intros Hn Hhead Hit.
  destruct (stdin w) as [|[bs0|eof e|e] rest] eqn:Hin; try discriminate.
  2:{ destruct (stdin_eof w || eof); discriminate. }
  2:{ destruct (stdin_eof w); discriminate. }
  injection Hn as ->.
  rewrite (iteration_unfold _ _ _ Hin) in Hit.
  set (b := fresh (dom (heap w))) in *. set (w1 := after_getline bs rest w) in *.
  assert (Hline : heap w1 !! b = Some (Chars (bs ++ [CStr.NUL]))) by apply lookup_insert_eq.
  assert (Hstr : CStr.cstr_at (bs ++ [CStr.NUL]) 0 = Some (until_nul bs)) by apply cstr_until_nul.
  destruct (lsh_split_line_spec w1 b 0%nat _ _ Hline Hstr)
    as (o2 & w2 & Hsplit & [(tb & -> & Hres)|(-> & _)]).
  2:{ erewrite bind_stops in Hit by exact Hsplit. discriminate. }
  erewrite bind_returns in Hit by exact Hsplit.
  pose proof (split_result_tokens _ _ _ _ _ Hres) as Htoks.
  destruct (Runs.runs LSH_TOK_DELIM (until_nul bs)) as [|s toks]; [discriminate|].
  injection Hhead as ->.
  pose proof (lsh_execute_exit _ _ (tokens_of_first _ _ _ _ Htoks)) as Hexec.
  erewrite bind_returns in Hit by exact Hexec.
  apply bind_inv in Hit as [(u1 & w4 & _ & Hit)|(s & _ & Hit)]; [|discriminate].
  apply bind_inv in Hit as [(u2 & w5 & _ & Hit)|(s & _ & Hit)]; [|discriminate].
  inversion Hit. reflexivity.
Qed.

(** [main] returns only from the turn that reads the first exit line. *)
Lemma main_returns_inv : ∀ n w, length (stdin w) = n →
  ∀ c w', main w = (Returns c, w') →
    c = EXIT_SUCCESS ∧ heap w' = heap w
    ∧ ∃ pre bs,
        stdin w = (GetlineOk <$> pre) ++ GetlineOk bs :: stdin w'
        ∧ head (Runs.runs LSH_TOK_DELIM (until_nul bs)) = Some (CStr.lit "exit")
        ∧ Forall (fun l => head (Runs.runs LSH_TOK_DELIM (until_nul l))
                           ≠ Some (CStr.lit "exit")) pre.
Proof.
  induction n as [n IH] using lt_wf_ind. intros w Hlen c w' Hmain.
  rewrite main_eq in Hmain.
  destruct (lsh_iteration w) as [[st|s] w1] eqn:Hit; [|discriminate].
  destruct (iteration_returns_inv _ _ _ Hit) as (bs & Hin & Hend).
  assert (Hst : (st = CONTINUE ∨ st = TERMINATE
                 ∧ head (Runs.runs LSH_TOK_DELIM (until_nul bs)) = Some (CStr.lit "exit"))
                ∧ heap w1 = heap w).
  { destruct Hend as [(H & _)|(_ & [(st' & H & Hs & Hh)|[(H & _)|[(f & a & H)|H]]])];
      try discriminate.
    injection H as <-. auto. }
  destruct Hst as [Hst Hheap].
  assert (Hnext : next_read w = ReadLine bs) by (unfold next_read; rewrite Hin; reflexivity).
  case_bool_decide as Hnz.
  - destruct (IH (length (stdin w1))) with (w := w1) (c := c) (w' := w')
      as (Hc & Hh & pre & bs' & Hpre & Hexit & Hall);
      [rewrite <- Hlen, Hin; cbn [length]; lia|reflexivity|exact Hmain|].
    split; [exact Hc|]. split; [congruence|].
    exists (bs :: pre), bs'. split; [rewrite Hin, Hpre; reflexivity|].
    split; [exact Hexit|]. constructor; [|exact Hall].
    intros Hhead. apply Hnz. exact (iteration_exit_line _ _ _ _ Hnext Hhead Hit).
  - inversion Hmain; subst c w'. split; [reflexivity|]. split; [exact Hheap|].
    exists [], bs. split; [exact Hin|]. split; [|constructor].
    destruct Hst as [->|[_ Hhead]]; [|exact Hhead]. exfalso. unfold CONTINUE in Hnz. lia.
Qed.

End TurnFacts.

(** ** The top of a turn *)

Module ReachFacts.
Import TurnFacts.

(** What holds at the top of every turn the loop comes to. *)
Lemma reaches_inv w0 w :
  reaches w0 w →
  heap w = heap w0
  ∧ ∃ lines,
      stdin w0 = (GetlineOk <$> lines) ++ stdin w
      ∧ Forall (fun l => head (Runs.runs LSH_TOK_DELIM (until_nul l))
                         ≠ Some (CStr.lit "exit")) lines.
Proof.
  induction 1 as [w|w w1 w2 st Hit Hst _ (Hheap & lines & Hin & Hall)].
  - split; [reflexivity|]. exists []. split; [reflexivity|constructor].
  - destruct (iteration_returns_inv _ _ _ Hit) as (bs & Hin1 & Hend).
    assert (Hh : heap w1 = heap w).
    { destruct Hend as [(H & _)|(_ & [(st' & _ & _ & Hh)|[(H & _)|[(f & a & H)|H]]])];
        try discriminate. exact Hh. }
    split; [congruence|].
    exists (bs :: lines). split; [rewrite Hin1, Hin; reflexivity|].
    constructor; [|exact Hall].
    intros Hhead. apply Hst.
    refine (iteration_exit_line w bs st w1 _ Hhead Hit).
    unfold next_read. rewrite Hin1. reflexivity.
Qed.

End ReachFacts.

(** ** What the shell writes on stdout *)

Module OutputFacts.
Import Frames.

Lemma out_stderr s : preserves (fun w => stdout w) (fprintf_stderr s).
Proof. apply preserves_modify. reflexivity. Qed.

Lemma out_perror s : preserves (fun w => stdout w) (perror s).
Proof. apply preserves_modify. reflexivity. Qed.

Lemma out_load_slot a i : preserves (fun w => stdout w) (load_slot a i).
Proof. intros w o w' H. unfold load_slot in H. prim_cases H; reflexivity. Qed.

Lemma out_chdir p : preserves (fun w => stdout w) (chdir p).
Proof.
  intros w o w' H.
  destruct (ExecFacts.chdir_inv _ _ _ _ H)
    as [(_ & _ & ->)|(path & _ & [(_ & _ & ->)|(_ & _ & ->)])]; reflexivity.
Qed.

Lemma out_fork : preserves (fun w => stdout w) fork.
Proof. intros w o w' H. rewrite fork_eq in H. cbn zeta in H. prim_cases H; reflexivity. Qed.

Lemma out_execvp file argv : preserves (fun w => stdout w) (execvp file argv).
Proof. intros w o w' H. unfold execvp in H. prim_cases H; reflexivity. Qed.

Lemma out_waitpid pid : preserves (fun w => stdout w) (waitpid pid).
Proof. intros w o w' H. rewrite waitpid_eq in H. cbn zeta in H. prim_cases H; reflexivity. Qed.

Lemma out_wait_loop pid : ∀ fuel status, preserves (fun w => stdout w) (wait_loop fuel pid status).
Proof.
  induction fuel as [|fuel IH]; intros status; cbn [wait_loop].
  - apply preserves_halt.
  - apply preserves_bind; [apply out_waitpid|intros [s|]].
    + destruct (negb (WIFEXITED s) && negb (WIFSIGNALED s)); [apply IH|apply preserves_ret].
    + destruct status as [s|]; [|apply preserves_halt].
      destruct (negb (WIFEXITED s) && negb (WIFSIGNALED s)); [apply preserves_halt|apply preserves_ret].
Qed.

(** [lsh_launch] writes nothing on the stdout of the shell. *)
Lemma out_lsh_launch args : preserves (fun w => stdout w) (lsh_launch args).
Proof.
  unfold lsh_launch. apply preserves_bind; [apply out_fork|intros pid].
  apply preserves_bind; [|intros; apply preserves_ret].
  case_bool_decide.
  - apply preserves_bind; [apply out_load_slot|intros a0].
    apply preserves_bind; [apply out_execvp|intros r].
    case_bool_decide; [|apply preserves_ret].
    apply preserves_bind; [apply out_perror|intros; apply preserves_halt].
  - case_bool_decide; [apply out_perror|].
    apply preserves_bind; [apply preserves_get|intros fuel]. apply out_wait_loop.
Qed.

Lemma out_lsh_cd args : preserves (fun w => stdout w) (lsh_cd args).
Proof.
  unfold lsh_cd. apply preserves_bind; [apply out_load_slot|intros [p|]].
  - apply preserves_bind; [|intros; apply preserves_ret].
    apply preserves_bind; [apply out_chdir|intros r].
    case_bool_decide; [apply out_perror|apply preserves_ret].
  - apply preserves_bind; [apply out_stderr|intros; apply preserves_ret].
Qed.

Lemma out_lsh_read_line : preserves (fun w => stdout w) lsh_read_line.
Proof. intros w o w' H. rewrite lsh_read_line_eq in H. prim_cases H; reflexivity. Qed.

Lemma out_free_chars p : preserves (fun w => stdout w) (free_chars p).
Proof.
  unfold free_chars. case_bool_decide; [|apply preserves_halt].
  intros w o w' Hf. unfold free in Hf. prim_cases Hf; reflexivity.
Qed.

(** Of all the paths of the dispatcher, help alone writes on stdout. *)
Lemma lsh_execute_stdout args w o w' :
  lsh_execute args w = (o, w') →
  stdout w' = stdout w
  ∨ (first_token w args = Some (CStr.lit "help") ∧ stdout w' = stdout w ++ help_text).
Proof.
  intros H. destruct (first_token w args) as [s|] eqn:Hft.
  - rewrite (lsh_execute_dispatch _ _ _ Hft) in H.
    destruct (decide (s = CStr.lit "cd")); [left; exact (out_lsh_cd _ _ _ _ H)|].
    destruct (decide (s = CStr.lit "help")) as [->|].
    { right. rewrite lsh_help_eq in H. inversion H; subst. auto. }
    destruct (decide (s = CStr.lit "exit")); [left; inversion H; reflexivity|].
    left. exact (out_lsh_launch _ _ _ _ H).
  - left. unfold lsh_execute in H.
    destruct (load_slot args 0 w) as [[a0|s] w1] eqn:Hl.
    2:{ erewrite bind_stops in H by exact Hl. inversion H; subst.
        exact (out_load_slot _ _ _ _ _ Hl). }
    erewrite bind_returns in H by exact Hl.
    pose proof (load_slot_inv _ _ _ _ _ Hl) as (-> & sl & Hargs & Hsl).
    destruct a0 as [p|]; [|inversion H; reflexivity].
    destruct sl as [|x sl]; [discriminate|]. cbn in Hsl. injection Hsl as ->.
    assert (Hp : string_at w p = None).
    { unfold first_token in Hft. rewrite Hargs in Hft. exact Hft. }
    change (seq 0 (Z.to_nat lsh_num_builtins)) with [0; 1; 2]%nat in H.
    cbn [foldr] in H. unfold try_builtin at 1 in H.
    erewrite bind_returns in H by exact Hl.
    cbn [lookup list_lookup builtin_str builtin_func] in H.
    erewrite bind_stops in H by (unfold load_string; rewrite Hp; reflexivity).
    inversion H. reflexivity.
Qed.

(** However a turn ends, the shell has written the prompt, and after it
    the text of help or nothing. *)
Lemma lsh_iteration_stdout w o w' :
  lsh_iteration w = (o, w') →
  stdout w' = stdout w ++ prompt ∨ stdout w' = stdout w ++ prompt ++ help_text.
Proof.
  intros H. unfold lsh_iteration in H.
  erewrite bind_returns in H by apply printf_eq.
  set (w0 := set_stdout (stdout w ++ CStr.lit "> ") w) in H.
  assert (H0 : stdout w0 = stdout w ++ prompt) by reflexivity.
  apply bind_inv in H as [(line & w1 & Hr & H)|(s & Hr & _)].
  2:{ left. rewrite (out_lsh_read_line _ _ _ Hr). exact H0. }
  pose proof (out_lsh_read_line _ _ _ Hr) as H1. cbv beta in H1.
  apply bind_inv in H as [(args & w2 & Hs & H)|(s & Hs & _)].
  2:{ left. rewrite (mem_preserves_lsh_split_line (fun w => stdout w) ltac:(repeat split) _ _ _ _ Hs).
      congruence. }
  pose proof (mem_preserves_lsh_split_line (fun w => stdout w) ltac:(repeat split) _ _ _ _ Hs) as H2.
  cbv beta in H2.
  assert (Hexec : ∀ o3 w3, lsh_execute args w2 = (o3, w3) →
            stdout w3 = stdout w ++ prompt ∨ stdout w3 = stdout w ++ prompt ++ help_text).
  { intros o3 w3 He. destruct (lsh_execute_stdout _ _ _ _ He) as [E|[_ E]]; rewrite E.
    - left. congruence.
    - right. rewrite H2, H1, H0, <- app_assoc. reflexivity. }
  apply bind_inv in H as [(st & w3 & He & H)|(s & He & _)]; [|eapply Hexec; exact He].
  assert (Hrest : stdout w' = stdout w3).
  { revert H. apply (preserves_bind (fun w => stdout w)); [|intros _; apply preserves_bind].
    - apply (mem_preserves_free (fun w => stdout w)). repeat split.
    - apply out_free_chars.
    - intros _. apply preserves_ret. }
  rewrite Hrest. eapply Hexec. exact He.
Qed.

End OutputFacts.

(** ** The maximal runs are the only way to split a line *)

Module SplitsFacts.
Import Runs RunsFacts.

Section WithDelims.
Variable delim : list byte.

Lemma skip_ws_app a b :
  Forall (fun c => is_ws delim c = true) a → skip_ws delim (a ++ b) = skip_ws delim b.
Proof. induction 1 as [|c a Hc _ IH]; cbn [app skip_ws]; [reflexivity|]. now rewrite Hc. Qed.

Lemma word_app t r :
  Forall (fun c => is_ws delim c = false) t →
  r = [] ∨ (∃ d r', r = d :: r' ∧ is_ws delim d = true) →
  word delim (t ++ r) = t.
Proof.
  induction 1 as [|c t Hc _ IH]; intros Hr; cbn [app word].
  - destruct Hr as [->|(d & r' & -> & Hd)]; [reflexivity|]. cbn [word]. now rewrite Hd.
  - rewrite Hc, IH by exact Hr. reflexivity.
Qed.

Lemma after_word_app t d r :
  Forall (fun c => is_ws delim c = false) t → is_ws delim d = true →
  after_word delim (t ++ d :: r) = r.
Proof.
  induction 1 as [|c t Hc _ IH]; intros Hd; cbn [app after_word].
  - now rewrite Hd.
  - rewrite Hc. apply IH, Hd.
Qed.

Lemma after_word_all t :
  Forall (fun c => is_ws delim c = false) t → after_word delim t = [].
Proof. induction 1 as [|c t Hc _ IH]; cbn [after_word]; [reflexivity|]. now rewrite Hc. Qed.

(** A line that reads as words with delimiters around them has these
    words as its runs. *)
Lemma splits_unique s toks : splits_into delim s toks → runs delim s = toks.
Proof.
  intros [Hw (seps & Hlen & Hws & Hinner & <-)].
  revert seps Hlen Hws Hinner.
  induction Hw as [|t toks [Hne Ht] Hw IH]; intros seps Hlen Hws Hinner.
  - destruct seps as [|sep [|? ?]]; try discriminate Hlen.
    cbn [weave]. apply runs_nil. inversion Hws; assumption.
  - destruct seps as [|sep0 [|sep1 seps]]; try discriminate Hlen.
    inversion Hws as [|? ? Hs0 Hws']; subst. inversion Hws' as [|? ? Hs1 Hws'']; subst.
    change (weave (sep0 :: sep1 :: seps) (t :: toks))
      with (sep0 ++ t ++ weave (sep1 :: seps) toks).
    rewrite runs_unfold. unfold next_token. rewrite (skip_ws_app _ _ Hs0).
    destruct t as [|c t]; [done|].
    assert (Hc : is_ws delim c = false) by (inversion Ht; assumption).
    change ((c :: t) ++ ?r) with (c :: (t ++ r)).
    cbn [skip_ws]. rewrite Hc.
    change (c :: (t ++ ?r)) with ((c :: t) ++ r).
    destruct sep1 as [|d sep1].
    + destruct toks as [|t2 toks].
      * destruct seps; [|discriminate Hlen]. cbn [weave].
        rewrite (word_app _ [] Ht) by auto.
        rewrite app_nil_r, (after_word_all _ Ht). reflexivity.
      * exfalso. apply (Hinner 0%nat []); [reflexivity|cbn [length]; lia|reflexivity].
    + rewrite weave_cons_sep.
      assert (Hd : is_ws delim d = true) by (inversion Hs1; assumption).
      rewrite (word_app _ _ Ht) by eauto. rewrite (after_word_app _ _ _ Ht Hd).
      f_equal. apply IH.
      * cbn [length] in *. lia.
      * constructor; [inversion Hs1; assumption|assumption].
      * intros i sep Hi Hlt. apply (Hinner (S i) sep); [exact Hi|cbn [length]; lia].
Qed.

End WithDelims.
End SplitsFacts.

(** * Further properties *)

Import Scenes Frames WaitFacts ExecFacts CapacityFacts TurnFacts OutputFacts.

(** X1. When args[1] names a directory that [chdir] accepts, [lsh_cd]
    changes the working directory of the shell itself to it and returns
    CONTINUE: one [chdir] call, nothing written to stderr or stdout, no
    process created.  Only the cell 1 of the array is read: further
    arguments are ignored. *)
Theorem lsh_cd_changes_directory (args : nat) (w : world) (ps : list slot)
    (p : ptr) (path : list byte) :
  heap w !! args = Some (Ptrs ps) → ps !! 1%nat = Some (Ptr p) →
  string_at w p = Some path → path ∈ dirs w →
  ∃ w', lsh_cd args w = (Returns CONTINUE, w')
        ∧ cwd w' = path
        ∧ calls w' = calls w ++ [CChdir path]
        ∧ stderr w' = stderr w ∧ stdout w' = stdout w
        ∧ heap w' = heap w ∧ forks w' = forks w.
Proof.
  intros Ha H1 Hs Hd. eexists. split.
  - eapply lsh_cd_chdir_succeeds; eassumption.
  - fields. repeat split; reflexivity.
Qed.

Lemma lsh_cd_changes_directory_witness :
  ∃ w', lsh_cd 1 cd_tmp = (Returns CONTINUE, w')
        ∧ cwd w' = CStr.lit "/tmp"
        ∧ calls w' = calls cd_tmp ++ [CChdir (CStr.lit "/tmp")]
        ∧ stderr w' = stderr cd_tmp ∧ stdout w' = stdout cd_tmp
        ∧ heap w' = heap cd_tmp ∧ forks w' = forks cd_tmp.
Proof.
  apply (lsh_cd_changes_directory 1 cd_tmp (slots_of cd_tmp 1) (0%nat, 3%nat)).
  - vm_compute. reflexivity.
  - vm_compute. reflexivity.
  - vm_compute. reflexivity.
  - vm_compute. apply list_elem_of_here.
Defined.

(** X2. In the child that [fork] creates, [lsh_launch] never returns to the
    loop.  [execvp] is given the first token as the file and the whole
    token array, the program name included, as argument vector; when the
    program is run the process image is replaced and nothing is written,
    otherwise the child writes the [perror] line "lsh: ..." of the error
    [execvp] failed with, whichever it is (not found, not executable,
    ...), and exits with EXIT_FAILURE. *)
Theorem lsh_launch_in_child (args : nat) (w : world) (rest : list fork_result)
    (s : list byte) (toks : list (list byte)) :
  forks w = ForkChild :: rest → tokens_of w args = Some (s :: toks) →
  ∃ w', calls w' = calls w ++ [CFork; CExecvp s (s :: toks)]
        ∧ if decide (s ∈ progs w)
          then lsh_launch args w = (Stops (Replaced s (s :: toks)), w')
               ∧ stderr w' = stderr w
          else lsh_launch args w = (Stops (Exit EXIT_FAILURE), w')
               ∧ errno w' = sys_errno w (CExecvp s (s :: toks))
               ∧ stderr w' = stderr w ++ CStr.lit "lsh" ++ CStr.lit ": "
                             ++ strerror w (errno w') ++ newline.
Proof.
  intros Hf Ht. unfold lsh_launch.
  set (w1 := set_children ∅ (set_forks rest (log CFork w))).
  assert (Hfork : fork w = (Returns 0, w1)).
  { rewrite fork_eq. cbn zeta. rewrite Hf. reflexivity. }
  assert (Ht1 : tokens_of w1 args = Some (s :: toks)).
  { unfold tokens_of. rewrite (argv_strings_heap w1 w) by reflexivity. exact Ht. }
  pose proof (tokens_of_cons _ _ _ _ Ht1) as (p & sl & Ha & Hp & Hsl).
  destruct (decide (s ∈ progs w)) as [Hin|Hin].
  - eexists. split; [|split].
    2:{ erewrite bind_returns by exact Hfork.
        rewrite bool_decide_eq_true_2 by reflexivity.
        erewrite bind_stops; [reflexivity|].
        erewrite bind_returns by (eapply load_slot_ptr; [eassumption|reflexivity]).
        erewrite bind_stops; [reflexivity|].
        unfold execvp. rewrite Hp. unfold tokens_of in Ht1. rewrite Ht1.
        rewrite bool_decide_eq_true_2 by exact Hin. reflexivity. }
    + unfold w1. fields. rewrite <- app_assoc. reflexivity.
    + reflexivity.
  - eexists. split; [|split; [|split]].
    2:{ erewrite bind_returns by exact Hfork.
        rewrite bool_decide_eq_true_2 by reflexivity.
        erewrite bind_stops; [reflexivity|].
        erewrite bind_returns by (eapply load_slot_ptr; [eassumption|reflexivity]).
        erewrite bind_returns.
        2:{ unfold execvp. rewrite Hp. unfold tokens_of in Ht1. rewrite Ht1.
            rewrite bool_decide_eq_false_2 by exact Hin. reflexivity. }
        rewrite bool_decide_eq_true_2 by reflexivity.
        erewrite bind_returns by apply perror_eq. reflexivity. }
    + unfold w1. fields. rewrite <- app_assoc. reflexivity.
    + unfold w1. fields. reflexivity.
    + unfold w1. fields. unfold perror_text. fields. reflexivity.
Qed.

Lemma lsh_launch_in_child_witness :
  (∃ w', calls w' = calls ls_child
                    ++ [CFork; CExecvp (CStr.lit "ls") [CStr.lit "ls"; CStr.lit "-l"]]
         ∧ lsh_launch 1 ls_child
           = (Stops (Replaced (CStr.lit "ls") [CStr.lit "ls"; CStr.lit "-l"]), w')
         ∧ stderr w' = stderr ls_child)
  ∧ (∃ w', calls w' = calls ls_child_lost
                      ++ [CFork; CExecvp (CStr.lit "ls") [CStr.lit "ls"; CStr.lit "-l"]]
           ∧ lsh_launch 1 ls_child_lost = (Stops (Exit EXIT_FAILURE), w')
           ∧ errno w' = ENOENT
           ∧ stderr w' = stderr ls_child_lost ++ CStr.lit "lsh" ++ CStr.lit ": "
                         ++ strerror ls_child_lost (errno w') ++ newline)
  ∧ ∃ w', calls w' = calls passwd_child
                     ++ [CFork; CExecvp (CStr.lit "/etc/passwd") [CStr.lit "/etc/passwd"]]
          ∧ lsh_launch 1 passwd_child = (Stops (Exit EXIT_FAILURE), w')
          ∧ errno w' = EACCES
          ∧ stderr w' = stderr passwd_child ++ CStr.lit "lsh" ++ CStr.lit ": "
                        ++ strerror passwd_child (errno w') ++ newline.
Proof.
  split; [|split].
  - apply (lsh_launch_in_child 1 ls_child [] (CStr.lit "ls") [CStr.lit "-l"]).
    + reflexivity.
    + vm_compute. reflexivity.
  - apply (lsh_launch_in_child 1 ls_child_lost [] (CStr.lit "ls") [CStr.lit "-l"]).
    + reflexivity.
    + vm_compute. reflexivity.
  - apply (lsh_launch_in_child 1 passwd_child [] (CStr.lit "/etc/passwd") []).
    + reflexivity.
    + vm_compute. reflexivity.
Defined.

(** X3. [lsh_execute] chooses by comparing the whole first token with the
    three builtin names, exactly: every other first token, however close
    to a name, is handed to [lsh_launch]; and a builtin name never creates
    a process: no [fork], no [execvp], no [waitpid], the only call that
    can be logged is the [chdir] of cd. *)
Theorem lsh_execute_by_exact_name (args : nat) (w : world) (s : list byte) :
  first_token w args = Some s →
  (s ∉ builtin_str → lsh_execute args w = lsh_launch args w)
  ∧ (s ∈ builtin_str →
     ∀ o w', lsh_execute args w = (o, w') →
       forks w' = forks w ∧ children w' = children w
       ∧ (calls w' = calls w ∨ ∃ path, calls w' = calls w ++ [CChdir path])).
Proof.
  intros Hs. rewrite (lsh_execute_dispatch _ _ _ Hs). unfold builtin_str. split.
  - intros Hn.
    destruct (decide (s = CStr.lit "cd")) as [->|_]; [exfalso; apply Hn; set_solver|].
    destruct (decide (s = CStr.lit "help")) as [->|_]; [exfalso; apply Hn; set_solver|].
    destruct (decide (s = CStr.lit "exit")) as [->|_]; [exfalso; apply Hn; set_solver|].
    reflexivity.
  - intros Hin o w' H.
    destruct (decide (s = CStr.lit "cd")); [eapply lsh_cd_calls; exact H|].
    destruct (decide (s = CStr.lit "help")).
    { rewrite lsh_help_eq in H. inversion H; subst. fields. auto. }
    destruct (decide (s = CStr.lit "exit")).
    { inversion H; subst. auto. }
    exfalso. repeat (apply elem_of_cons in Hin as [Hin|Hin]; [contradiction|]).
    inversion Hin.
Qed.

Lemma lsh_execute_by_exact_name_witness :
  (CStr.lit "ls" ∉ builtin_str → lsh_execute 1 ls_split = lsh_launch 1 ls_split)
  ∧ (CStr.lit "ls" ∈ builtin_str →
     ∀ o w', lsh_execute 1 ls_split = (o, w') →
       forks w' = forks ls_split ∧ children w' = children ls_split
       ∧ (calls w' = calls ls_split ∨ ∃ path, calls w' = calls ls_split ++ [CChdir path])).
Proof.
  apply (lsh_execute_by_exact_name 1 ls_split (CStr.lit "ls")).
  vm_compute. reflexivity.
Defined.

(** X4. However it ends, [lsh_execute] leaves the memory and the input as
    they were: it allocates and frees nothing, does not write the line or
    the token array, does not move the saved pointer of [strtok], and reads
    nothing from stdin.  The buffers of the turn are still there for the
    two calls of [free] that follow. *)
Theorem lsh_execute_keeps_memory (args : nat) (w : world) (o : outcome Z) (w' : world) :
  lsh_execute args w = (o, w') →
  heap w' = heap w ∧ alloc_count w' = alloc_count w
  ∧ strtok_save w' = strtok_save w
  ∧ stdin w' = stdin w ∧ stdin_eof w' = stdin_eof w.
Proof.
  intros H.
  assert (Hblind : ∀ A (f : world → A), os_blind f → f w' = f w).
  { intros A f Hf. exact (preserves_lsh_execute f Hf args w o w' H). }
  split; [exact (Hblind _ (fun w => heap w) os_blind_heap)|].
  split; [exact (Hblind _ (fun w => alloc_count w) os_blind_alloc_count)|].
  split; [apply (Hblind _ (fun w => strtok_save w)); repeat split|].
  split; [exact (Hblind _ (fun w => stdin w) os_blind_stdin)|].
  apply (Hblind _ (fun w => stdin_eof w)); repeat split.
Qed.

Lemma lsh_execute_keeps_memory_witness :
  heap (lsh_execute 1 cd_tmp).2 = heap cd_tmp
  ∧ alloc_count (lsh_execute 1 cd_tmp).2 = alloc_count cd_tmp
  ∧ strtok_save (lsh_execute 1 cd_tmp).2 = strtok_save cd_tmp
  ∧ stdin (lsh_execute 1 cd_tmp).2 = stdin cd_tmp
  ∧ stdin_eof (lsh_execute 1 cd_tmp).2 = stdin_eof cd_tmp.
Proof.
  apply (lsh_execute_keeps_memory 1 cd_tmp (lsh_execute 1 cd_tmp).1).
  vm_compute. reflexivity.
Defined.

(** X5. The shell side of [lsh_launch] waits through every report that
    shows the child stopped (the low seven bits of the status all set) and
    returns CONTINUE at the first report that shows it exited or killed by
    a signal: one [waitpid] on the child's pid for each report up to that
    one, after which the child is reaped.  If the child is never reported
    ended, the call does not return. *)
Theorem lsh_launch_waits_through_stops (args : nat) (w : world) (pid : Z)
    (reports : list Z) (rest : list fork_result) :
  forks w = ForkParent pid reports :: rest → 0 < pid →
  (∀ pre s post, reports = pre ++ s :: post →
     Forall (fun r => WTERMSIG r = 127) pre → WTERMSIG s ≠ 127 →
     ∃ w', lsh_launch args w = (Returns CONTINUE, w')
           ∧ calls w' = calls w ++ CFork :: replicate (S (length pre)) (CWaitpid pid)
           ∧ children w' !! pid = None ∧ forks w' = rest)
  ∧ (Forall (fun r => WTERMSIG r = 127) reports →
     ∃ w', lsh_launch args w = (Stops Blocked, w')
           ∧ calls w' = calls w
                        ++ CFork :: replicate (S (length reports)) (CWaitpid pid)).
Proof.
  intros Hf Hpid. split.
  - intros pre s post -> Hpre Hs.
    destruct (waits_stops pre s post Hpre Hs) as [Hw Hex].
    eexists. split; [apply (lsh_launch_parent args w pid _ rest Hf Hpid Hex)|].
    fields. rewrite Hw. split; [reflexivity|]. split; [apply lookup_delete_eq|reflexivity].
  - intros Hall. unfold lsh_launch.
    set (w1 := set_children (<[pid := reports]> (children w)) (set_forks rest (log CFork w))).
    assert (Hfork : fork w = (Returns pid, w1)).
    { rewrite fork_eq. cbn zeta. rewrite Hf. reflexivity. }
    destruct (wait_loop_blocks pid reports (S (length reports)) None w1)
      as (w' & Hwait & Hcalls); [apply lookup_insert_eq|exact Hall|lia|].
    exists w'. split.
    + erewrite bind_returns by exact Hfork.
      rewrite bool_decide_eq_false_2 by lia. rewrite bool_decide_eq_false_2 by lia.
      erewrite bind_stops; [reflexivity|].
      erewrite bind_returns by reflexivity. unfold w1 at 1. fields.
      rewrite lookup_insert_eq. exact Hwait.
    + rewrite Hcalls. unfold w1. fields. rewrite <- app_assoc. reflexivity.
Qed.

Lemma lsh_launch_waits_through_stops_witness :
  (∃ w', lsh_launch 0 stopped_then_killed = (Returns CONTINUE, w')
         ∧ calls w' = calls stopped_then_killed
                      ++ CFork :: replicate 3 (CWaitpid 7)
         ∧ children w' !! 7 = None ∧ forks w' = [])
  ∧ ∃ w', lsh_launch 0 never_ends = (Stops Blocked, w')
          ∧ calls w' = calls never_ends ++ CFork :: replicate 3 (CWaitpid 7).
Proof.
  split.
  - apply (proj1 (lsh_launch_waits_through_stops 0 stopped_then_killed 7
                    [4991; 4991; 9; 0] [] eq_refl ltac:(lia)) [4991; 4991] 9 [0]).
    + reflexivity.
    + repeat constructor.
    + vm_compute. discriminate.
  - apply (proj2 (lsh_launch_waits_through_stops 0 never_ends 7 [4991; 4991] []
                    eq_refl ltac:(lia))).
    repeat constructor.
Defined.

(** X7. For a line of n tokens, n + 64 within the range of [int], the
    array [lsh_split_line] returns has exactly 64 * (n / 64 + 1) cells: it
    starts with 64 and grows by 64 each time the token just stored fills
    it, so also when n is a multiple of 64 and the NULL alone needs the
    room.  The call makes 1 + n / 64 allocation calls: the [malloc] and
    one [realloc] for each growth.  Under this bound [buffsize], whose
    last value is the number of cells, never leaves the range of [int];
    from 2^31 - 64 tokens on, [buffsize += LSH_TOK_BUFSIZE] would. *)
Theorem lsh_split_line_array_size (w : world) (lb off : nat) (bs str : list byte) :
  heap w !! lb = Some (Chars bs) → CStr.cstr_at bs off = Some str →
  (∀ k, (alloc_count w ≤ k)%nat → alloc_ok w k = true) →
  let n := Z.of_nat (Runs.count_runs LSH_TOK_DELIM str) in
  n + LSH_TOK_BUFSIZE ≤ INT_MAX →
  ∃ tb w' sl,
    lsh_split_line (lb, off) w = (Returns tb, w')
    ∧ heap w' !! tb = Some (Ptrs sl)
    ∧ Z.of_nat (length sl) = 64 * (n / 64 + 1)
    ∧ Z.of_nat (length sl) ≤ INT_MAX
    ∧ Z.of_nat (alloc_count w') = Z.of_nat (alloc_count w) + 1 + n / 64.
Proof.
  intros Hline Hstr Hok n Hint.
  destruct (lsh_split_line_spec w lb off bs str Hline Hstr)
    as (o & w' & Hrun & [(tb & -> & _)|(-> & Hfail & _)]).
  2:{ exfalso. eapply alloc_failure_not_ok; eassumption. }
  destruct (lsh_split_line_capacity _ _ _ _ _ _ _ Hline Hstr Hrun)
    as (sl & bs' & Hh & _ & Hlen & _ & Hcount).
  rewrite RunsFacts.length_runs in Hlen, Hcount.
  exists tb, w', sl. split; [exact Hrun|].
  split; [rewrite Hh; apply lookup_insert_eq|]. split; [exact Hlen|].
  split; [|exact Hcount].
  rewrite Hlen. unfold n, LSH_TOK_BUFSIZE, INT_MAX in Hint |- *.
  pose proof (Nat2Z.is_nonneg (Runs.count_runs LSH_TOK_DELIM str)).
  Z.div_mod_to_equations. lia.
Qed.

Lemma lsh_split_line_array_size_witness :
  ∃ tb w' sl,
    lsh_split_line (0%nat, 0%nat) (holding long_line) = (Returns tb, w')
    ∧ heap w' !! tb = Some (Ptrs sl)
    ∧ Z.of_nat (length sl) = 128
    ∧ Z.of_nat (length sl) ≤ INT_MAX
    ∧ Z.of_nat (alloc_count w') = 2.
Proof.
  apply (lsh_split_line_array_size (holding long_line) 0 0 (long_line ++ [CStr.NUL]) long_line).
  - vm_compute. reflexivity.
  - vm_compute. reflexivity.
  - intros k _. reflexivity.
  - vm_compute. discriminate.
Defined.

(** X8. [lsh_split_line] splits the line in place: the array it returns is
    one new block, every token pointer in it points into the buffer of the
    line itself, where the token is followed by a NUL (no token is
    copied); the buffer of the line keeps its size, and no other block of
    the heap is touched. *)
Theorem lsh_split_line_in_place (w : world) (lb off : nat) (bs str : list byte) :
  heap w !! lb = Some (Chars bs) → CStr.cstr_at bs off = Some str →
  (∀ k, (alloc_count w ≤ k)%nat → alloc_ok w k = true) →
  ∃ tb w' sl bs',
    lsh_split_line (lb, off) w = (Returns tb, w')
    ∧ heap w !! tb = None
    ∧ heap w' !! tb = Some (Ptrs sl)
    ∧ heap w' !! lb = Some (Chars bs') ∧ length bs' = length bs
    ∧ (∀ b, b ≠ lb → b ≠ tb → heap w' !! b = heap w !! b)
    ∧ ∀ i t, Runs.runs LSH_TOK_DELIM str !! i = Some t →
        ∃ q, sl !! i = Some (Ptr (lb, q))
             ∧ take (length t) (drop q bs') = t
             ∧ bs' !! (q + length t)%nat = Some CStr.NUL.
Proof.
  intros Hline Hstr Hok.
  destruct (lsh_split_line_spec w lb off bs str Hline Hstr)
    as (o & w' & Hrun & [(tb & -> & Hres)|(-> & Hfail & _)]).
  2:{ exfalso. eapply alloc_failure_not_ok; eassumption. }
  destruct (lsh_split_line_capacity _ _ _ _ _ _ _ Hline Hstr Hrun)
    as (sl & bs' & Hh & Hn & _ & Hlen & _).
  destruct Hres as (sl2 & bs2 & ps & Hh2 & _ & Hne & Htk & _ & _ & Hall & _).
  cbn [fst] in Hh2, Hne, Htk.
  assert (Htb : heap w' !! tb = Some (Ptrs sl)) by (rewrite Hh; apply lookup_insert_eq).
  assert (Hlb : heap w' !! lb = Some (Chars bs')).
  { rewrite Hh, lookup_insert_ne, lookup_insert_eq by congruence. reflexivity. }
  assert (sl2 = sl) as -> by (rewrite Hh2, lookup_insert_eq in Htb; congruence).
  assert (bs2 = bs') as ->.
  { rewrite Hh2, lookup_insert_ne, lookup_insert_eq in Hlb by congruence. congruence. }
  exists tb, w', sl, bs'. split; [exact Hrun|]. split; [exact Hn|].
  split; [exact Htb|]. split; [exact Hlb|]. split; [exact Hlen|].
  split.
  { intros b Hb1 Hb2. rewrite Hh, !lookup_insert_ne by congruence. reflexivity. }
  intros i t Hi.
  destruct (Forall2_lookup_r _ _ _ _ _ Hall Hi) as (q & Hq & Hcs).
  exists q. split.
  - assert (Hlt : (i < length ps)%nat) by (eapply lookup_lt_Some; exact Hq).
    rewrite <- (lookup_take_lt sl (length ps) i) by exact Hlt.
    rewrite Htk, list_lookup_fmap, Hq. reflexivity.
  - split; [|eapply CStrFacts.cstr_at_terminator; exact Hcs].
    apply CStrFacts.cstr_at_inv in Hcs as (r & Hd & _). rewrite Hd.
    rewrite take_app_length. reflexivity.
Qed.

Lemma lsh_split_line_in_place_witness :
  ∃ tb w' sl bs',
    lsh_split_line (0%nat, 0%nat) (holding ls_line) = (Returns tb, w')
    ∧ heap (holding ls_line) !! tb = None
    ∧ heap w' !! tb = Some (Ptrs sl)
    ∧ heap w' !! 0%nat = Some (Chars bs') ∧ length bs' = length (ls_line ++ [CStr.NUL])
    ∧ (∀ b, b ≠ 0%nat → b ≠ tb → heap w' !! b = heap (holding ls_line) !! b)
    ∧ ∀ i t, Runs.runs LSH_TOK_DELIM ls_line !! i = Some t →
        ∃ q, sl !! i = Some (Ptr (0%nat, q))
             ∧ take (length t) (drop q bs') = t
             ∧ bs' !! (q + length t)%nat = Some CStr.NUL.
Proof.
  apply (lsh_split_line_in_place (holding ls_line) 0 0 (ls_line ++ [CStr.NUL]) ls_line).
  - vm_compute. reflexivity.
  - vm_compute. reflexivity.
  - intros k _. reflexivity.
Defined.

(** X9. When [main] returns, it returns EXIT_SUCCESS from the turn that
    read the first line whose first token is exit: the lines before it are
    not exit commands, the lines after it are left unread, and the heap is
    what it was at the start, every buffer of every turn having been
    freed. *)
Theorem main_returns_at_first_exit (w : world) (c : Z) (w' : world) :
  main w = (Returns c, w') →
  c = EXIT_SUCCESS ∧ heap w' = heap w
  ∧ ∃ pre bs,
      stdin w = (GetlineOk <$> pre) ++ GetlineOk bs :: stdin w'
      ∧ head (Runs.runs LSH_TOK_DELIM (until_nul bs)) = Some (CStr.lit "exit")
      ∧ Forall (fun l => head (Runs.runs LSH_TOK_DELIM (until_nul l))
                         ≠ Some (CStr.lit "exit")) pre.
Proof. intros H. exact (main_returns_inv _ w eq_refl c w' H). Qed.

Lemma main_returns_at_first_exit_witness :
  0 = EXIT_SUCCESS ∧ heap (main ls_exit_more).2 = heap ls_exit_more
  ∧ ∃ pre bs,
      stdin ls_exit_more = (GetlineOk <$> pre) ++ GetlineOk bs :: stdin (main ls_exit_more).2
      ∧ head (Runs.runs LSH_TOK_DELIM (until_nul bs)) = Some (CStr.lit "exit")
      ∧ Forall (fun l => head (Runs.runs LSH_TOK_DELIM (until_nul l))
                         ≠ Some (CStr.lit "exit")) pre.
Proof.
  apply (main_returns_at_first_exit ls_exit_more 0 (main ls_exit_more).2).
  vm_compute. reflexivity.
Defined.

(** X10. One turn of the loop on a line, when no allocation fails: the
    prompt is written, the line read, and the command dispatched has
    exactly the tokens of the line (of the part before a NUL byte, if the
    line holds one).  The turn ends as [lsh_execute] ends, and with its
    status when it returns one; the array is then freed, and the line
    after it. *)
Theorem turn_dispatches_the_line (w : world) (bs : list byte) (rest : list getline_result) :
  stdin w = GetlineOk bs :: rest →
  (∀ k, (alloc_count w ≤ k)%nat → alloc_ok w k = true) →
  ∃ line w1 args w2,
    lsh_read_line (set_stdout (stdout w ++ prompt) w) = (Returns line, w1)
    ∧ lsh_split_line line w1 = (Returns args, w2)
    ∧ tokens_of w2 args = Some (Runs.runs LSH_TOK_DELIM (until_nul bs))
    ∧ (lsh_iteration w).1 = (lsh_execute args w2).1
    ∧ ∀ st w3, lsh_execute args w2 = (Returns st, w3) →
        calls (lsh_iteration w).2 = calls w3 ++ [CFree args; CFree line.1]
        ∧ heap (lsh_iteration w).2 = heap w.
Proof.
  intros Hin Hok.
  destruct (turn_runs_command w bs rest Hin Hok) as (args & w2 & Hsplit & Htoks & _ & _ & Hturn).
  exists (fresh (dom (heap w)), 0%nat), (after_getline bs rest w), args, w2.
  split.
  { rewrite lsh_read_line_eq. fields. rewrite Hin. reflexivity. }
  split; [exact Hsplit|]. split; [exact Htoks|].
  split.
  - destruct (lsh_execute args w2) as [[st|s] w3] eqn:Hexec.
    + destruct (Hturn _ _ eq_refl) as (w' & -> & _). reflexivity.
    + rewrite (Hturn _ _ eq_refl). reflexivity.
  - intros st w3 Hexec.
    destruct (Hturn _ _ Hexec) as (w' & -> & Hheap & Hcalls & _). auto.
Qed.

Lemma turn_dispatches_the_line_witness :
  ∃ line w1 args w2,
    lsh_read_line (set_stdout (stdout reads_cd_tmp ++ prompt) reads_cd_tmp)
    = (Returns line, w1)
    ∧ lsh_split_line line w1 = (Returns args, w2)
    ∧ tokens_of w2 args = Some (Runs.runs LSH_TOK_DELIM (until_nul cd_tmp_line))
    ∧ (lsh_iteration reads_cd_tmp).1 = (lsh_execute args w2).1
    ∧ ∀ st w3, lsh_execute args w2 = (Returns st, w3) →
        calls (lsh_iteration reads_cd_tmp).2 = calls w3 ++ [CFree args; CFree line.1]
        ∧ heap (lsh_iteration reads_cd_tmp).2 = heap reads_cd_tmp.
Proof.
  apply (turn_dispatches_the_line reads_cd_tmp cd_tmp_line []).
  - reflexivity.
  - intros k _. reflexivity.
Defined.

(** X11. A line whose tokens are cd, a path that [chdir] accepts, and
    anything after, however they are spaced: the turn returns CONTINUE
    with the working directory of the shell changed to the path, nothing
    on stderr, only the prompt on stdout, no process created and the
    buffers freed. *)
Theorem cd_line_changes_directory (w : world) (bs : list byte)
    (rest : list getline_result) (path : list byte) (more : list (list byte)) :
  stdin w = GetlineOk bs :: rest →
  (∀ k, (alloc_count w ≤ k)%nat → alloc_ok w k = true) →
  Runs.runs LSH_TOK_DELIM (until_nul bs) = CStr.lit "cd" :: path :: more →
  path ∈ dirs w →
  ∃ w', lsh_iteration w = (Returns CONTINUE, w')
        ∧ cwd w' = path ∧ stdin w' = rest ∧ heap w' = heap w
        ∧ stdout w' = stdout w ++ prompt ∧ stderr w' = stderr w
        ∧ forks w' = forks w.
Proof.
  intros Hin Hok Hruns Hdir.
  destruct (turn_runs_command w bs rest Hin Hok) as (args & w2 & _ & Htoks & Hw2 & Herr & Hturn).
  rewrite Hruns in Htoks.
  pose proof (tokens_of_cons _ _ _ _ Htoks) as (p0 & sl & Ha & _ & Hsl).
  apply strings_until_null_inv in Hsl as (p & sl' & -> & Hp & _).
  assert (Hd2 : path ∈ dirs w2).
  { rewrite (Hw2 _ (fun w => dirs w)) by (repeat split). exact Hdir. }
  assert (Hexec : lsh_execute args w2
                  = (Returns CONTINUE, set_cwd path (log (CChdir path) w2))).
  { rewrite (lsh_execute_dispatch _ _ _ (tokens_of_first _ _ _ _ Htoks)).
    destruct (decide (CStr.lit "cd" = CStr.lit "cd")) as [_|E]; [|done].
    eapply lsh_cd_chdir_succeeds; [exact Ha|reflexivity|exact Hp|exact Hd2]. }
  destruct (Hturn _ _ Hexec) as (w' & Hit & Hheap & _ & Hw').
  exists w'. split; [exact Hit|].
  split; [rewrite (Hw' _ (fun w => cwd w)) by (repeat split); reflexivity|].
  split.
  { rewrite (Hw' _ (fun w => stdin w)) by (repeat split). fields.
    rewrite (Hw2 _ (fun w => stdin w)) by (repeat split). reflexivity. }
  split; [exact Hheap|].
  split.
  { rewrite (Hw' _ (fun w => stdout w)) by (repeat split). fields.
    rewrite (Hw2 _ (fun w => stdout w)) by (repeat split). reflexivity. }
  split.
  { rewrite (Hw' _ (fun w => stderr w)) by (repeat split). fields. exact Herr. }
  rewrite (Hw' _ (fun w => forks w)) by (repeat split). fields.
  rewrite (Hw2 _ (fun w => forks w)) by (repeat split). reflexivity.
Qed.

Lemma cd_line_changes_directory_witness :
  ∃ w', lsh_iteration reads_cd_tmp = (Returns CONTINUE, w')
        ∧ cwd w' = CStr.lit "/tmp" ∧ stdin w' = [] ∧ heap w' = heap reads_cd_tmp
        ∧ stdout w' = stdout reads_cd_tmp ++ prompt ∧ stderr w' = stderr reads_cd_tmp
        ∧ forks w' = forks reads_cd_tmp.
Proof.
  apply (cd_line_changes_directory reads_cd_tmp cd_tmp_line [] (CStr.lit "/tmp") []).
  - reflexivity.
  - intros k _. reflexivity.
  - vm_compute. reflexivity.
  - vm_compute. apply list_elem_of_here.
Defined.

(** X12. A line of delimiters only, or an empty one: the turn returns
    CONTINUE having written the prompt and consumed the line, and nothing
    else shows: same directory, nothing on stderr, no process created or
    reaped, the heap as it was. *)
Theorem blank_line_turn (w : world) (bs : list byte) (rest : list getline_result) :
  stdin w = GetlineOk bs :: rest →
  (∀ k, (alloc_count w ≤ k)%nat → alloc_ok w k = true) →
  Forall (fun c => Runs.is_ws LSH_TOK_DELIM c = true) (until_nul bs) →
  ∃ w', lsh_iteration w = (Returns CONTINUE, w')
        ∧ stdin w' = rest ∧ stdout w' = stdout w ++ prompt
        ∧ heap w' = heap w ∧ cwd w' = cwd w ∧ stderr w' = stderr w
        ∧ errno w' = errno w ∧ forks w' = forks w ∧ children w' = children w.
Proof.
  intros Hin Hok Hws.
  destruct (turn_runs_command w bs rest Hin Hok) as (args & w2 & _ & Htoks & Hw2 & Herr & Hturn).
  rewrite (RunsFacts.runs_nil _ _ Hws) in Htoks.
  apply tokens_of_nil in Htoks as (sl & Ha).
  destruct (Hturn _ _ (lsh_execute_empty _ _ _ Ha)) as (w' & Hit & Hheap & _ & Hw').
  exists w'. split; [exact Hit|].
  assert (Hvia : ∀ A (f : world → A), free_blind f → mem_blind f →
            f w' = f (after_getline bs rest w)).
  { intros A f Hf Hm. rewrite (Hw' _ f Hf). apply (Hw2 _ f Hm). }
  split; [rewrite (Hvia _ (fun w => stdin w)) by (repeat split); reflexivity|].
  split; [rewrite (Hvia _ (fun w => stdout w)) by (repeat split); reflexivity|].
  split; [exact Hheap|].
  split; [rewrite (Hvia _ (fun w => cwd w)) by (repeat split); reflexivity|].
  split; [rewrite (Hw' _ (fun w => stderr w)) by (repeat split); exact Herr|].
  split; [rewrite (Hvia _ (fun w => errno w)) by (repeat split); reflexivity|].
  split; [rewrite (Hvia _ (fun w => forks w)) by (repeat split); reflexivity|].
  rewrite (Hvia _ (fun w => children w)) by (repeat split); reflexivity.
Qed.

Lemma blank_line_turn_witness :
  ∃ w', lsh_iteration reads_blank = (Returns CONTINUE, w')
        ∧ stdin w' = [] ∧ stdout w' = stdout reads_blank ++ prompt
        ∧ heap w' = heap reads_blank ∧ cwd w' = cwd reads_blank
        ∧ stderr w' = stderr reads_blank
        ∧ errno w' = errno reads_blank ∧ forks w' = forks reads_blank
        ∧ children w' = children reads_blank.
Proof.
  apply (blank_line_turn reads_blank blank_line []).
  - reflexivity.
  - intros k _. reflexivity.
  - vm_compute. repeat constructor.
Defined.

(** X13. Whatever the line and however the turn ends (a status returned,
    End-of-Input, a fatal error, the child side of a fork), the shell has
    written on stdout the prompt "> " and, after it, either nothing or the
    text of help.  Of all the paths of [lsh_execute], only the one of a
    first token that is exactly help writes on stdout. *)
Theorem turn_writes_prompt_and_help_only (w : world) :
  (stdout (lsh_iteration w).2 = stdout w ++ prompt
   ∨ stdout (lsh_iteration w).2 = stdout w ++ prompt ++ help_text)
  ∧ (∀ args, stdout (lsh_execute args w).2 = stdout w
             ∨ (first_token w args = Some (CStr.lit "help")
                ∧ stdout (lsh_execute args w).2 = stdout w ++ help_text))
  ∧ prompt = CStr.lit "> ".
Proof.
  split; [|split; [|reflexivity]].
  - destruct (lsh_iteration w) as [o w'] eqn:H. exact (lsh_iteration_stdout _ _ _ H).
  - intros args. destruct (lsh_execute args w) as [o w'] eqn:H.
    exact (lsh_execute_stdout _ _ _ _ H).
Qed.

(** X14. A line whose first token is not a builtin name, in the shell
    whose [fork] creates a child that ends: [lsh_read_line] returns the
    line, [lsh_split_line] the array of its tokens, and the turn returns
    CONTINUE once the child has been waited for and reaped; only then it
    frees that array and that line, in this order.  The shell itself is
    as before: same directory, nothing on stderr, only the prompt on
    stdout, the heap as it was. *)
Theorem external_command_turn (w : world) (bs : list byte) (rest : list getline_result)
    (s : list byte) (toks : list (list byte)) (pid : Z) (reports : list Z)
    (later : list fork_result) :
  stdin w = GetlineOk bs :: rest →
  (∀ k, (alloc_count w ≤ k)%nat → alloc_ok w k = true) →
  Runs.runs LSH_TOK_DELIM (until_nul bs) = s :: toks → s ∉ builtin_str →
  forks w = ForkParent pid reports :: later → 0 < pid →
  Exists (fun r => terminal r = true) reports →
  ∃ line w1 args w2 w',
    lsh_read_line (set_stdout (stdout w ++ prompt) w) = (Returns line, w1)
    ∧ lsh_split_line line w1 = (Returns args, w2)
    ∧ tokens_of w2 args = Some (s :: toks)
    ∧ heap w !! line.1 = None ∧ heap w1 !! args = None
    ∧ lsh_iteration w = (Returns CONTINUE, w')
    ∧ calls w' = calls w2 ++ CFork :: replicate (waits reports) (CWaitpid pid)
                 ++ [CFree args; CFree line.1]
    ∧ forks w' = later ∧ children w' = delete pid (children w)
    ∧ stdin w' = rest ∧ heap w' = heap w ∧ cwd w' = cwd w
    ∧ stdout w' = stdout w ++ prompt ∧ stderr w' = stderr w.
Proof.
  intros Hin Hok Hruns Hext Hf Hpid Hex.
  destruct (turn_runs_command w bs rest Hin Hok)
    as (args & w2 & Hsplit & Htoks & Hw2 & Herr & Hturn).
  rewrite Hruns in Htoks.
  assert (Hf2 : forks w2 = ForkParent pid reports :: later).
  { rewrite (Hw2 _ (fun w => forks w)) by (repeat split). exact Hf. }
  assert (Hexec : lsh_execute args w2
                  = (Returns CONTINUE,
                     set_children (delete pid (children w2))
                       (set_forks later
                          (set_calls (calls w2 ++ CFork :: replicate (waits reports) (CWaitpid pid))
                             w2)))).
  { rewrite (lsh_execute_dispatch _ _ _ (tokens_of_first _ _ _ _ Htoks)).
    unfold builtin_str in Hext.
    destruct (decide (s = CStr.lit "cd")) as [->|_]; [exfalso; apply Hext; set_solver|].
    destruct (decide (s = CStr.lit "help")) as [->|_]; [exfalso; apply Hext; set_solver|].
    destruct (decide (s = CStr.lit "exit")) as [->|_]; [exfalso; apply Hext; set_solver|].
    apply lsh_launch_parent; assumption. }
  destruct (Hturn _ _ Hexec) as (w' & Hit & Hheap & Hcalls & Hw').
  exists (fresh (dom (heap w)), 0%nat), (after_getline bs rest w), args, w2, w'.
  split.
  { rewrite lsh_read_line_eq. fields. rewrite Hin. reflexivity. }
  split; [exact Hsplit|]. split; [exact Htoks|].
  split; [apply fresh_heap|].
  split.
  { destruct (TurnBuffers.split_returns_heap (after_getline bs rest w)
                (fresh (dom (heap w))) bs args w2) as (_ & _ & _ & Hn & _);
      [apply lookup_insert_eq|exact Hsplit|exact Hn]. }
  split; [exact Hit|].
  split; [rewrite Hcalls; fields; rewrite <- app_assoc; reflexivity|].
  split; [rewrite (Hw' _ (fun w => forks w)) by (repeat split); reflexivity|].
  split.
  { rewrite (Hw' _ (fun w => children w)) by (repeat split). fields.
    rewrite (Hw2 _ (fun w => children w)) by (repeat split). reflexivity. }
  split.
  { rewrite (Hw' _ (fun w => stdin w)) by (repeat split). fields.
    rewrite (Hw2 _ (fun w => stdin w)) by (repeat split). reflexivity. }
  split; [exact Hheap|].
  split.
  { rewrite (Hw' _ (fun w => cwd w)) by (repeat split). fields.
    rewrite (Hw2 _ (fun w => cwd w)) by (repeat split). reflexivity. }
  split.
  { rewrite (Hw' _ (fun w => stdout w)) by (repeat split). fields.
    rewrite (Hw2 _ (fun w => stdout w)) by (repeat split). reflexivity. }
  rewrite (Hw' _ (fun w => stderr w)) by (repeat split). fields. exact Herr.
Qed.

Lemma external_command_turn_witness :
  ∃ line w1 args w2 w',
    lsh_read_line (set_stdout (stdout ls_exit_more ++ prompt) ls_exit_more)
    = (Returns line, w1)
    ∧ lsh_split_line line w1 = (Returns args, w2)
    ∧ tokens_of w2 args = Some [CStr.lit "ls"]
    ∧ heap ls_exit_more !! line.1 = None ∧ heap w1 !! args = None
    ∧ lsh_iteration ls_exit_more = (Returns CONTINUE, w')
    ∧ calls w' = calls w2 ++ CFork :: replicate (waits [0]) (CWaitpid 7)
                 ++ [CFree args; CFree line.1]
    ∧ forks w' = [] ∧ children w' = delete 7 (children ls_exit_more)
    ∧ stdin w' = [GetlineOk (CStr.lit "exit" ++ newline); GetlineOk (CStr.lit "help" ++ newline)]
    ∧ heap w' = heap ls_exit_more ∧ cwd w' = cwd ls_exit_more
    ∧ stdout w' = stdout ls_exit_more ++ prompt ∧ stderr w' = stderr ls_exit_more.
Proof.
  apply (external_command_turn ls_exit_more (CStr.lit "ls" ++ newline) _ (CStr.lit "ls") []).
  - reflexivity.
  - intros k _. reflexivity.
  - vm_compute. reflexivity.
  - apply (bool_decide_unpack _). vm_compute. exact I.
  - reflexivity.
  - lia.
  - constructor. vm_compute. reflexivity.
Defined.

(** X15. Words are read back as they were written: when the line is a
    sequence of words, each non-empty and free of delimiters, with
    delimiters only before, between and after them and at least one
    between two words, the array [lsh_split_line] returns holds exactly
    these words, in order. *)
Theorem lsh_split_line_reads_words_back (w : world) (lb off : nat)
    (bs str : list byte) (toks : list (list byte)) :
  heap w !! lb = Some (Chars bs) → CStr.cstr_at bs off = Some str →
  (∀ k, (alloc_count w ≤ k)%nat → alloc_ok w k = true) →
  Runs.splits_into LSH_TOK_DELIM str toks →
  ∃ tb w', lsh_split_line (lb, off) w = (Returns tb, w') ∧ tokens_of w' tb = Some toks.
Proof.
  intros Hline Hstr Hok Hsplit.
  destruct (lsh_split_line_spec w lb off bs str Hline Hstr)
    as (o & w' & Hrun & [(tb & -> & Hres)|(-> & Hfail & _)]).
  2:{ exfalso. eapply alloc_failure_not_ok; eassumption. }
  exists tb, w'. split; [exact Hrun|].
  rewrite <- (SplitsFacts.splits_unique _ _ _ Hsplit).
  eapply split_result_tokens. exact Hres.
Qed.

Lemma lsh_split_line_reads_words_back_witness :
  ∃ tb w', lsh_split_line (0%nat, 0%nat) (holding ls_line) = (Returns tb, w')
           ∧ tokens_of w' tb = Some [CStr.lit "ls"; CStr.lit "-l"].
Proof.
  apply (lsh_split_line_reads_words_back (holding ls_line) 0 0
           (ls_line ++ [CStr.NUL]) ls_line).
  - vm_compute. reflexivity.
  - vm_compute. reflexivity.
  - intros k _. reflexivity.
  - split.
    + repeat constructor; discriminate.
    + exists [CStr.lit "  "; CStr.lit "   "; CStr.lit " " ++ newline].
      split; [reflexivity|]. split; [repeat constructor|]. split; [|reflexivity].
      intros i sep Hi Hlt. destruct i as [|i]; [|cbn [length] in Hlt; lia].
      injection Hi as <-. discriminate.
Defined.

(** X16. At the top of every turn the loop comes to, the heap is the heap
    the program started with: no buffer of an earlier turn is left.  The
    input consumed so far is the lines of the earlier turns, one a turn,
    and none of them is an exit command. *)
Theorem loop_keeps_the_heap (w0 w : world) :
  reaches w0 w →
  heap w = heap w0
  ∧ ∃ lines,
      stdin w0 = (GetlineOk <$> lines) ++ stdin w
      ∧ Forall (fun l => head (Runs.runs LSH_TOK_DELIM (until_nul l))
                         ≠ Some (CStr.lit "exit")) lines.
Proof. apply ReachFacts.reaches_inv. Qed.

Lemma loop_keeps_the_heap_witness :
  heap (lsh_iteration ls_exit_more).2 = heap ls_exit_more
  ∧ ∃ lines,
      stdin ls_exit_more = (GetlineOk <$> lines) ++ stdin (lsh_iteration ls_exit_more).2
      ∧ Forall (fun l => head (Runs.runs LSH_TOK_DELIM (until_nul l))
                         ≠ Some (CStr.lit "exit")) lines.
Proof.
  apply (loop_keeps_the_heap ls_exit_more (lsh_iteration ls_exit_more).2).
  apply reaches_turn with (w1 := (lsh_iteration ls_exit_more).2) (st := 1);
    [vm_compute; reflexivity|lia|apply reaches_here].
Defined.
